(** * Option market maker: pricing, quoting and delta-hedging simulators

    A shallow embedding of the three scripts of the repository

      - [market_maker.py]       (class [OptionMarketMaker]),
      - [compare_volatility.py] (class [DeltaHedgingSimulator], method [run]),
      - [hedging_autosim.py]    (class [DeltaHedgingSimulator], method
                                 [run_simulation]),

    together with the properties stated about them.

    ** Numbers

    The scripts compute with Python floats and numpy [float64] values.  The
    embedding keeps the part of IEEE-754 arithmetic that decides control flow
    and error behaviour and idealises the rest:

      - a finite value is a real number and finite arithmetic is exact
        (no rounding, no overflow);
      - the special values [+inf], [-inf] and [nan] are kept, with the
        rules numpy applies to them (division by zero gives an infinity or
        [nan] and a warning, never an exception; [sqrt] and [log] of a
        negative number give [nan]; every comparison with [nan] is false);
      - zero is unsigned: a zero divisor is read as [+0.0], which is what
        the scripts produce whenever the volatility is positive;
      - a division between two plain Python numbers raises
        [ZeroDivisionError] on a zero divisor, as in Python.

    ** Library functions

    [np.log], [np.exp] and [np.sqrt] are the real functions [ln], [exp] and
    [sqrt] extended to the special values.  [norm.pdf] is the standard normal
    density and [norm.cdf] its integral, [1/2] plus the Riemann integral of
    the density from [0].  [np.random.normal(0, 1)] draws from numpy's
    process-global generator, modelled as a stream of finite draws with a
    cursor; seeding the generator chooses the stream. *)

From Stdlib Require Import Reals Lra Lia List ZArith Bool.
Import ListNotations.

Local Open Scope R_scope.

(* ================================================================== *)
(** * Floating-point values *)
(* ================================================================== *)

Inductive float64 : Type :=
| Fin (x : R)
| PInf
| NInf
| NaN.

Definition is_finite (a : float64) : Prop :=
  match a with Fin _ => True | _ => False end.

Definition Rltb (x y : R) : bool := if Rlt_dec x y then true else false.
Definition Rleb (x y : R) : bool := if Rle_dec x y then true else false.
Definition Reqb (x y : R) : bool := if Req_dec_T x y then true else false.

(** The infinity of the given sign. *)
Definition inf (positive : bool) : float64 := if positive then PInf else NInf.

Definition f_neg (a : float64) : float64 :=
  match a with
  | Fin x => Fin (- x)
  | PInf => NInf
  | NInf => PInf
  | NaN => NaN
  end.

Definition f_add (a b : float64) : float64 :=
  match a, b with
  | NaN, _ | _, NaN => NaN
  | Fin x, Fin y => Fin (x + y)
  | PInf, NInf | NInf, PInf => NaN
  | PInf, _ | _, PInf => PInf
  | NInf, _ | _, NInf => NInf
  end.

Definition f_sub (a b : float64) : float64 := f_add a (f_neg b).

(** An infinity times a finite [y]: [nan] for [y = 0], otherwise the
    infinity with the product's sign. *)
Definition inf_times (positive : bool) (y : R) : float64 :=
  if Reqb y 0 then NaN
  else inf (if Rltb 0 y then positive else negb positive).

Definition f_mul (a b : float64) : float64 :=
  match a, b with
  | NaN, _ | _, NaN => NaN
  | Fin x, Fin y => Fin (x * y)
  | PInf, Fin y | Fin y, PInf => inf_times true y
  | NInf, Fin y | Fin y, NInf => inf_times false y
  | PInf, PInf | NInf, NInf => PInf
  | PInf, NInf | NInf, PInf => NInf
  end.

(** numpy's division: never raises. *)
Definition f_div (a b : float64) : float64 :=
  match a, b with
  | NaN, _ | _, NaN => NaN
  | Fin x, Fin y =>
      if Reqb y 0 then
        if Reqb x 0 then NaN else inf (Rltb 0 x)
      else Fin (x / y)
  | Fin _, PInf | Fin _, NInf => Fin 0
  | PInf, Fin y => inf (Rleb 0 y)
  | NInf, Fin y => inf (negb (Rleb 0 y))
  | _, _ => NaN
  end.

(** [a < b]; false as soon as one side is [nan]. *)
Definition f_ltb (a b : float64) : bool :=
  match a, b with
  | Fin x, Fin y => Rltb x y
  | NInf, Fin _ | NInf, PInf | Fin _, PInf => true
  | _, _ => false
  end.

(** Python's [abs]. *)
Definition py_abs (a : float64) : float64 :=
  match a with
  | Fin x => Fin (Rabs x)
  | PInf | NInf => PInf
  | NaN => NaN
  end.

(** Python's two-argument [max(a, b)]: [b] when [b > a], otherwise [a]
    (so [max(nan, 0)] is [nan]). *)
Definition py_max (a b : float64) : float64 := if f_ltb a b then b else a.

(* ------------------------------------------------------------------ *)
(** ** numpy and scipy functions *)

Definition np_sqrt (a : float64) : float64 :=
  match a with
  | Fin x => if Rleb 0 x then Fin (sqrt x) else NaN
  | PInf => PInf
  | NInf => NaN
  | NaN => NaN
  end.

Definition np_log (a : float64) : float64 :=
  match a with
  | Fin x => if Rltb 0 x then Fin (ln x) else if Reqb x 0 then NInf else NaN
  | PInf => PInf
  | NInf => NaN
  | NaN => NaN
  end.

Definition np_exp (a : float64) : float64 :=
  match a with
  | Fin x => Fin (exp x)
  | PInf => PInf
  | NInf => Fin 0
  | NaN => NaN
  end.

(** The standard normal density. *)
Definition std_pdf (x : R) : R := exp (- (x * x) / 2) / sqrt (2 * PI).

Definition std_pdf_continuous : forall x, continuity_pt std_pdf x.
Proof. intro x. unfold std_pdf. reg. Qed.

Definition std_pdf_integrable (a b : R) : Riemann_integrable std_pdf a b :=
  match Rle_dec a b with
  | left Hab =>
      continuity_implies_RiemannInt Hab (fun x _ => std_pdf_continuous x)
  | right Hab =>
      RiemannInt_P1
        (continuity_implies_RiemannInt (Rlt_le _ _ (Rnot_le_lt _ _ Hab))
           (fun x _ => std_pdf_continuous x))
  end.

(** The standard normal distribution function. *)
Definition std_cdf (x : R) : R := 1 / 2 + RiemannInt (std_pdf_integrable 0 x).

(** [scipy.stats.norm.pdf] *)
Definition norm_pdf (a : float64) : float64 :=
  match a with
  | Fin x => Fin (std_pdf x)
  | PInf | NInf => Fin 0
  | NaN => NaN
  end.

(** [scipy.stats.norm.cdf] *)
Definition norm_cdf (a : float64) : float64 :=
  match a with
  | Fin x => Fin (std_cdf x)
  | PInf => Fin 1
  | NInf => Fin 0
  | NaN => NaN
  end.

(* ------------------------------------------------------------------ *)
(** ** Python numbers and exceptions *)

Inductive exn : Type := ZeroDivisionError | IndexError.

Inductive outcome (A : Type) : Type :=
| Return (a : A)
| Raise (e : exn).
Arguments Return {A} a.
Arguments Raise {A} e.

(** A number held in a Python variable: a plain Python [int]/[float]
    (finite), or a numpy [float64].  The two differ in how [/] treats a zero
    divisor. *)
Inductive pynum : Type :=
| PyNum (x : R)
| NpNum (a : float64).

Definition val (s : pynum) : float64 :=
  match s with PyNum x => Fin x | NpNum a => a end.

(** [s / k] where [k] is a plain Python number. *)
Definition truediv (s : pynum) (k : R) : outcome float64 :=
  match s with
  | PyNum x => if Reqb k 0 then Raise ZeroDivisionError else Return (Fin (x / k))
  | NpNum a => Return (f_div a (Fin k))
  end.

(** [t / n] where both are plain Python numbers and [n] is an [int]. *)
Definition truediv_int (t : R) (n : Z) : outcome R :=
  if (n =? 0)%Z then Raise ZeroDivisionError else Return (t / IZR n).

(* ------------------------------------------------------------------ *)
(** ** The process-global random generator *)

Record RandomState : Type := mkRandomState {
  stream : nat -> R;
  cursor : nat
}.

(** [np.random.normal(0, 1)]: the next draw, and the advanced generator. *)
Definition np_random_normal (g : RandomState) : R * RandomState :=
  (stream g (cursor g), mkRandomState (stream g) (S (cursor g))).

(* ================================================================== *)
(** * The simulator object and its world *)
(* ================================================================== *)

(** The fields of a [DeltaHedgingSimulator] (both scripts declare the same
    class; [initial_premium] exists in [compare_volatility.py] only).
    [self.S] starts as the constructor's plain number and becomes a numpy
    value at the first market move. *)
Module Sim.
Record DeltaHedgingSimulator : Type := mk {
  S : pynum;
  K : R;
  T : R;
  r : R;
  sigma : R;
  dt : R;
  n_steps : Z;
  cash : float64;
  stock_inventory : float64;
  pnl_history : list float64;
  stock_price_history : list float64;
  initial_premium : float64
}.
End Sim.
Definition Simulator : Type := Sim.DeltaHedgingSimulator.

Definition set_S (self : Simulator) (v : pynum) : Simulator :=
  Sim.mk v (Sim.K self) (Sim.T self) (Sim.r self) (Sim.sigma self)
    (Sim.dt self) (Sim.n_steps self) (Sim.cash self)
    (Sim.stock_inventory self) (Sim.pnl_history self)
    (Sim.stock_price_history self) (Sim.initial_premium self).

Definition set_cash (self : Simulator) (v : float64) : Simulator :=
  Sim.mk (Sim.S self) (Sim.K self) (Sim.T self) (Sim.r self) (Sim.sigma self)
    (Sim.dt self) (Sim.n_steps self) v
    (Sim.stock_inventory self) (Sim.pnl_history self)
    (Sim.stock_price_history self) (Sim.initial_premium self).

Definition set_stock_inventory (self : Simulator) (v : float64) : Simulator :=
  Sim.mk (Sim.S self) (Sim.K self) (Sim.T self) (Sim.r self) (Sim.sigma self)
    (Sim.dt self) (Sim.n_steps self) (Sim.cash self)
    v (Sim.pnl_history self)
    (Sim.stock_price_history self) (Sim.initial_premium self).

Definition set_initial_premium (self : Simulator) (v : float64) : Simulator :=
  Sim.mk (Sim.S self) (Sim.K self) (Sim.T self) (Sim.r self) (Sim.sigma self)
    (Sim.dt self) (Sim.n_steps self) (Sim.cash self)
    (Sim.stock_inventory self) (Sim.pnl_history self)
    (Sim.stock_price_history self) v.

(** [self.pnl_history.append(v)] *)
Definition pnl_history_append (self : Simulator) (v : float64) : Simulator :=
  Sim.mk (Sim.S self) (Sim.K self) (Sim.T self) (Sim.r self) (Sim.sigma self)
    (Sim.dt self) (Sim.n_steps self) (Sim.cash self)
    (Sim.stock_inventory self) (Sim.pnl_history self ++ [v])
    (Sim.stock_price_history self) (Sim.initial_premium self).

(** [self.stock_price_history.append(v)] *)
Definition stock_price_history_append (self : Simulator) (v : float64)
  : Simulator :=
  Sim.mk (Sim.S self) (Sim.K self) (Sim.T self) (Sim.r self) (Sim.sigma self)
    (Sim.dt self) (Sim.n_steps self) (Sim.cash self)
    (Sim.stock_inventory self) (Sim.pnl_history self)
    (Sim.stock_price_history self ++ [v]) (Sim.initial_premium self).

(** What a method can read and change: its object and the global
    generator. *)
Record world : Type := mkWorld {
  self_of : Simulator;
  np_random : RandomState
}.

(** Computations over the world that may raise; a raise keeps the world as
    it was when the exception left. *)
Definition M (A : Type) : Type := world -> outcome A * world.

Definition ret {A : Type} (a : A) : M A := fun w => (Return a, w).

Definition bind {A B : Type} (m : M A) (k : A -> M B) : M B :=
  fun w =>
    match m w with
    | (Return a, w') => k a w'
    | (Raise e, w') => (Raise e, w')
    end.

Declare Scope py_scope.
Delimit Scope py_scope with py.
Notation "x <- m ;; k" := (bind m (fun x => k))
  (at level 61, m at next level, right associativity) : py_scope.
Notation "m ;; k" := (bind m (fun _ => k))
  (at level 61, right associativity) : py_scope.

(** The result of a call that does not touch the world. *)
Definition call {A : Type} (o : outcome A) : M A := fun w => (o, w).

Definition get_self : M Simulator := fun w => (Return (self_of w), w).

Definition update (f : Simulator -> Simulator) : M unit :=
  fun w => (Return tt, mkWorld (f (self_of w)) (np_random w)).

Definition random_normal : M R :=
  fun w =>
    let (shock, g) := np_random_normal (np_random w) in
    (Return shock, mkWorld (self_of w) g).

(** [for step in range(n): current_time = body(current_time)], the loop
    variable itself being unused. *)
Fixpoint for_range (n : nat) (body : R -> M R) (current_time : R) : M R :=
  match n with
  | O => ret current_time
  | S n' => bind (body current_time) (for_range n' body)
  end.

(** [lst[-1]] *)
Definition last_item (l : list float64) : outcome float64 :=
  match rev l with
  | [] => Raise IndexError
  | v :: _ => Return v
  end.

(* ================================================================== *)
(** * [DeltaHedgingSimulator]: constructor and pricer *)
(* ================================================================== *)

Definition __init__ (S0 K T r sigma : R) (n_steps : Z) : outcome Simulator :=
  match truediv_int T n_steps with
  | Raise e => Raise e
  | Return dt =>
      Return (Sim.mk (PyNum S0) K T r sigma dt n_steps
                (Fin 0) (Fin 0) [] [Fin S0] (Fin 0))
  end.

(** [d1] as both pricer methods compute it, for [time_left > 0]. *)
Definition d1_of (self : Simulator) (S : pynum) (time_left : R)
  : outcome float64 :=
  match truediv S (Sim.K self) with
  | Raise e => Raise e
  | Return q =>
      Return
        (f_div
           (f_add (np_log q)
              (Fin ((Sim.r self + 0.5 * Sim.sigma self ^ 2) * time_left)))
           (f_mul (Fin (Sim.sigma self)) (np_sqrt (Fin time_left))))
  end.

Definition black_scholes_delta (self : Simulator) (S : pynum) (time_left : R)
  : outcome float64 :=
  if Rleb time_left 0 then Return (Fin 0)
  else
    match d1_of self S time_left with
    | Raise e => Raise e
    | Return d1 => Return (norm_cdf d1)
    end.

Definition black_scholes_price (self : Simulator) (S : pynum) (time_left : R)
  : outcome float64 :=
  if Rleb time_left 0 then Return (py_max (f_sub (val S) (Fin (Sim.K self))) (Fin 0))
  else
    match d1_of self S time_left with
    | Raise e => Raise e
    | Return d1 =>
        let d2 :=
          f_sub d1 (f_mul (Fin (Sim.sigma self)) (np_sqrt (Fin time_left))) in
        Return
          (f_sub (f_mul (val S) (norm_cdf d1))
             (f_mul
                (f_mul (Fin (Sim.K self))
                   (np_exp (Fin (- Sim.r self * time_left))))
                (norm_cdf d2)))
    end.

(* ================================================================== *)
(** * The hedging loop *)
(* ================================================================== *)

Local Open Scope py_scope.

(** "Market Move": [self.S *= np.exp(...)], then the append to the price
    history. *)
Definition market_move (self : Simulator) (shock : R) : Simulator :=
  let growth :=
    np_exp
      (f_add
         (Fin ((Sim.r self - 0.5 * Sim.sigma self ^ 2) * Sim.dt self))
         (f_mul (f_mul (Fin (Sim.sigma self)) (np_sqrt (Fin (Sim.dt self))))
            (Fin shock))) in
  let self := set_S self (NpNum (f_mul (val (Sim.S self)) growth)) in
  stock_price_history_append self (val (Sim.S self)).

(** [self.cash + (self.stock_inventory * self.S) - current_option_value] *)
Definition portfolio_value (self : Simulator) (current_option_value : float64)
  : float64 :=
  f_sub
    (f_add (Sim.cash self) (f_mul (Sim.stock_inventory self) (val (Sim.S self))))
    current_option_value.

(** One pass through the body of the [for] loop, for a given re-hedge
    block; the value returned is the local [current_time] after its
    decrement. *)
Definition loop_body (rehedge : Simulator -> float64 -> Simulator)
  (current_time : R) : M R :=
  self <- get_self ;;
  target_delta <-
    call (black_scholes_delta self (Sim.S self) current_time) ;;
  update (fun self => rehedge self target_delta) ;;
  shock <- random_normal ;;
  update (fun self => market_move self shock) ;;
  self <- get_self ;;
  current_option_value <-
    call (black_scholes_price self (Sim.S self) current_time) ;;
  update (fun self =>
            pnl_history_append self
              (portfolio_value self current_option_value)) ;;
  ret (current_time - Sim.dt self).

(** ** [compare_volatility.py] *)
Module CompareVolatility.

(** Lines 47-53: the trade is always executed. *)
Definition rehedge (self : Simulator) (target_delta : float64) : Simulator :=
  let desired_stock := target_delta in
  let trade_size := f_sub desired_stock (Sim.stock_inventory self) in
  let cost := f_mul trade_size (val (Sim.S self)) in
  let self := set_cash self (f_sub (Sim.cash self) cost) in
  set_stock_inventory self (f_add (Sim.stock_inventory self) trade_size).

Definition run : M (list float64 * list float64 * float64) :=
  self <- get_self ;;
  premium <- call (black_scholes_price self (Sim.S self) (Sim.T self)) ;;
  update (fun self => set_initial_premium self premium) ;;
  update (fun self =>
            set_cash self (f_add (Sim.cash self) (Sim.initial_premium self))) ;;
  self <- get_self ;;
  for_range (Z.to_nat (Sim.n_steps self)) (loop_body rehedge) (Sim.T self) ;;
  self <- get_self ;;
  ret (Sim.stock_price_history self, Sim.pnl_history self,
       Sim.initial_premium self).

End CompareVolatility.

(** [run_comparison()] of [compare_volatility.py], up to the plot: the two
    scenarios are built and run one after the other, under the generator
    the first one leaves; the value is what is handed to matplotlib,
    [(stocks_low, pnl_low, premium_low)] and
    [(stocks_high, pnl_high, premium_high)], with the generator left. *)
Definition run_comparison (g : RandomState)
  : outcome ((list float64 * list float64 * float64)
             * (list float64 * list float64 * float64)) * RandomState :=
  let S0 := 100 in
  let K := 100 in
  let T := 0.25 in
  let r := 0.05 in
  let steps := 100%Z in
  let sigma_low := 0.15 in
  match __init__ S0 K T r sigma_low steps with
  | Raise e => (Raise e, g)
  | Return sim_low =>
      match CompareVolatility.run (mkWorld sim_low g) with
      | (Raise e, w) => (Raise e, np_random w)
      | (Return low, w) =>
          let sigma_high := 0.80 in
          match __init__ S0 K T r sigma_high steps with
          | Raise e => (Raise e, np_random w)
          | Return sim_high =>
              match CompareVolatility.run (mkWorld sim_high (np_random w)) with
              | (Raise e, w') => (Raise e, np_random w')
              | (Return high, w') => (Return (low, high), np_random w')
              end
          end
      end
  end.

(** ** [hedging_autosim.py] *)
Module HedgingAutosim.

(** Lines 51-57: the trade is executed only when
    [abs(trade_size) > 0.001]. *)
Definition rehedge (self : Simulator) (target_delta : float64) : Simulator :=
  let desired_stock := target_delta in
  let trade_size := f_sub desired_stock (Sim.stock_inventory self) in
  if f_ltb (Fin 0.001) (py_abs trade_size) then
    let cost := f_mul trade_size (val (Sim.S self)) in
    let self := set_cash self (f_sub (Sim.cash self) cost) in
    set_stock_inventory self (f_add (Sim.stock_inventory self) trade_size)
  else self.

(** The printed report reads [self.pnl_history[-1]]; the plot that follows
    only reads the two histories. *)
Definition run_simulation : M unit :=
  self <- get_self ;;
  initial_option_price <-
    call (black_scholes_price self (Sim.S self) (Sim.T self)) ;;
  update (fun self =>
            set_cash self (f_add (Sim.cash self) initial_option_price)) ;;
  self <- get_self ;;
  for_range (Z.to_nat (Sim.n_steps self)) (loop_body rehedge) (Sim.T self) ;;
  self <- get_self ;;
  call (last_item (Sim.pnl_history self)) ;;
  ret tt.

End HedgingAutosim.

(* ================================================================== *)
(** * [market_maker.py] *)
(* ================================================================== *)

Module MM.
Record OptionMarketMaker : Type := mk {
  S : R;
  sigma : R;
  r : R
}.
End MM.
Definition OptionMarketMaker : Type := MM.OptionMarketMaker.

(** What [make_market] reports. *)
Record Quote : Type := mkQuote {
  fair_value : float64;
  bid : float64;
  ask : float64;
  delta : float64;
  gamma : float64;
  theta : float64
}.

Definition d1_d2 (self : OptionMarketMaker) (K T : R)
  : outcome (float64 * float64) :=
  match truediv (PyNum (MM.S self)) K with
  | Raise e => Raise e
  | Return q =>
      let d1 :=
        f_div
          (f_add (np_log q)
             (Fin ((MM.r self + 0.5 * MM.sigma self ^ 2) * T)))
          (f_mul (Fin (MM.sigma self)) (np_sqrt (Fin T))) in
      let d2 := f_sub d1 (f_mul (Fin (MM.sigma self)) (np_sqrt (Fin T))) in
      Return (d1, d2)
  end.

Definition get_price_and_greeks (self : OptionMarketMaker) (K T : R)
  : outcome (float64 * float64 * float64 * float64) :=
  match d1_d2 self K T with
  | Raise e => Raise e
  | Return (d1, d2) =>
      let discount := np_exp (Fin (- MM.r self * T)) in
      let price :=
        f_sub (f_mul (Fin (MM.S self)) (norm_cdf d1))
          (f_mul (f_mul (Fin K) discount) (norm_cdf d2)) in
      let delta := norm_cdf d1 in
      let gamma :=
        f_div (norm_pdf d1)
          (f_mul (Fin (MM.S self * MM.sigma self)) (np_sqrt (Fin T))) in
      let theta :=
        f_sub
          (f_div
             (f_neg (f_mul (f_mul (Fin (MM.S self)) (norm_pdf d1))
                       (Fin (MM.sigma self))))
             (f_mul (Fin 2) (np_sqrt (Fin T))))
          (f_mul (f_mul (Fin (MM.r self * K)) discount) (norm_cdf d2)) in
      Return (price, delta, gamma, theta)
  end.

(** The spread charged by [make_market]. *)
Definition spread : R := 0.04.

Definition make_market (self : OptionMarketMaker) (K days_left : R)
  : outcome Quote :=
  let T := days_left / 365.0 in
  match get_price_and_greeks self K T with
  | Raise e => Raise e
  | Return (fair_value, delta, gamma, theta) =>
      let bid := f_sub fair_value (Fin (spread / 2)) in
      let ask := f_add fair_value (Fin (spread / 2)) in
      Return (mkQuote fair_value bid ask delta gamma theta)
  end.

(** [OptionMarketMaker(spot_price, volatility, risk_free_rate=0.05)] *)
Definition OptionMarketMaker_init (spot_price volatility : R)
  (risk_free_rate : option R) : OptionMarketMaker :=
  MM.mk spot_price volatility
    (match risk_free_rate with Some rate => rate | None => 0.05 end).

(* ================================================================== *)
(** * Reading the runs: auxiliary definitions *)
(* ================================================================== *)

(* ------------------------------------------------------------------ *)
(** ** The Black-Scholes closed forms *)

(** The Black-Scholes quantities over the reals. *)
Definition bs_d1 (S K r sigma T : R) : R :=
  (ln (S / K) + (r + 0.5 * sigma ^ 2) * T) / (sigma * sqrt T).

Definition bs_d2 (S K r sigma T : R) : R :=
  bs_d1 S K r sigma T - sigma * sqrt T.

Definition bs_call (S K r sigma T : R) : R :=
  S * std_cdf (bs_d1 S K r sigma T)
  - K * exp (- r * T) * std_cdf (bs_d2 S K r sigma T).

(* ------------------------------------------------------------------ *)
(** ** The pricer where it does not raise *)

(** What the two pricer methods return when they do not raise, as
    functions of the spot's value. *)
Definition d1_value (self : Simulator) (s : float64) (time_left : R) : float64 :=
  f_div
    (f_add (np_log (f_div s (Fin (Sim.K self))))
       (Fin ((Sim.r self + 0.5 * Sim.sigma self ^ 2) * time_left)))
    (f_mul (Fin (Sim.sigma self)) (np_sqrt (Fin time_left))).

Definition delta_value (self : Simulator) (s : float64) (time_left : R)
  : float64 :=
  if Rleb time_left 0 then Fin 0 else norm_cdf (d1_value self s time_left).

Definition price_value (self : Simulator) (s : float64) (time_left : R)
  : float64 :=
  if Rleb time_left 0 then py_max (f_sub s (Fin (Sim.K self))) (Fin 0)
  else
    let d1 := d1_value self s time_left in
    let d2 :=
      f_sub d1 (f_mul (Fin (Sim.sigma self)) (np_sqrt (Fin time_left))) in
    f_sub (f_mul s (norm_cdf d1))
      (f_mul
         (f_mul (Fin (Sim.K self)) (np_exp (Fin (- Sim.r self * time_left))))
         (norm_cdf d2)).

(** When a pricer call cannot raise: the strike is not [0], or no time is
    left (no division is reached), or the spot is already a numpy value. *)
Definition no_raise (self : Simulator) (S : pynum) (time_left : R) : Prop :=
  Sim.K self <> 0 \/ time_left <= 0 \/ exists a, S = NpNum a.

(* ------------------------------------------------------------------ *)
(** ** The book and the re-hedge block *)

(** The stock and cash legs of the book at the current spot, the option
    left aside: [cash + stock_inventory * S]. *)
Definition hedge_value (self : Simulator) : float64 :=
  f_add (Sim.cash self) (f_mul (Sim.stock_inventory self) (val (Sim.S self))).

(** A re-hedge block writes [cash] and [stock_inventory] and nothing
    else. *)
Definition only_trades (rehedge : Simulator -> float64 -> Simulator) : Prop :=
  forall self d,
    rehedge self d
    = set_stock_inventory (set_cash self (Sim.cash (rehedge self d)))
        (Sim.stock_inventory (rehedge self d)).

(** A re-hedge block that leaves finite cash and inventory finite when the
    target is finite. *)
Definition keeps_finite (rehedge : Simulator -> float64 -> Simulator) : Prop :=
  forall self c i s d,
    Sim.cash self = Fin c -> Sim.stock_inventory self = Fin i ->
    val (Sim.S self) = Fin s ->
    exists c' i',
      Sim.cash (rehedge self (Fin d)) = Fin c'
      /\ Sim.stock_inventory (rehedge self (Fin d)) = Fin i'.

(* ------------------------------------------------------------------ *)
(** ** The loop, one pass at a time *)

(** The world after one pass of the loop body that does not raise. *)
Definition step (rehedge : Simulator -> float64 -> Simulator)
  (current_time : R) (w : world) : world :=
  let self := self_of w in
  let target_delta := delta_value self (val (Sim.S self)) current_time in
  let self := rehedge self target_delta in
  let self := market_move self (stream (np_random w) (cursor (np_random w))) in
  let current_option_value :=
    price_value self (val (Sim.S self)) current_time in
  mkWorld
    (pnl_history_append self (portfolio_value self current_option_value))
    (mkRandomState (stream (np_random w)) (S (cursor (np_random w)))).

(** The local [current_time] and the world after [k] passes. *)
Fixpoint steps (rehedge : Simulator -> float64 -> Simulator) (k : nat)
  (current_time : R) (w : world) : R * world :=
  match k with
  | O => (current_time, w)
  | S k' =>
      let (t, w') := steps rehedge k' current_time w in
      (t - Sim.dt (self_of w'), step rehedge t w')
  end.

(* ------------------------------------------------------------------ *)
(** ** The worlds of a run *)

(** The world of [compare_volatility.py]'s [run] once the option is sold:
    the premium is stored and credited to cash. *)
Definition compare_volatility_sold (w : world) : world :=
  let self := self_of w in
  let premium := price_value self (val (Sim.S self)) (Sim.T self) in
  mkWorld
    (set_cash (set_initial_premium self premium)
       (f_add (Sim.cash self) premium))
    (np_random w).

(** The world [run] leaves when it returns. *)
Definition compare_volatility_final (w : world) : world :=
  snd (steps CompareVolatility.rehedge (Z.to_nat (Sim.n_steps (self_of w)))
         (Sim.T (self_of w)) (compare_volatility_sold w)).

(** The same for [hedging_autosim.py]'s [run_simulation], which keeps the
    premium in a local variable. *)
Definition hedging_autosim_sold (w : world) : world :=
  let self := self_of w in
  let premium := price_value self (val (Sim.S self)) (Sim.T self) in
  mkWorld (set_cash self (f_add (Sim.cash self) premium)) (np_random w).

Definition hedging_autosim_final (w : world) : world :=
  snd (steps HedgingAutosim.rehedge (Z.to_nat (Sim.n_steps (self_of w)))
         (Sim.T (self_of w)) (hedging_autosim_sold w)).

(** A fresh object: what [__init__] returns, for a non-zero step count. *)
Definition fresh (S0 K T r sigma : R) (n_steps : Z) : Simulator :=
  Sim.mk (PyNum S0) K T r sigma (T / IZR n_steps) n_steps
    (Fin 0) (Fin 0) [] [Fin S0] (Fin 0).

(** The drift of one step, [(r - sigma^2/2) dt]: the exponent of the
    market move when the shock is [0]. *)
Definition drift (self : Simulator) : R :=
  (Sim.r self - 0.5 * Sim.sigma self ^ 2) * Sim.dt self.

(* ------------------------------------------------------------------ *)
(** ** Valid parameters *)

(** Parameters under which the pricer's divisions and logarithm are
    defined: a positive strike, a non-zero volatility, and a step size
    whose square root is real. *)
Definition valid_params (self : Simulator) : Prop :=
  0 < Sim.K self /\ Sim.sigma self <> 0 /\ 0 <= Sim.dt self.

(** A book of finite numbers with a positive spot. *)
Definition finite_book (self : Simulator) : Prop :=
  exists s c i,
    val (Sim.S self) = Fin s /\ 0 < s
    /\ Sim.cash self = Fin c /\ Sim.stock_inventory self = Fin i.

(** A fresh object with a positive spot, a positive strike, a non-zero
    volatility, a time to expiry that is not negative and at least one
    step. *)
Definition valid_inputs (S0 K T r sigma : R) (n_steps : Z) : Prop :=
  0 < S0 /\ 0 < K /\ sigma <> 0 /\ 0 <= T /\ (1 <= n_steps)%Z.

(* ------------------------------------------------------------------ *)
(** ** The PnL entry of the specification *)

(** The PnL entry of step [k] as the specification words it: cash plus
    inventory at the post-move spot, minus the option revalued at that spot
    and at the remaining time after the step, [T - (k+1) dt].  [self] is
    the object after the step. *)
Definition spec_pnl_entry (self : Simulator) (k : nat) : outcome float64 :=
  match
    black_scholes_price self (Sim.S self)
      (Sim.T self - INR (k + 1) * Sim.dt self)
  with
  | Return option_value => Return (f_sub (hedge_value self) option_value)
  | Raise e => Raise e
  end.

(* ------------------------------------------------------------------ *)
(** ** The price path in closed form *)

(** The sum of the next [k] draws of a generator. *)
Fixpoint shock_sum (g : RandomState) (k : nat) : R :=
  match k with
  | O => 0
  | S k' => shock_sum g k' + stream g (cursor g + k')
  end.

(** The spot after [k] market moves from [s0]: [k] drifts and the
    volatility times the sum of the [k] shocks, in the exponent. *)
Definition gbm_spot (self : Simulator) (g : RandomState) (s0 : R) (k : nat) : R :=
  s0 * exp (INR k * drift self
            + Sim.sigma self * sqrt (Sim.dt self) * shock_sum g k).

(** A recorded price that is a positive real number. *)
Definition positive_price (a : float64) : Prop :=
  exists s, a = Fin s /\ 0 < s.

(** Two worlds with the same market: spot, rate, volatility, step size,
    recorded prices and generator. *)
Definition same_market (w1 w2 : world) : Prop :=
  Sim.S (self_of w1) = Sim.S (self_of w2)
  /\ Sim.r (self_of w1) = Sim.r (self_of w2)
  /\ Sim.sigma (self_of w1) = Sim.sigma (self_of w2)
  /\ Sim.dt (self_of w1) = Sim.dt (self_of w2)
  /\ Sim.stock_price_history (self_of w1) = Sim.stock_price_history (self_of w2)
  /\ np_random w1 = np_random w2.

(* ------------------------------------------------------------------ *)
(** ** The Gaussian integral *)

(** The integrand [exp(-x^2 (1 + t^2) / 2) / (1 + t^2)] and its derivative
    in [x]; their integrals over [0 <= t <= 1] are [gauss_B] and
    [gauss_D]. *)
Definition gauss_kernel (x t : R) : R :=
  exp (- (1 + t * t) / 2 * (x * x)) / (1 + t * t).

Definition gauss_kernel_dx (x t : R) : R :=
  - x * exp (- (1 + t * t) / 2 * (x * x)).

Definition gauss_kernel_integrable (x : R) :
  Riemann_integrable (gauss_kernel x) 0 1.
Proof.
  apply continuity_implies_RiemannInt; [lra|].
  intros t _. unfold gauss_kernel. reg. nra.
Qed.

Definition gauss_kernel_dx_integrable (x : R) :
  Riemann_integrable (gauss_kernel_dx x) 0 1.
Proof.
  apply continuity_implies_RiemannInt; [lra|].
  intros t _. unfold gauss_kernel_dx. reg.
Qed.

Definition gauss_B (x : R) : R := RiemannInt (gauss_kernel_integrable x).
Definition gauss_D (x : R) : R := RiemannInt (gauss_kernel_dx_integrable x).

(** [(Phi(x) - 1/2)^2 + B(x) / pi], which does not depend on [x]. *)
Definition gauss_F (x : R) : R :=
  (std_cdf x - 1 / 2) * (std_cdf x - 1 / 2) + / PI * gauss_B x.

(** An inventory of at least [0] and less than [1] share. *)
Definition inventory_in_range (self : Simulator) : Prop :=
  exists i, Sim.stock_inventory self = Fin i /\ 0 <= i < 1.

(* ------------------------------------------------------------------ *)
(** ** Objects and generators of the examples *)

(** The object built by [hedging_autosim.py]'s entry point,
    [DeltaHedgingSimulator(S0=100, K=100, T=0.25, r=0.05, sigma=0.2,
    n_steps=100)]. *)
Definition example_sim : Simulator :=
  Sim.mk (PyNum 100) 100 0.25 0.05 0.2 (0.25 / 100) 100
    (Fin 0) (Fin 0) [] [Fin 100] (Fin 0).

(** The market maker of the script's entry point,
    [OptionMarketMaker(spot_price=100, volatility=0.3)]. *)
Definition example_mm : OptionMarketMaker := OptionMarketMaker_init 100 0.3 None.

(** The scenario of the specification's concrete test: spot and strike
    100, three months, 5% rate, 15% volatility, 100 steps. *)
Definition scenario_sim : Simulator := fresh 100 100 0.25 0.05 0.15 100.

(** Spot and strike 100, two years in two steps, a volatility of 10% and a
    rate of -0.5%, under a generator whose draws are all 0.101. *)
Definition low_rate_sim : Simulator := fresh 100 100 2 (-0.005) 0.1 2.
Definition drifting_draws : RandomState := mkRandomState (fun _ => 0.101) 0.

(** Spot and strike 100, one year in one step, no interest and a
    volatility of 20%, under a generator whose draws are all 0.1: the
    market move brings the spot back to exactly 100. *)
Definition expiry_sim : Simulator := fresh 100 100 1 0 0.2 1.
Definition tenth_draws : RandomState := mkRandomState (fun _ => 0.1) 0.

(** A generator whose draws are all [0]. *)
Definition zero_shocks : RandomState := mkRandomState (fun _ => 0) 0.

(** A generator that stands five draws into a stream of zeros followed by
    ones: its next hundred draws are those of [zero_shocks]. *)
Definition zero_shocks_later : RandomState :=
  mkRandomState (fun i => if (i <? 105)%nat then 0 else 1) 5.

(** A generator whose draws are [0, 1, 2, ...]. *)
Definition counting_draws : RandomState := mkRandomState INR 0.

(* ================================================================== *)
(** * Basic facts about the arithmetic *)
(* ================================================================== *)

Lemma Rleb_true x y : x <= y -> Rleb x y = true.
Proof. intro H. unfold Rleb. destruct (Rle_dec x y); [reflexivity | contradiction]. Qed.

Lemma Rleb_false x y : y < x -> Rleb x y = false.
Proof. intro H. unfold Rleb. destruct (Rle_dec x y); [lra | reflexivity]. Qed.

Lemma Rltb_true x y : x < y -> Rltb x y = true.
Proof. intro H. unfold Rltb. destruct (Rlt_dec x y); [reflexivity | contradiction]. Qed.

Lemma Rltb_false x y : y <= x -> Rltb x y = false.
Proof. intro H. unfold Rltb. destruct (Rlt_dec x y); [lra | reflexivity]. Qed.

Lemma Reqb_true x y : x = y -> Reqb x y = true.
Proof. intro H. unfold Reqb. destruct (Req_dec_T x y); [reflexivity | contradiction]. Qed.

Lemma Reqb_false x y : x <> y -> Reqb x y = false.
Proof. intro H. unfold Reqb. destruct (Req_dec_T x y); [contradiction | reflexivity]. Qed.

Lemma Fin_inj x y : Fin x = Fin y -> x = y.
Proof. intro H; injection H; trivial. Qed.

Lemma py_max_fin x y : py_max (Fin x) (Fin y) = Fin (Rmax x y).
Proof.
  unfold py_max, f_ltb, Rltb, Rmax.
  destruct (Rlt_dec x y) as [Hlt|Hge]; destruct (Rle_dec x y) as [Hle|Hgt];
    try reflexivity; try lra.
  f_equal; lra.
Qed.

Lemma f_sub_fin x y : f_sub (Fin x) (Fin y) = Fin (x - y).
Proof. reflexivity. Qed.

Lemma f_div_fin x y : y <> 0 -> f_div (Fin x) (Fin y) = Fin (x / y).
Proof. intro H. simpl. now rewrite (Reqb_false _ _ H). Qed.

Lemma np_sqrt_fin x : 0 <= x -> np_sqrt (Fin x) = Fin (sqrt x).
Proof. intro H. simpl. now rewrite (Rleb_true _ _ H). Qed.

Lemma np_sqrt_neg x : x < 0 -> np_sqrt (Fin x) = NaN.
Proof. intro H. simpl. now rewrite (Rleb_false _ _ H). Qed.

Lemma np_log_fin x : 0 < x -> np_log (Fin x) = Fin (ln x).
Proof. intro H. simpl. now rewrite (Rltb_true _ _ H). Qed.

(** [nan] spreads through subtraction and addition of a finite number;
    so does an infinity. *)
Lemma f_sub_fin_r_inv a y z : f_sub a (Fin y) = Fin z -> a = Fin (z + y).
Proof.
  destruct a; simpl; try discriminate.
  intro H. apply Fin_inj in H. f_equal. lra.
Qed.

Lemma f_add_fin_r_inv a y z : f_add a (Fin y) = Fin z -> a = Fin (z - y).
Proof.
  destruct a; simpl; try discriminate.
  intro H. apply Fin_inj in H. f_equal. lra.
Qed.

(* ------------------------------------------------------------------ *)
(** ** The normal distribution function *)

Lemma sqrt_2PI_pos : 0 < sqrt (2 * PI).
Proof. apply sqrt_lt_R0. generalize PI_RGT_0. lra. Qed.

Lemma std_pdf_pos x : 0 < std_pdf x.
Proof.
  unfold std_pdf. apply Rdiv_lt_0_compat; [apply exp_pos | apply sqrt_2PI_pos].
Qed.

Lemma std_cdf_diff a b :
  std_cdf b - std_cdf a = RiemannInt (std_pdf_integrable a b).
Proof.
  unfold std_cdf.
  rewrite <- (RiemannInt_P26 (std_pdf_integrable 0 a) (std_pdf_integrable a b)
                (std_pdf_integrable 0 b)).
  lra.
Qed.

(** On [a, b] the density stays above its value at the endpoint farther
    from [0]. *)
Lemma std_pdf_lower a b x :
  a <= x <= b ->
  exp (- Rmax (a * a) (b * b) / 2) / sqrt (2 * PI) <= std_pdf x.
Proof.
  intros Hx. unfold std_pdf.
  apply Rmult_le_compat_r.
  - left. apply Rinv_0_lt_compat, sqrt_2PI_pos.
  - assert (Hsq : x * x <= Rmax (a * a) (b * b)).
    { destruct (Rle_dec 0 x).
      - apply Rle_trans with (b * b); [nra | apply Rmax_r].
      - apply Rle_trans with (a * a); [nra | apply Rmax_l]. }
    destruct (Req_dec (x * x) (Rmax (a * a) (b * b))) as [E|E].
    + rewrite E. apply Rle_refl.
    + left. apply exp_increasing. lra.
Qed.

Lemma fct_cte_integrable c a b : a <= b -> Riemann_integrable (fct_cte c) a b.
Proof.
  intro Hab. apply continuity_implies_RiemannInt; [assumption|].
  intros x _. apply continuity_const. intros u v. reflexivity.
Qed.

Lemma std_cdf_increasing a b : a < b -> std_cdf a < std_cdf b.
Proof.
  intros Hab.
  set (m := exp (- Rmax (a * a) (b * b) / 2) / sqrt (2 * PI)).
  assert (Hm : 0 < m).
  { unfold m. apply Rdiv_lt_0_compat; [apply exp_pos | apply sqrt_2PI_pos]. }
  assert (Hc : Riemann_integrable (fct_cte m) a b)
    by (apply fct_cte_integrable; lra).
  assert (H := RiemannInt_P19 Hc (std_pdf_integrable a b) (Rlt_le _ _ Hab)).
  rewrite RiemannInt_P15 in H. rewrite <- std_cdf_diff in H.
  assert (m * (b - a) <= std_cdf b - std_cdf a).
  { apply H. intros x Hx. unfold fct_cte. apply std_pdf_lower. lra. }
  nra.
Qed.

Lemma std_pdf_le_1 x : std_pdf x <= 1.
Proof.
  unfold std_pdf.
  assert (H1 : exp (- (x * x) / 2) <= 1).
  { rewrite <- exp_0. destruct (Req_dec (x * x) 0) as [E|E].
    - rewrite E. replace (- 0 / 2) with 0 by lra. lra.
    - left. apply exp_increasing. nra. }
  assert (H2 : 1 <= sqrt (2 * PI)).
  { rewrite <- sqrt_1 at 1. apply sqrt_le_1_alt.
    generalize PI_RGT_0 PI2_3_2. unfold PI2. lra. }
  assert (H0 := exp_pos (- (x * x) / 2)).
  apply Rle_trans with (exp (- (x * x) / 2) / 1).
  - unfold Rdiv. apply Rmult_le_compat_l; [lra|].
    apply Rinv_le_contravar; lra.
  - lra.
Qed.

(** The distribution function moves no faster than its argument. *)
Lemma std_cdf_lipschitz a b : a <= b -> std_cdf b - std_cdf a <= b - a.
Proof.
  intros Hab.
  assert (Hc : Riemann_integrable (fct_cte 1) a b)
    by (apply fct_cte_integrable; lra).
  assert (H := RiemannInt_P19 (std_pdf_integrable a b) Hc Hab).
  rewrite RiemannInt_P15 in H. rewrite <- std_cdf_diff in H.
  assert (std_cdf b - std_cdf a <= 1 * (b - a)).
  { apply H. intros x Hx. unfold fct_cte. apply std_pdf_le_1. }
  lra.
Qed.

Lemma std_cdf_0 : std_cdf 0 = 1 / 2.
Proof. unfold std_cdf. rewrite RiemannInt_P9. lra. Qed.

(* ================================================================== *)
(** * The pricer at and after expiry *)
(* ================================================================== *)

Lemma example_sim_init : __init__ 100 100 0.25 0.05 0.2 100 = Return example_sim.
Proof. reflexivity. Qed.

(** C5. At the expiry boundary, [time_left <= 0], the pricer returns
    Python's [max(S - K, 0)], which for every finite spot is the intrinsic
    value, and the delta function returns [0], for every spot and every
    strike; neither call raises. *)
Theorem C5_expiry_boundary (self : Simulator) (S : pynum) (time_left : R) :
  time_left <= 0 ->
  black_scholes_price self S time_left
  = Return (py_max (f_sub (val S) (Fin (Sim.K self))) (Fin 0))
  /\ (forall s : R,
         val S = Fin s ->
         black_scholes_price self S time_left
         = Return (Fin (Rmax (s - Sim.K self) 0)))
  /\ black_scholes_delta self S time_left = Return (Fin 0).
Proof.
  intros Ht.
  unfold black_scholes_price, black_scholes_delta.
  rewrite (Rleb_true _ _ Ht).
  split; [reflexivity|]. split; [|reflexivity].
  intros s HS. now rewrite HS, f_sub_fin, py_max_fin.
Qed.

Lemma C5_expiry_boundary_witness :
  0 <= 0
  /\ black_scholes_price example_sim (PyNum 110) 0
     = Return (Fin (Rmax (110 - Sim.K example_sim) 0))
  /\ black_scholes_delta example_sim (PyNum 110) 0 = Return (Fin 0).
Proof.
  assert (H0 : 0 <= 0) by apply Rle_refl.
  split; [exact H0|].
  destruct (C5_expiry_boundary example_sim (PyNum 110) 0 H0)
    as (_ & Hprice & Hdelta).
  split; [exact (Hprice 110 eq_refl) | exact Hdelta].
Defined.

(** Whatever the spot is, a numpy value included, the delta at or after
    expiry is the integer [0]. *)
Lemma black_scholes_delta_expired (self : Simulator) (S : pynum) (time_left : R) :
  time_left <= 0 -> black_scholes_delta self S time_left = Return (Fin 0).
Proof.
  intro Ht. unfold black_scholes_delta. now rewrite (Rleb_true _ _ Ht).
Qed.

(* ================================================================== *)
(** * The market maker's quote *)
(* ================================================================== *)

Lemma truediv_py x k : k <> 0 -> truediv (PyNum x) k = Return (Fin (x / k)).
Proof. intro H. simpl. now rewrite (Reqb_false _ _ H). Qed.

Lemma truediv_py_zero x : truediv (PyNum x) 0 = Raise ZeroDivisionError.
Proof. simpl. now rewrite Reqb_true. Qed.

(** [make_market] returns whenever the strike is not [0]. *)
Lemma make_market_returns (self : OptionMarketMaker) (K days_left : R) :
  K <> 0 -> exists q, make_market self K days_left = Return q.
Proof.
  intro HK. unfold make_market, get_price_and_greeks, d1_d2.
  rewrite (truediv_py _ _ HK). eexists. reflexivity.
Qed.

(** X2. [make_market] raises [ZeroDivisionError] for a strike of [0],
    whatever the time to expiry: [self.S / K] divides two plain Python
    numbers. *)
Theorem make_market_zero_strike (self : OptionMarketMaker) (days_left : R) :
  make_market self 0 days_left = Raise ZeroDivisionError.
Proof.
  unfold make_market, get_price_and_greeks, d1_d2.
  now rewrite truediv_py_zero.
Qed.

(** Bid and ask are the fair value moved by half the spread, whatever the
    fair value is. *)
Lemma make_market_bid_ask (self : OptionMarketMaker) (K days_left : R) (q : Quote) :
  make_market self K days_left = Return q ->
  bid q = f_sub (fair_value q) (Fin (spread / 2))
  /\ ask q = f_add (fair_value q) (Fin (spread / 2)).
Proof.
  unfold make_market.
  destruct (get_price_and_greeks self K (days_left / 365.0))
    as [[[[fair dl] gm] th]|e]; [|discriminate].
  intro H. injection H as <-. split; reflexivity.
Qed.


(** ** The quote at expiry *)

Lemma ln_pos x : 1 < x -> 0 < ln x.
Proof. intro H. rewrite <- ln_1. apply ln_increasing; lra. Qed.

Lemma ln_neg x : 0 < x < 1 -> ln x < 0.
Proof. intro H. rewrite <- ln_1. apply ln_increasing; lra. Qed.

(** With a zero time to expiry the unguarded [d1] is a division by zero:
    [+inf] when the option is in the money. *)
Lemma d1_d2_expiry_in_the_money (self : OptionMarketMaker) (K : R) :
  0 < MM.sigma self -> 0 < K < MM.S self ->
  d1_d2 self K 0 = Return (PInf, PInf).
Proof.
  intros Hsig [HK HS]. unfold d1_d2.
  rewrite truediv_py by lra.
  assert (Hq : 1 < MM.S self / K).
  { apply Rmult_lt_reg_r with K; [lra|]. unfold Rdiv.
    rewrite Rmult_assoc, Rinv_l by lra. lra. }
  rewrite np_log_fin by lra.
  rewrite np_sqrt_fin by lra. rewrite sqrt_0.
  assert (Hln := ln_pos _ Hq).
  cbn [f_add f_mul].
  assert (Hd1 : f_div (Fin (ln (MM.S self / K)
                         + (MM.r self + 0.5 * MM.sigma self ^ 2) * 0))
                  (Fin (MM.sigma self * 0)) = PInf).
  { cbn [f_div]. rewrite Reqb_true by lra. rewrite Reqb_false by lra.
    rewrite Rltb_true by lra. reflexivity. }
  rewrite Hd1. reflexivity.
Qed.

(** ... [-inf] when it is out of the money ... *)
Lemma d1_d2_expiry_out_of_the_money (self : OptionMarketMaker) (K : R) :
  0 < MM.sigma self -> 0 < MM.S self < K ->
  d1_d2 self K 0 = Return (NInf, NInf).
Proof.
  intros Hsig [HS HK]. unfold d1_d2.
  rewrite truediv_py by lra.
  assert (Hq : 0 < MM.S self / K < 1).
  { split; [apply Rdiv_lt_0_compat; lra|].
    apply Rmult_lt_reg_r with K; [lra|]. unfold Rdiv.
    rewrite Rmult_assoc, Rinv_l by lra. lra. }
  rewrite np_log_fin by lra.
  rewrite np_sqrt_fin by lra. rewrite sqrt_0.
  assert (Hln := ln_neg _ Hq).
  cbn [f_add f_mul].
  assert (Hd1 : f_div (Fin (ln (MM.S self / K)
                         + (MM.r self + 0.5 * MM.sigma self ^ 2) * 0))
                  (Fin (MM.sigma self * 0)) = NInf).
  { cbn [f_div]. rewrite Reqb_true by lra. rewrite Reqb_false by lra.
    rewrite Rltb_false by lra. reflexivity. }
  rewrite Hd1. reflexivity.
Qed.

(** ... and [nan] when it is at the money. *)
Lemma d1_d2_expiry_at_the_money (self : OptionMarketMaker) :
  MM.S self <> 0 ->
  d1_d2 self (MM.S self) 0 = Return (NaN, NaN).
Proof.
  intros HS. unfold d1_d2.
  rewrite truediv_py by assumption.
  replace (MM.S self / MM.S self) with 1 by (field; assumption).
  rewrite np_log_fin by lra. rewrite ln_1.
  rewrite np_sqrt_fin by lra. rewrite sqrt_0.
  cbn [f_add f_mul].
  assert (Hd1 : f_div (Fin (0 + (MM.r self + 0.5 * MM.sigma self ^ 2) * 0))
                  (Fin (MM.sigma self * 0)) = NaN).
  { cbn [f_div]. rewrite Reqb_true by lra. rewrite Reqb_true by lra.
    reflexivity. }
  rewrite Hd1. reflexivity.
Qed.

(** A negative time to expiry turns [np.sqrt(T)], and with it every field
    of the quote, into [nan]. *)
Lemma d1_d2_negative_time (self : OptionMarketMaker) (K T : R) :
  K <> 0 -> T < 0 -> d1_d2 self K T = Return (NaN, NaN).
Proof.
  intros HK HT. unfold d1_d2.
  rewrite truediv_py by assumption.
  rewrite np_sqrt_neg by assumption.
  cbn [f_mul].
  destruct (f_add (np_log (Fin (MM.S self / K)))
              (Fin ((MM.r self + 0.5 * MM.sigma self ^ 2) * T)));
    reflexivity.
Qed.

Lemma make_market_expiry_in_the_money (self : OptionMarketMaker) (K : R) :
  0 < MM.sigma self -> 0 < K < MM.S self ->
  make_market self K 0
  = Return (mkQuote (Fin (MM.S self - K))
              (Fin (MM.S self - K - spread / 2))
              (Fin (MM.S self - K + spread / 2))
              (Fin 1) NaN NaN).
Proof.
  intros Hsig HK. unfold make_market, get_price_and_greeks.
  replace (0 / 365.0) with 0 by lra.
  rewrite d1_d2_expiry_in_the_money by assumption.
  rewrite np_sqrt_fin by lra. rewrite sqrt_0.
  cbn [norm_cdf norm_pdf np_exp f_mul f_sub f_add f_neg].
  replace (- MM.r self * 0) with 0 by lra. rewrite exp_0.
  assert (Hg : f_div (Fin 0) (Fin (MM.S self * MM.sigma self * 0)) = NaN).
  { cbn [f_div]. rewrite !Reqb_true by lra. reflexivity. }
  assert (Ht : f_div (Fin (- (MM.S self * 0 * MM.sigma self))) (Fin (2 * 0)) = NaN).
  { cbn [f_div]. rewrite !Reqb_true by lra. reflexivity. }
  rewrite Hg, Ht. cbn [f_sub f_add f_neg f_mul].
  f_equal. f_equal; f_equal; lra.
Qed.

(** The quote printed for [OptionMarketMaker(100, 0.3).make_market(K=90,
    days_left=0)]: fair value 10, bid 9.98, ask 10.02. *)
Lemma example_quote_at_expiry :
  make_market example_mm 90 0
  = Return (mkQuote (Fin 10) (Fin 9.98) (Fin 10.02) (Fin 1) NaN NaN).
Proof.
  rewrite make_market_expiry_in_the_money by (simpl; lra).
  cbn [example_mm OptionMarketMaker_init MM.S]. unfold spread.
  f_equal. f_equal; f_equal; lra.
Qed.




(* ================================================================== *)
(** * The closed-form pricer on finite values *)
(* ================================================================== *)

Lemma d1_of_value (self : Simulator) (S : pynum) (t : R) :
  Sim.K self <> 0 \/ (exists a, S = NpNum a) ->
  d1_of self S t = Return (d1_value self (val S) t).
Proof.
  intros [HK|[a ->]]; [|reflexivity].
  unfold d1_of, d1_value. destruct S as [x|a]; cbn [val].
  - rewrite truediv_py by assumption. now rewrite f_div_fin.
  - reflexivity.
Qed.

Lemma black_scholes_delta_value (self : Simulator) (S : pynum) (t : R) :
  no_raise self S t ->
  black_scholes_delta self S t = Return (delta_value self (val S) t).
Proof.
  intro H. unfold black_scholes_delta, delta_value.
  destruct (Rleb t 0) eqn:E; [reflexivity|].
  rewrite d1_of_value; [reflexivity|].
  destruct H as [H|[H|H]]; [now left | | now right].
  rewrite Rleb_true in E by assumption. discriminate.
Qed.

Lemma black_scholes_price_value (self : Simulator) (S : pynum) (t : R) :
  no_raise self S t ->
  black_scholes_price self S t = Return (price_value self (val S) t).
Proof.
  intro H. unfold black_scholes_price, price_value.
  destruct (Rleb t 0) eqn:E; [reflexivity|].
  rewrite d1_of_value; [reflexivity|].
  destruct H as [H|[H|H]]; [now left | | now right].
  rewrite Rleb_true in E by assumption. discriminate.
Qed.

(** Once the spot is a numpy value the pricer cannot raise. *)
Lemma black_scholes_price_value_np (self : Simulator) (a : float64) (t : R) :
  black_scholes_price self (NpNum a) t = Return (price_value self a t).
Proof.
  unfold black_scholes_price, price_value.
  destruct (Rleb t 0); reflexivity.
Qed.

(** With a zero strike, a plain spot and time left, both methods raise. *)
Lemma black_scholes_price_zero_strike (self : Simulator) (x t : R) :
  Sim.K self = 0 -> 0 < t ->
  black_scholes_price self (PyNum x) t = Raise ZeroDivisionError.
Proof.
  intros HK Ht. unfold black_scholes_price, d1_of.
  rewrite Rleb_false by assumption. rewrite HK, truediv_py_zero. reflexivity.
Qed.

Lemma d1_value_fin (self : Simulator) (s t : R) :
  0 < s -> 0 < Sim.K self -> Sim.sigma self <> 0 -> 0 < t ->
  d1_value self (Fin s) t
  = Fin (bs_d1 s (Sim.K self) (Sim.r self) (Sim.sigma self) t).
Proof.
  intros Hs HK Hsig Ht. unfold d1_value, bs_d1.
  rewrite f_div_fin by lra.
  rewrite np_log_fin by (apply Rdiv_lt_0_compat; lra).
  rewrite np_sqrt_fin by lra.
  cbn [f_add f_mul].
  rewrite f_div_fin; [reflexivity|].
  apply Rmult_integral_contrapositive_currified; [assumption|].
  apply Rgt_not_eq, sqrt_lt_R0; assumption.
Qed.

Lemma delta_value_fin (self : Simulator) (s t : R) :
  0 < s -> 0 < Sim.K self -> Sim.sigma self <> 0 -> 0 < t ->
  delta_value self (Fin s) t
  = Fin (std_cdf (bs_d1 s (Sim.K self) (Sim.r self) (Sim.sigma self) t)).
Proof.
  intros Hs HK Hsig Ht. unfold delta_value.
  rewrite Rleb_false by assumption. now rewrite d1_value_fin.
Qed.

Lemma price_value_fin (self : Simulator) (s t : R) :
  0 < s -> 0 < Sim.K self -> Sim.sigma self <> 0 -> 0 < t ->
  price_value self (Fin s) t
  = Fin (bs_call s (Sim.K self) (Sim.r self) (Sim.sigma self) t).
Proof.
  intros Hs HK Hsig Ht. unfold price_value.
  rewrite Rleb_false by assumption. rewrite d1_value_fin by assumption.
  rewrite np_sqrt_fin by lra. reflexivity.
Qed.

Lemma delta_value_expired (self : Simulator) (s : float64) (t : R) :
  t <= 0 -> delta_value self s t = Fin 0.
Proof. intro Ht. unfold delta_value. now rewrite Rleb_true. Qed.

Lemma price_value_expired (self : Simulator) (s t : R) :
  t <= 0 -> price_value self (Fin s) t = Fin (Rmax (s - Sim.K self) 0).
Proof.
  intro Ht. unfold price_value. rewrite Rleb_true by assumption.
  now rewrite f_sub_fin, py_max_fin.
Qed.

(** On valid parameters the delta is a finite number. *)
Lemma delta_value_finite (self : Simulator) (s t : R) :
  0 < s -> 0 < Sim.K self -> Sim.sigma self <> 0 ->
  exists d, delta_value self (Fin s) t = Fin d.
Proof.
  intros Hs HK Hsig. destruct (Rle_dec t 0) as [Ht|Ht].
  - exists 0. now apply delta_value_expired.
  - eexists. apply delta_value_fin; try assumption. lra.
Qed.

Lemma price_value_finite (self : Simulator) (s t : R) :
  0 < s -> 0 < Sim.K self -> Sim.sigma self <> 0 ->
  exists v, price_value self (Fin s) t = Fin v.
Proof.
  intros Hs HK Hsig. destruct (Rle_dec t 0) as [Ht|Ht].
  - eexists. now apply price_value_expired.
  - eexists. apply price_value_fin; try assumption. lra.
Qed.

(* ================================================================== *)
(** * The re-hedge block *)
(* ================================================================== *)

Lemma compare_volatility_only_trades : only_trades CompareVolatility.rehedge.
Proof. intros self d. reflexivity. Qed.

Lemma hedging_autosim_only_trades : only_trades HedgingAutosim.rehedge.
Proof.
  intros self d. unfold HedgingAutosim.rehedge.
  destruct (f_ltb _ _); [reflexivity | destruct self; reflexivity].
Qed.

Lemma compare_volatility_rehedge_fin (self : Simulator) (c i s d : R) :
  Sim.cash self = Fin c -> Sim.stock_inventory self = Fin i ->
  val (Sim.S self) = Fin s ->
  CompareVolatility.rehedge self (Fin d)
  = set_stock_inventory (set_cash self (Fin (c - (d - i) * s))) (Fin (i + (d - i))).
Proof.
  intros Hc Hi Hs. unfold CompareVolatility.rehedge.
  cbn [set_cash Sim.stock_inventory Sim.cash].
  rewrite Hc, Hi, Hs. reflexivity.
Qed.

Lemma hedging_autosim_rehedge_trade (self : Simulator) (c i s d : R) :
  Sim.cash self = Fin c -> Sim.stock_inventory self = Fin i ->
  val (Sim.S self) = Fin s ->
  0.001 < Rabs (d - i) ->
  HedgingAutosim.rehedge self (Fin d)
  = set_stock_inventory (set_cash self (Fin (c - (d - i) * s))) (Fin (i + (d - i))).
Proof.
  intros Hc Hi Hs Hbig. unfold HedgingAutosim.rehedge.
  rewrite Hi. cbn [f_sub f_neg f_add py_abs f_ltb].
  rewrite Rltb_true by exact Hbig.
  cbn [set_cash Sim.stock_inventory Sim.cash].
  rewrite Hc, Hi, Hs. reflexivity.
Qed.

Lemma hedging_autosim_rehedge_skip (self : Simulator) (i d : R) :
  Sim.stock_inventory self = Fin i ->
  Rabs (d - i) <= 0.001 ->
  HedgingAutosim.rehedge self (Fin d) = self.
Proof.
  intros Hi Hsmall. unfold HedgingAutosim.rehedge.
  rewrite Hi. cbn [f_sub f_neg f_add py_abs f_ltb].
  rewrite Rltb_false by exact Hsmall. reflexivity.
Qed.

(** A [nan] target, which the pricer produces when the volatility is [0],
    is never traded by [hedging_autosim.py]: [abs(nan) > 0.001] is false. *)
Lemma hedging_autosim_rehedge_nan (self : Simulator) :
  HedgingAutosim.rehedge self NaN = self.
Proof.
  unfold HedgingAutosim.rehedge.
  destruct (Sim.stock_inventory self); reflexivity.
Qed.

(* ================================================================== *)
(** * The loop, one pass at a time *)
(* ================================================================== *)

Section Frame.

Variable rehedge : Simulator -> float64 -> Simulator.
Hypothesis rehedge_frame : only_trades rehedge.

Lemma rehedge_K self d : Sim.K (rehedge self d) = Sim.K self.
Proof. now rewrite rehedge_frame. Qed.

Lemma rehedge_S self d : Sim.S (rehedge self d) = Sim.S self.
Proof. now rewrite rehedge_frame. Qed.

Lemma rehedge_dt self d : Sim.dt (rehedge self d) = Sim.dt self.
Proof. now rewrite rehedge_frame. Qed.

Lemma rehedge_r self d : Sim.r (rehedge self d) = Sim.r self.
Proof. now rewrite rehedge_frame. Qed.

Lemma rehedge_sigma self d : Sim.sigma (rehedge self d) = Sim.sigma self.
Proof. now rewrite rehedge_frame. Qed.

Lemma rehedge_T self d : Sim.T (rehedge self d) = Sim.T self.
Proof. now rewrite rehedge_frame. Qed.

Lemma rehedge_n_steps self d : Sim.n_steps (rehedge self d) = Sim.n_steps self.
Proof. now rewrite rehedge_frame. Qed.

Lemma rehedge_pnl_history self d :
  Sim.pnl_history (rehedge self d) = Sim.pnl_history self.
Proof. now rewrite rehedge_frame. Qed.

Lemma rehedge_stock_price_history self d :
  Sim.stock_price_history (rehedge self d) = Sim.stock_price_history self.
Proof. now rewrite rehedge_frame. Qed.

Lemma rehedge_initial_premium self d :
  Sim.initial_premium (rehedge self d) = Sim.initial_premium self.
Proof. now rewrite rehedge_frame. Qed.

(** When its first pricer call cannot raise, a pass of the loop body
    does not raise, and [step] is the world it leaves. *)
Lemma loop_body_step (t : R) (w : world) :
  no_raise (self_of w) (Sim.S (self_of w)) t ->
  loop_body rehedge t w = (Return (t - Sim.dt (self_of w)), step rehedge t w).
Proof.
  intro HK. unfold loop_body, bind, get_self, call, update, random_normal, ret.
  rewrite black_scholes_delta_value by assumption.
  cbn [self_of np_random np_random_normal].
  unfold market_move at 2.
  cbn [stock_price_history_append set_S Sim.S].
  rewrite black_scholes_price_value_np.
  unfold step. cbn [self_of np_random].
  unfold market_move.
  cbn [stock_price_history_append set_S Sim.S Sim.dt val].
  now rewrite rehedge_dt.
Qed.

Lemma step_K t w : Sim.K (self_of (step rehedge t w)) = Sim.K (self_of w).
Proof. unfold step; cbn. apply rehedge_K. Qed.

Lemma step_dt t w : Sim.dt (self_of (step rehedge t w)) = Sim.dt (self_of w).
Proof. unfold step; cbn. apply rehedge_dt. Qed.

Lemma step_r t w : Sim.r (self_of (step rehedge t w)) = Sim.r (self_of w).
Proof. unfold step; cbn. apply rehedge_r. Qed.

Lemma step_sigma t w :
  Sim.sigma (self_of (step rehedge t w)) = Sim.sigma (self_of w).
Proof. unfold step; cbn. apply rehedge_sigma. Qed.

Lemma step_T t w : Sim.T (self_of (step rehedge t w)) = Sim.T (self_of w).
Proof. unfold step; cbn. apply rehedge_T. Qed.

Lemma step_n_steps t w :
  Sim.n_steps (self_of (step rehedge t w)) = Sim.n_steps (self_of w).
Proof. unfold step; cbn. apply rehedge_n_steps. Qed.

Lemma step_initial_premium t w :
  Sim.initial_premium (self_of (step rehedge t w))
  = Sim.initial_premium (self_of w).
Proof. unfold step; cbn. apply rehedge_initial_premium. Qed.

Lemma step_stream t w :
  stream (np_random (step rehedge t w)) = stream (np_random w).
Proof. reflexivity. Qed.

Lemma step_cursor t w :
  cursor (np_random (step rehedge t w)) = S (cursor (np_random w)).
Proof. reflexivity. Qed.

(** The spot after a pass: the spot before it times the growth factor of
    the draw under the cursor. *)
Lemma step_S t w :
  Sim.S (self_of (step rehedge t w))
  = NpNum
      (f_mul (val (Sim.S (self_of w)))
         (np_exp
            (f_add
               (Fin ((Sim.r (self_of w) - 0.5 * Sim.sigma (self_of w) ^ 2)
                     * Sim.dt (self_of w)))
               (f_mul
                  (f_mul (Fin (Sim.sigma (self_of w)))
                     (np_sqrt (Fin (Sim.dt (self_of w)))))
                  (Fin (stream (np_random w) (cursor (np_random w)))))))).
Proof.
  unfold step; cbn.
  now rewrite rehedge_S, rehedge_r, rehedge_sigma, rehedge_dt.
Qed.

Lemma step_stock_price_history t w :
  Sim.stock_price_history (self_of (step rehedge t w))
  = Sim.stock_price_history (self_of w)
    ++ [val (Sim.S (self_of (step rehedge t w)))].
Proof.
  unfold step; cbn. now rewrite rehedge_stock_price_history.
Qed.

Lemma step_pnl_history t w :
  exists v,
    Sim.pnl_history (self_of (step rehedge t w))
    = Sim.pnl_history (self_of w) ++ [v].
Proof.
  unfold step; cbn. rewrite rehedge_pnl_history. eexists. reflexivity.
Qed.

End Frame.

Section Steps.

Variable rehedge : Simulator -> float64 -> Simulator.
Hypothesis rehedge_frame : only_trades rehedge.

Lemma steps_cons k t w :
  steps rehedge (S k) t w
  = steps rehedge k (t - Sim.dt (self_of w)) (step rehedge t w).
Proof.
  induction k as [|k IH]; [reflexivity|].
  change (steps rehedge (S (S k)) t w)
    with (let (t', w') := steps rehedge (S k) t w in
          (t' - Sim.dt (self_of w'), step rehedge t' w')).
  rewrite IH. reflexivity.
Qed.

(** What a pass leaves untouched stays as it was after [k] passes. *)
Lemma steps_params k t w :
  let w' := snd (steps rehedge k t w) in
  Sim.K (self_of w') = Sim.K (self_of w)
  /\ Sim.dt (self_of w') = Sim.dt (self_of w)
  /\ Sim.r (self_of w') = Sim.r (self_of w)
  /\ Sim.sigma (self_of w') = Sim.sigma (self_of w)
  /\ Sim.T (self_of w') = Sim.T (self_of w)
  /\ Sim.n_steps (self_of w') = Sim.n_steps (self_of w)
  /\ Sim.initial_premium (self_of w') = Sim.initial_premium (self_of w)
  /\ stream (np_random w') = stream (np_random w)
  /\ cursor (np_random w') = (cursor (np_random w) + k)%nat.
Proof.
  induction k as [|k IH]; cbn zeta.
  - cbn. repeat split; try reflexivity. lia.
  - cbn [steps]. destruct (steps rehedge k t w) as [t' w'] eqn:E.
    cbn [snd] in *. cbn zeta in IH.
    destruct IH as (HK & Hdt & Hr & Hsig & HT & Hn & Hp & Hst & Hcu).
    rewrite (step_K _ rehedge_frame), (step_dt _ rehedge_frame),
      (step_r _ rehedge_frame), (step_sigma _ rehedge_frame),
      (step_T _ rehedge_frame), (step_n_steps _ rehedge_frame),
      (step_initial_premium _ rehedge_frame), step_stream, step_cursor.
    repeat split; try assumption. lia.
Qed.

Lemma steps_K k t w :
  Sim.K (self_of (snd (steps rehedge k t w))) = Sim.K (self_of w).
Proof. apply (steps_params k t w). Qed.

Lemma steps_dt k t w :
  Sim.dt (self_of (snd (steps rehedge k t w))) = Sim.dt (self_of w).
Proof. apply (steps_params k t w). Qed.

(** The local clock after [k] passes: [k] decrements by [dt]. *)
Lemma steps_time k t w :
  fst (steps rehedge k t w) = t - INR k * Sim.dt (self_of w).
Proof.
  induction k as [|k IH].
  - cbn. lra.
  - cbn [steps]. pose proof (steps_dt k t w) as Hdt.
    destruct (steps rehedge k t w) as [t' w'].
    cbn [fst snd] in *. rewrite IH, Hdt, S_INR. lra.
Qed.

(** The loop of the scripts, run for [k] passes, does not raise when its
    first pricer call does not; it leaves the clock and the world of
    [steps]. *)
Lemma for_range_steps k t w :
  no_raise (self_of w) (Sim.S (self_of w)) t ->
  for_range k (loop_body rehedge) t w
  = (Return (fst (steps rehedge k t w)), snd (steps rehedge k t w)).
Proof.
  revert t w. induction k as [|k IH]; intros t w HK.
  - reflexivity.
  - cbn [for_range]. unfold bind.
    rewrite (loop_body_step _ rehedge_frame) by assumption.
    rewrite IH.
    + now rewrite steps_cons.
    + right; right. rewrite (step_S _ rehedge_frame). eexists. reflexivity.
Qed.

(** Each pass appends one price and one PnL entry. *)
Lemma steps_lengths k t w :
  let w' := snd (steps rehedge k t w) in
  length (Sim.stock_price_history (self_of w'))
  = (length (Sim.stock_price_history (self_of w)) + k)%nat
  /\ length (Sim.pnl_history (self_of w'))
     = (length (Sim.pnl_history (self_of w)) + k)%nat.
Proof.
  induction k as [|k IH]; cbn zeta.
  - cbn. split; lia.
  - cbn [steps]. destruct (steps rehedge k t w) as [t' w'].
    cbn [snd] in *. cbn zeta in IH. destruct IH as [IHp IHq].
    rewrite (step_stock_price_history _ rehedge_frame).
    destruct (step_pnl_history _ rehedge_frame t' w') as [v Hv].
    rewrite Hv, !length_app. cbn [length]. split; lia.
Qed.

(** Histories only grow: what was recorded after [k] passes is still
    there, at the same index, after [k + j]. *)
Lemma steps_histories_prefix k j t w :
  let w1 := snd (steps rehedge k t w) in
  let w2 := snd (steps rehedge (k + j) t w) in
  (exists l, Sim.stock_price_history (self_of w2)
             = Sim.stock_price_history (self_of w1) ++ l)
  /\ (exists l, Sim.pnl_history (self_of w2)
                = Sim.pnl_history (self_of w1) ++ l).
Proof.
  induction j as [|j IH]; cbn zeta.
  - rewrite Nat.add_0_r. split; exists []; now rewrite app_nil_r.
  - rewrite Nat.add_succ_r. cbn [steps].
    destruct (steps rehedge (k + j) t w) as [t' w'].
    cbn [snd] in *. cbn zeta in IH. destruct IH as [[l1 H1] [l2 H2]].
    rewrite (step_stock_price_history _ rehedge_frame).
    destruct (step_pnl_history _ rehedge_frame t' w') as [v Hv].
    rewrite Hv, H1, H2. split; eexists; rewrite <- app_assoc; reflexivity.
Qed.

End Steps.

(* ================================================================== *)
(** * Whole runs *)
(* ================================================================== *)

Lemma no_raise_sold_compare w :
  no_raise (self_of w) (Sim.S (self_of w)) (Sim.T (self_of w)) ->
  no_raise (self_of (compare_volatility_sold w))
    (Sim.S (self_of (compare_volatility_sold w))) (Sim.T (self_of w)).
Proof. intro H; exact H. Qed.

Lemma no_raise_sold_autosim w :
  no_raise (self_of w) (Sim.S (self_of w)) (Sim.T (self_of w)) ->
  no_raise (self_of (hedging_autosim_sold w))
    (Sim.S (self_of (hedging_autosim_sold w))) (Sim.T (self_of w)).
Proof. intro H; exact H. Qed.

(** [run] returns the two histories and the premium of the final world. *)
Lemma compare_volatility_run_returns (w : world) :
  no_raise (self_of w) (Sim.S (self_of w)) (Sim.T (self_of w)) ->
  CompareVolatility.run w
  = (Return
       (Sim.stock_price_history (self_of (compare_volatility_final w)),
        Sim.pnl_history (self_of (compare_volatility_final w)),
        Sim.initial_premium (self_of (compare_volatility_final w))),
     compare_volatility_final w).
Proof.
  intro H. unfold CompareVolatility.run, bind, get_self, call, update, ret.
  rewrite black_scholes_price_value by assumption.
  cbn [self_of np_random set_initial_premium set_cash Sim.initial_premium
         Sim.cash Sim.n_steps Sim.T].
  rewrite (for_range_steps _ compare_volatility_only_trades)
    by (apply (no_raise_sold_compare w H)).
  reflexivity.
Qed.

(** [run] raises only at its first statement, the pricing of the option it
    sells, and then it has changed nothing. *)
Lemma compare_volatility_run_raises (w : world) (x : R) :
  Sim.S (self_of w) = PyNum x ->
  Sim.K (self_of w) = 0 -> 0 < Sim.T (self_of w) ->
  CompareVolatility.run w = (Raise ZeroDivisionError, w).
Proof.
  intros HS HK HT. unfold CompareVolatility.run, bind, get_self, call.
  rewrite HS, black_scholes_price_zero_strike by assumption. reflexivity.
Qed.

Lemma hedging_autosim_run_simulation_raises (w : world) (x : R) :
  Sim.S (self_of w) = PyNum x ->
  Sim.K (self_of w) = 0 -> 0 < Sim.T (self_of w) ->
  HedgingAutosim.run_simulation w = (Raise ZeroDivisionError, w).
Proof.
  intros HS HK HT. unfold HedgingAutosim.run_simulation, bind, get_self, call.
  rewrite HS, black_scholes_price_zero_strike by assumption. reflexivity.
Qed.

(** [run_simulation] ends with the report, which reads the last PnL
    entry. *)
Lemma hedging_autosim_run_simulation_outcome (w : world) :
  no_raise (self_of w) (Sim.S (self_of w)) (Sim.T (self_of w)) ->
  HedgingAutosim.run_simulation w
  = (match last_item (Sim.pnl_history (self_of (hedging_autosim_final w))) with
     | Return _ => Return tt
     | Raise e => Raise e
     end,
     hedging_autosim_final w).
Proof.
  intro H.
  unfold HedgingAutosim.run_simulation, bind, get_self, call, update, ret.
  rewrite black_scholes_price_value by assumption.
  cbn [self_of np_random set_cash Sim.cash Sim.n_steps Sim.T].
  rewrite (for_range_steps _ hedging_autosim_only_trades)
    by (apply (no_raise_sold_autosim w H)).
  unfold hedging_autosim_final, hedging_autosim_sold.
  cbn [self_of np_random set_cash Sim.cash Sim.n_steps Sim.T].
  destruct (last_item _); reflexivity.
Qed.

Lemma last_item_nonempty (l : list float64) :
  l <> [] -> exists v, last_item l = Return v.
Proof.
  intro H. unfold last_item. destruct (rev l) as [|v l'] eqn:E.
  - apply (f_equal (@rev float64)) in E. rewrite rev_involutive in E.
    contradiction.
  - exists v; reflexivity.
Qed.

Lemma last_item_empty : last_item [] = Raise IndexError.
Proof. reflexivity. Qed.

Lemma init_returns S0 K T r sigma n_steps :
  n_steps <> 0%Z ->
  __init__ S0 K T r sigma n_steps = Return (fresh S0 K T r sigma n_steps).
Proof.
  intro Hn. unfold __init__, truediv_int.
  apply Z.eqb_neq in Hn. now rewrite Hn.
Qed.

Lemma init_raises S0 K T r sigma :
  __init__ S0 K T r sigma 0 = Raise ZeroDivisionError.
Proof. reflexivity. Qed.

Lemma init_inv S0 K T r sigma n_steps self :
  __init__ S0 K T r sigma n_steps = Return self ->
  n_steps <> 0%Z /\ self = fresh S0 K T r sigma n_steps.
Proof.
  unfold __init__, truediv_int. destruct (n_steps =? 0)%Z eqn:E.
  - discriminate.
  - intro H. injection H as <-. apply Z.eqb_neq in E. split; [assumption|reflexivity].
Qed.

(* ================================================================== *)
(** * Lengths of the two histories *)
(* ================================================================== *)

Lemma no_raise_dec (self : Simulator) (x : R) :
  no_raise self (PyNum x) (Sim.T self)
  \/ (Sim.K self = 0 /\ 0 < Sim.T self).
Proof.
  destruct (Req_dec (Sim.K self) 0) as [HK|HK]; [|left; now left].
  destruct (Rle_dec (Sim.T self) 0) as [HT|HT]; [left; right; now left|].
  right. split; [assumption | lra].
Qed.

(** The price history of a fresh object starts with the initial spot, and
    keeps it there. *)
Lemma steps_first_price rehedge k t w x l :
  only_trades rehedge ->
  Sim.stock_price_history (self_of w) = x :: l ->
  nth_error (Sim.stock_price_history (self_of (snd (steps rehedge k t w)))) 0
  = Some x.
Proof.
  intros Hf Hw.
  destruct (steps_histories_prefix rehedge Hf 0 k t w) as [[l' Hl'] _].
  cbn [Nat.add steps snd] in Hl'. rewrite Hl', Hw. reflexivity.
Qed.

(** Runs of a fresh object with a non-zero strike and at least one step
    do return. *)
Lemma compare_volatility_run_succeeds (S0 K T r sigma : R) (n_steps : Z)
  (g : RandomState) :
  K <> 0 \/ T <= 0 ->
  exists result w',
    CompareVolatility.run (mkWorld (fresh S0 K T r sigma n_steps) g)
    = (Return result, w').
Proof.
  intro H. eexists. eexists. apply compare_volatility_run_returns.
  destruct H; [now left | right; now left].
Qed.

Lemma hedging_autosim_run_simulation_succeeds (S0 K T r sigma : R)
  (n_steps : Z) (g : RandomState) :
  K <> 0 \/ T <= 0 ->
  (1 <= n_steps)%Z ->
  exists w',
    HedgingAutosim.run_simulation (mkWorld (fresh S0 K T r sigma n_steps) g)
    = (Return tt, w').
Proof.
  intros H Hn. eexists.
  rewrite hedging_autosim_run_simulation_outcome
    by (destruct H; [now left | right; now left]).
  set (w := mkWorld (fresh S0 K T r sigma n_steps) g).
  destruct (steps_lengths _ hedging_autosim_only_trades
              (Z.to_nat n_steps) T (hedging_autosim_sold w)) as [_ Hq].
  destruct (last_item_nonempty
              (Sim.pnl_history (self_of (hedging_autosim_final w)))) as [v Hv].
  - unfold hedging_autosim_final. cbn [w self_of fresh Sim.n_steps Sim.T].
    fold w. intro E. rewrite E in Hq. cbn [length] in Hq. lia.
  - rewrite Hv. reflexivity.
Qed.



(* ================================================================== *)
(** * The price path *)
(* ================================================================== *)

Section PricePath.

Variable rehedge : Simulator -> float64 -> Simulator.
Hypothesis rehedge_frame : only_trades rehedge.

(** With a finite spot and a real [sqrt(dt)] a pass multiplies the spot
    by [exp(drift + sigma sqrt(dt) z)], [z] being the draw. *)
Lemma step_S_fin t w s :
  0 <= Sim.dt (self_of w) ->
  val (Sim.S (self_of w)) = Fin s ->
  val (Sim.S (self_of (step rehedge t w)))
  = Fin (s * exp (drift (self_of w)
                  + Sim.sigma (self_of w) * sqrt (Sim.dt (self_of w))
                    * stream (np_random w) (cursor (np_random w)))).
Proof.
  intros Hdt Hs. rewrite (step_S _ rehedge_frame).
  rewrite Hs, np_sqrt_fin by assumption. reflexivity.
Qed.

Lemma step_S_zero_shock t w s :
  0 <= Sim.dt (self_of w) ->
  val (Sim.S (self_of w)) = Fin s ->
  stream (np_random w) (cursor (np_random w)) = 0 ->
  val (Sim.S (self_of (step rehedge t w)))
  = Fin (s * exp (drift (self_of w))).
Proof.
  intros Hdt Hs Hz. rewrite (step_S_fin t w s Hdt Hs), Hz.
  now rewrite Rmult_0_r, Rplus_0_r.
Qed.

(** The path under shocks that are all [0]: after [k] passes the spot is
    [s0 exp(k drift)], and the history has gained these [k] values. *)
Lemma steps_zero_shocks k t w s0 :
  0 <= Sim.dt (self_of w) ->
  val (Sim.S (self_of w)) = Fin s0 ->
  (forall i, (i < k)%nat ->
             stream (np_random w) (cursor (np_random w) + i) = 0) ->
  let w' := snd (steps rehedge k t w) in
  val (Sim.S (self_of w')) = Fin (s0 * exp (INR k * drift (self_of w)))
  /\ Sim.stock_price_history (self_of w')
     = Sim.stock_price_history (self_of w)
       ++ map (fun i => Fin (s0 * exp (INR i * drift (self_of w))))
            (seq 1 k).
Proof.
  intros Hdt Hs. induction k as [|k IH]; intros Hz; cbn zeta.
  - cbn [steps snd seq map]. rewrite app_nil_r. split; [|reflexivity].
    rewrite Hs. f_equal. cbn [INR]. rewrite Rmult_0_l, exp_0. lra.
  - assert (Hz' : forall i, (i < k)%nat ->
                    stream (np_random w) (cursor (np_random w) + i) = 0)
      by (intros i Hi; apply Hz; lia).
    specialize (IH Hz'). cbn zeta in IH. destruct IH as [IHs IHh].
    pose proof (steps_params rehedge rehedge_frame k t w) as Hp.
    cbn zeta in Hp.
    destruct Hp as (_ & Hpdt & Hpr & Hpsig & _ & _ & _ & Hpst & Hpcu).
    cbn [steps]. destruct (steps rehedge k t w) as [t' w'].
    cbn [snd] in *.
    assert (Hnext :
              val (Sim.S (self_of (step rehedge t' w')))
              = Fin (s0 * exp (INR (S k) * drift (self_of w)))).
    { rewrite (step_S_zero_shock t' w' (s0 * exp (INR k * drift (self_of w)))).
      - unfold drift. rewrite Hpdt, Hpr, Hpsig. f_equal.
        rewrite Rmult_assoc, <- exp_plus, S_INR. f_equal. f_equal. lra.
      - rewrite Hpdt. assumption.
      - exact IHs.
      - rewrite Hpst, Hpcu. apply Hz. lia. }
    split; [exact Hnext|].
    rewrite (step_stock_price_history _ rehedge_frame), Hnext, IHh.
    rewrite seq_S, map_app, app_assoc. reflexivity.
Qed.

End PricePath.

Lemma nth_error_seq_from (a n k : nat) :
  (k < n)%nat -> nth_error (seq a n) k = Some (a + k)%nat.
Proof.
  revert a k. induction n as [|n IH]; intros a k Hk; [lia|].
  destruct k as [|k]; cbn [seq nth_error].
  - f_equal. lia.
  - rewrite IH by lia. f_equal. lia.
Qed.

Lemma nth_error_path (f : nat -> float64) (x0 : float64) (n k : nat) :
  (k <= n)%nat -> x0 = f O ->
  nth_error ([x0] ++ map f (seq 1 n)) k = Some (f k).
Proof.
  intros Hk H0. destruct k as [|k]; cbn [app nth_error].
  - now rewrite H0.
  - rewrite nth_error_map, nth_error_seq_from by lia. reflexivity.
Qed.

Lemma fresh_dt_nonneg S0 K T r sigma n_steps :
  (1 <= n_steps)%Z -> 0 <= T ->
  0 <= Sim.dt (fresh S0 K T r sigma n_steps).
Proof.
  intros Hn HT. cbn [fresh Sim.dt].
  assert (0 < IZR n_steps) by (apply IZR_lt; lia).
  apply Rmult_le_pos; [assumption|]. left. now apply Rinv_0_lt_compat.
Qed.



(* ================================================================== *)
(** * The random source *)
(* ================================================================== *)

Section Draws.

Variable rehedge : Simulator -> float64 -> Simulator.

(** A pass reads the generator only through the draw under its cursor. *)
Lemma step_same_draw t w1 w2 :
  self_of w1 = self_of w2 ->
  stream (np_random w1) (cursor (np_random w1))
  = stream (np_random w2) (cursor (np_random w2)) ->
  self_of (step rehedge t w1) = self_of (step rehedge t w2).
Proof.
  intros Hself Hdraw. unfold step. cbn [self_of].
  now rewrite Hself, Hdraw.
Qed.

Hypothesis rehedge_frame : only_trades rehedge.

(** [k] passes read the next [k] draws and nothing else of the
    generator. *)
Lemma steps_same_draws k t w1 w2 :
  self_of w1 = self_of w2 ->
  (forall i, (i < k)%nat ->
             stream (np_random w1) (cursor (np_random w1) + i)
             = stream (np_random w2) (cursor (np_random w2) + i)) ->
  fst (steps rehedge k t w1) = fst (steps rehedge k t w2)
  /\ self_of (snd (steps rehedge k t w1))
     = self_of (snd (steps rehedge k t w2)).
Proof.
  intros Hself. induction k as [|k IH]; intros Hdraws.
  - cbn. split; [reflexivity | assumption].
  - assert (Hdraws' : forall i, (i < k)%nat ->
               stream (np_random w1) (cursor (np_random w1) + i)
               = stream (np_random w2) (cursor (np_random w2) + i))
      by (intros i Hi; apply Hdraws; lia).
    specialize (IH Hdraws'). destruct IH as [IHt IHs].
    pose proof (steps_params rehedge rehedge_frame k t w1) as Hp1.
    pose proof (steps_params rehedge rehedge_frame k t w2) as Hp2.
    cbn zeta in Hp1, Hp2.
    destruct Hp1 as (_ & _ & _ & _ & _ & _ & _ & Hst1 & Hcu1).
    destruct Hp2 as (_ & _ & _ & _ & _ & _ & _ & Hst2 & Hcu2).
    cbn [steps].
    destruct (steps rehedge k t w1) as [t1 w1'].
    destruct (steps rehedge k t w2) as [t2 w2'].
    cbn [fst snd] in *. subst t2. split.
    + now rewrite IHs.
    + apply step_same_draw; [assumption|].
      rewrite Hst1, Hcu1, Hst2, Hcu2. apply Hdraws. lia.
Qed.

End Draws.

Lemma no_raise_cases (self : Simulator) :
  no_raise self (Sim.S self) (Sim.T self)
  \/ (exists x, Sim.S self = PyNum x /\ Sim.K self = 0 /\ 0 < Sim.T self).
Proof.
  destruct (Sim.S self) as [x|a] eqn:ES.
  - destruct (Req_dec (Sim.K self) 0) as [HK|HK]; [|left; now left].
    destruct (Rle_dec (Sim.T self) 0) as [HT|HT]; [left; right; now left|].
    right. exists x. repeat split; [assumption | lra].
  - left. right. right. now exists a.
Qed.



(** The first market move of a run records the spot of the first pass. *)
Lemma steps_second_price rehedge n t w x :
  only_trades rehedge ->
  (1 <= n)%nat ->
  Sim.stock_price_history (self_of w) = [x] ->
  nth_error (Sim.stock_price_history (self_of (snd (steps rehedge n t w)))) 1
  = Some (val (Sim.S (self_of (step rehedge t w)))).
Proof.
  intros Hf Hn Hw.
  destruct (steps_histories_prefix rehedge Hf 1 (n - 1) t w) as [[l Hl] _].
  replace (1 + (n - 1))%nat with n in Hl by lia.
  rewrite Hl. cbn [steps snd].
  rewrite (step_stock_price_history _ Hf), Hw. reflexivity.
Qed.

(** The second entry of the price history of a run of a fresh object is
    the spot after the first market move, which used the draw under the
    generator's cursor. *)
Lemma compare_volatility_first_move S0 K T r sigma n_steps g :
  (1 <= n_steps)%Z -> 0 <= T ->
  nth_error
    (Sim.stock_price_history
       (self_of (compare_volatility_final
                   (mkWorld (fresh S0 K T r sigma n_steps) g)))) 1
  = Some (Fin (S0 * exp ((r - 0.5 * sigma ^ 2) * (T / IZR n_steps)
                         + sigma * sqrt (T / IZR n_steps)
                           * stream g (cursor g)))).
Proof.
  intros Hn HT. unfold compare_volatility_final.
  rewrite (steps_second_price _ _ _ _ (Fin S0) compare_volatility_only_trades);
    [| cbn [self_of fresh Sim.n_steps]; lia | reflexivity].
  rewrite (step_S_fin _ compare_volatility_only_trades _ _ S0);
    [reflexivity | apply (fresh_dt_nonneg S0 K T r sigma n_steps Hn HT)
    | reflexivity].
Qed.

(** A run leaves the global generator [n_steps] draws further. *)
Lemma compare_volatility_final_generator (w : world) :
  stream (np_random (compare_volatility_final w)) = stream (np_random w)
  /\ cursor (np_random (compare_volatility_final w))
     = (cursor (np_random w) + Z.to_nat (Sim.n_steps (self_of w)))%nat.
Proof.
  pose proof (steps_params _ compare_volatility_only_trades
                (Z.to_nat (Sim.n_steps (self_of w))) (Sim.T (self_of w))
                (compare_volatility_sold w)) as Hp.
  cbn zeta in Hp. destruct Hp as (_ & _ & _ & _ & _ & _ & _ & Hst & Hcu).
  split; assumption.
Qed.


(* ================================================================== *)
(** * The market maker on valid parameters *)
(* ================================================================== *)

(** With a positive spot, strike and time to expiry and a non-zero
    volatility, [d1] and [d2] are the Black-Scholes quantities. *)
Lemma d1_d2_valid (self : OptionMarketMaker) (K T : R) :
  0 < MM.S self -> 0 < K -> MM.sigma self <> 0 -> 0 < T ->
  d1_d2 self K T
  = Return (Fin (bs_d1 (MM.S self) K (MM.r self) (MM.sigma self) T),
            Fin (bs_d2 (MM.S self) K (MM.r self) (MM.sigma self) T)).
Proof.
  intros HS HK Hsig HT. unfold d1_d2, bs_d2, bs_d1.
  rewrite truediv_py by lra.
  rewrite np_log_fin by (apply Rdiv_lt_0_compat; lra).
  rewrite np_sqrt_fin by lra.
  cbn [f_add f_mul].
  rewrite f_div_fin; [reflexivity|].
  apply Rmult_integral_contrapositive_currified; [assumption|].
  apply Rgt_not_eq, sqrt_lt_R0; assumption.
Qed.

(** The fair value is the Black-Scholes call price, and the Greeks are the
    closed forms. *)
Lemma get_price_and_greeks_valid (self : OptionMarketMaker) (K T : R) :
  0 < MM.S self -> 0 < K -> MM.sigma self <> 0 -> 0 < T ->
  let d1 := bs_d1 (MM.S self) K (MM.r self) (MM.sigma self) T in
  let d2 := bs_d2 (MM.S self) K (MM.r self) (MM.sigma self) T in
  get_price_and_greeks self K T
  = Return
      (Fin (bs_call (MM.S self) K (MM.r self) (MM.sigma self) T),
       Fin (std_cdf d1),
       Fin (std_pdf d1 / (MM.S self * MM.sigma self * sqrt T)),
       Fin (- (MM.S self * std_pdf d1 * MM.sigma self) / (2 * sqrt T)
            - MM.r self * K * exp (- MM.r self * T) * std_cdf d2)).
Proof.
  intros HS HK Hsig HT. cbn zeta. unfold get_price_and_greeks.
  rewrite d1_d2_valid by assumption.
  rewrite np_sqrt_fin by lra.
  assert (Hsqrt : 0 < sqrt T) by (apply sqrt_lt_R0; assumption).
  cbn [norm_cdf norm_pdf np_exp f_mul f_sub f_add f_neg].
  rewrite !f_div_fin.
  - reflexivity.
  - lra.
  - apply Rmult_integral_contrapositive_currified; [|lra].
    apply Rmult_integral_contrapositive_currified; [lra | assumption].
Qed.

Lemma make_market_valid (self : OptionMarketMaker) (K days_left : R) :
  0 < MM.S self -> 0 < K -> MM.sigma self <> 0 -> 0 < days_left ->
  exists q,
    make_market self K days_left = Return q
    /\ fair_value q
       = Fin (bs_call (MM.S self) K (MM.r self) (MM.sigma self)
                (days_left / 365.0)).
Proof.
  intros HS HK Hsig Hd. unfold make_market.
  rewrite get_price_and_greeks_valid by (try assumption; lra).
  eexists. split; reflexivity.
Qed.


(* ================================================================== *)
(** * Runs on valid parameters stay finite *)
(* ================================================================== *)

Lemma compare_volatility_keeps_finite : keeps_finite CompareVolatility.rehedge.
Proof.
  intros self c i s d Hc Hi Hs.
  rewrite (compare_volatility_rehedge_fin self c i s d Hc Hi Hs).
  eexists. eexists. split; reflexivity.
Qed.

Lemma hedging_autosim_keeps_finite : keeps_finite HedgingAutosim.rehedge.
Proof.
  intros self c i s d Hc Hi Hs.
  destruct (Rlt_dec 0.001 (Rabs (d - i))) as [Hbig|Hsmall].
  - rewrite (hedging_autosim_rehedge_trade self c i s d Hc Hi Hs Hbig).
    eexists. eexists. split; reflexivity.
  - rewrite (hedging_autosim_rehedge_skip self i d Hi) by lra.
    exists c, i. split; assumption.
Qed.

Section Finite.

Variable rehedge : Simulator -> float64 -> Simulator.
Hypothesis rehedge_frame : only_trades rehedge.
Hypothesis rehedge_finite : keeps_finite rehedge.

Lemma step_valid_params t w :
  valid_params (self_of w) -> valid_params (self_of (step rehedge t w)).
Proof.
  unfold valid_params.
  now rewrite (step_K _ rehedge_frame), (step_sigma _ rehedge_frame),
    (step_dt _ rehedge_frame).
Qed.

Lemma step_finite_book t w :
  valid_params (self_of w) -> finite_book (self_of w) ->
  finite_book (self_of (step rehedge t w)).
Proof.
  intros (HK & Hsig & Hdt) (s & c & i & Hs & Hpos & Hc & Hi).
  destruct (delta_value_finite (self_of w) s t Hpos HK Hsig) as [d Hd].
  destruct (rehedge_finite (self_of w) c i s d Hc Hi Hs) as (c' & i' & Hc' & Hi').
  exists (s * exp (drift (self_of w)
                   + Sim.sigma (self_of w) * sqrt (Sim.dt (self_of w))
                     * stream (np_random w) (cursor (np_random w)))), c', i'.
  split; [apply (step_S_fin _ rehedge_frame); assumption|].
  split; [apply Rmult_lt_0_compat; [assumption | apply exp_pos]|].
  unfold step. cbn [self_of pnl_history_append market_move
                      stock_price_history_append set_S Sim.cash
                      Sim.stock_inventory].
  rewrite Hs, Hd. split; assumption.
Qed.

Lemma steps_finite_book k t w :
  valid_params (self_of w) -> finite_book (self_of w) ->
  valid_params (self_of (snd (steps rehedge k t w)))
  /\ finite_book (self_of (snd (steps rehedge k t w))).
Proof.
  intros Hv Hf. induction k as [|k [IHv IHf]]; [now split|].
  cbn [steps]. destruct (steps rehedge k t w) as [t' w']. cbn [snd] in *.
  split; [now apply step_valid_params | now apply step_finite_book].
Qed.

(** What the loop of the scripts has reached after [k] passes, on valid
    parameters and from a finite book: the clock stands at
    [t0 - k dt], and the book is finite. *)
Lemma for_range_finite k t0 w0 t w :
  valid_params (self_of w0) -> finite_book (self_of w0) ->
  for_range k (loop_body rehedge) t0 w0 = (Return t, w) ->
  t = t0 - INR k * Sim.dt (self_of w0)
  /\ valid_params (self_of w) /\ finite_book (self_of w)
  /\ Sim.dt (self_of w) = Sim.dt (self_of w0)
  /\ Sim.T (self_of w) = Sim.T (self_of w0).
Proof.
  intros Hv Hf Hrun.
  rewrite (for_range_steps _ rehedge_frame) in Hrun
    by (left; apply Rgt_not_eq, Hv).
  injection Hrun as <- <-.
  split; [apply (steps_time _ rehedge_frame)|].
  destruct (steps_finite_book k t0 w0 Hv Hf) as [Hv' Hf'].
  split; [assumption|]. split; [assumption|].
  split; apply (steps_params _ rehedge_frame k t0 w0).
Qed.

End Finite.

Lemma fresh_valid_params S0 K T r sigma n_steps :
  valid_inputs S0 K T r sigma n_steps ->
  valid_params (fresh S0 K T r sigma n_steps).
Proof.
  intros (HS & HK & Hsig & HT & Hn). repeat split; try assumption.
  now apply fresh_dt_nonneg.
Qed.

Lemma compare_volatility_sold_finite S0 K T r sigma n_steps g :
  valid_inputs S0 K T r sigma n_steps ->
  valid_params
    (self_of (compare_volatility_sold (mkWorld (fresh S0 K T r sigma n_steps) g)))
  /\ finite_book
       (self_of (compare_volatility_sold
                   (mkWorld (fresh S0 K T r sigma n_steps) g))).
Proof.
  intro Hv. pose proof (fresh_valid_params _ _ _ _ _ _ Hv) as Hp.
  destruct Hv as (HS & HK & Hsig & HT & Hn).
  split; [exact Hp|].
  destruct (price_value_finite (fresh S0 K T r sigma n_steps) S0 T HS HK Hsig)
    as [v Hv].
  exists S0, (0 + v), 0. unfold compare_volatility_sold.
  cbn [self_of fresh set_cash set_initial_premium Sim.S Sim.T Sim.cash
         Sim.stock_inventory val].
  change (Sim.mk (PyNum S0) K T r sigma (T / IZR n_steps) n_steps (Fin 0)
            (Fin 0) [] [Fin S0] (Fin 0))
    with (fresh S0 K T r sigma n_steps).
  rewrite Hv. repeat split; try reflexivity. assumption.
Qed.

Lemma hedging_autosim_sold_finite S0 K T r sigma n_steps g :
  valid_inputs S0 K T r sigma n_steps ->
  valid_params
    (self_of (hedging_autosim_sold (mkWorld (fresh S0 K T r sigma n_steps) g)))
  /\ finite_book
       (self_of (hedging_autosim_sold
                   (mkWorld (fresh S0 K T r sigma n_steps) g))).
Proof.
  intro Hv. pose proof (fresh_valid_params _ _ _ _ _ _ Hv) as Hp.
  destruct Hv as (HS & HK & Hsig & HT & Hn).
  split; [exact Hp|].
  destruct (price_value_finite (fresh S0 K T r sigma n_steps) S0 T HS HK Hsig)
    as [v Hv].
  exists S0, (0 + v), 0. unfold hedging_autosim_sold.
  cbn [self_of fresh set_cash Sim.S Sim.T Sim.cash Sim.stock_inventory val].
  change (Sim.mk (PyNum S0) K T r sigma (T / IZR n_steps) n_steps (Fin 0)
            (Fin 0) [] [Fin S0] (Fin 0))
    with (fresh S0 K T r sigma n_steps).
  rewrite Hv. repeat split; try reflexivity. assumption.
Qed.

(* ================================================================== *)
(** * The re-hedge inside a run *)
(* ================================================================== *)

Lemma hedge_value_fin (self : Simulator) (c i s : R) :
  Sim.cash self = Fin c -> Sim.stock_inventory self = Fin i ->
  val (Sim.S self) = Fin s ->
  hedge_value self = Fin (c + i * s).
Proof. intros Hc Hi Hs. unfold hedge_value. now rewrite Hc, Hi, Hs. Qed.

(** The trade of lines 47-53 / 55-57 moves value between cash and stock
    and creates none. *)
Lemma hedge_value_after_trade (self : Simulator) (c i s d : R) :
  val (Sim.S self) = Fin s ->
  hedge_value
    (set_stock_inventory (set_cash self (Fin (c - (d - i) * s)))
       (Fin (i + (d - i))))
  = Fin (c + i * s).
Proof.
  intro Hs. unfold hedge_value.
  cbn [set_stock_inventory set_cash Sim.cash Sim.stock_inventory Sim.S].
  rewrite Hs. cbn [f_mul f_add]. f_equal. ring.
Qed.



Lemma example_valid_inputs : valid_inputs 100 100 0.25 0.05 0.2 100.
Proof. repeat split; try lra; lia. Qed.



(* ------------------------------------------------------------------ *)
(** ** A skipped trade in [hedging_autosim.py] *)

Lemma step_stock_inventory rehedge t w :
  Sim.stock_inventory (self_of (step rehedge t w))
  = Sim.stock_inventory
      (rehedge (self_of w)
         (delta_value (self_of w) (val (Sim.S (self_of w))) t)).
Proof. reflexivity. Qed.

Lemma step_cash rehedge t w :
  Sim.cash (self_of (step rehedge t w))
  = Sim.cash
      (rehedge (self_of w)
         (delta_value (self_of w) (val (Sim.S (self_of w))) t)).
Proof. reflexivity. Qed.

Lemma low_rate_d1_first : bs_d1 100 100 (-0.005) 0.1 2 = 0.
Proof.
  unfold bs_d1. replace (100 / 100) with 1 by lra. rewrite ln_1.
  unfold Rdiv. apply Rmult_eq_0_compat_r. lra.
Qed.

Lemma low_rate_d1_second : bs_d1 (100 * exp 0.0001) 100 (-0.005) 0.1 1 = 0.001.
Proof.
  unfold bs_d1. replace (100 * exp 0.0001 / 100) with (exp 0.0001) by lra.
  rewrite ln_exp, sqrt_1. lra.
Qed.

(** The first pass: the delta is [1/2], half a share is bought, and the
    market moves the spot to [100 exp(0.0001)]. *)
Lemma low_rate_first_pass :
  for_range 1 (loop_body HedgingAutosim.rehedge) 2
    (hedging_autosim_sold (mkWorld low_rate_sim drifting_draws))
  = (Return 1,
     step HedgingAutosim.rehedge 2
       (hedging_autosim_sold (mkWorld low_rate_sim drifting_draws)))
  /\ val (Sim.S (self_of (step HedgingAutosim.rehedge 2
                            (hedging_autosim_sold
                               (mkWorld low_rate_sim drifting_draws)))))
     = Fin (100 * exp 0.0001)
  /\ Sim.stock_inventory
       (self_of (step HedgingAutosim.rehedge 2
                   (hedging_autosim_sold (mkWorld low_rate_sim drifting_draws))))
     = Fin (1 / 2)
  /\ Sim.K (self_of (step HedgingAutosim.rehedge 2
                       (hedging_autosim_sold
                          (mkWorld low_rate_sim drifting_draws)))) = 100
  /\ Sim.r (self_of (step HedgingAutosim.rehedge 2
                       (hedging_autosim_sold
                          (mkWorld low_rate_sim drifting_draws)))) = -0.005
  /\ Sim.sigma (self_of (step HedgingAutosim.rehedge 2
                           (hedging_autosim_sold
                              (mkWorld low_rate_sim drifting_draws)))) = 0.1.
Proof.
  set (w0 := hedging_autosim_sold (mkWorld low_rate_sim drifting_draws)).
  assert (HK : Sim.K (self_of w0) = 100) by reflexivity.
  assert (Hr : Sim.r (self_of w0) = -0.005) by reflexivity.
  assert (Hsig : Sim.sigma (self_of w0) = 0.1) by reflexivity.
  assert (Hdt : Sim.dt (self_of w0) = 1) by (cbn; lra).
  assert (HS : val (Sim.S (self_of w0)) = Fin 100) by reflexivity.
  assert (Hi : Sim.stock_inventory (self_of w0) = Fin 0) by reflexivity.
  destruct (hedging_autosim_sold_finite 100 100 2 (-0.005) 0.1 2 drifting_draws)
    as [_ (s & c & i & _ & _ & Hc & _)].
  { repeat split; try lra; lia. }
  fold low_rate_sim in Hc. fold w0 in Hc.
  split.
  { rewrite (for_range_steps _ hedging_autosim_only_trades)
      by (left; rewrite HK; lra).
    cbn [steps fst snd]. rewrite Hdt. f_equal. f_equal. lra. }
  split.
  { rewrite (step_S_fin _ hedging_autosim_only_trades 2 w0 100)
      by (try assumption; rewrite Hdt; lra).
    unfold drift. rewrite Hr, Hsig, Hdt, sqrt_1.
    change (stream (np_random w0) (cursor (np_random w0))) with 0.101.
    do 3 f_equal. lra. }
  split.
  { rewrite step_stock_inventory, HS.
    rewrite delta_value_fin by (rewrite ?HK, ?Hsig; lra).
    rewrite HK, Hr, Hsig, low_rate_d1_first, std_cdf_0.
    rewrite (hedging_autosim_rehedge_trade _ c 0 100 (1 / 2) Hc Hi HS).
    - cbn [set_stock_inventory Sim.stock_inventory]. f_equal. lra.
    - rewrite Rabs_right; lra. }
  rewrite (step_K _ hedging_autosim_only_trades),
    (step_r _ hedging_autosim_only_trades),
    (step_sigma _ hedging_autosim_only_trades).
  repeat split; assumption.
Qed.


(* ================================================================== *)
(** * Mark-to-market *)
(* ================================================================== *)

Lemma step_pnl_entry rehedge t w :
  only_trades rehedge ->
  Sim.pnl_history (self_of (step rehedge t w))
  = Sim.pnl_history (self_of w)
    ++ [f_sub (hedge_value (self_of (step rehedge t w)))
          (price_value (self_of (step rehedge t w))
             (val (Sim.S (self_of (step rehedge t w)))) t)].
Proof.
  intro Hf. unfold step. cbn [self_of pnl_history_append Sim.pnl_history].
  unfold market_move at 1.
  cbn [stock_price_history_append set_S Sim.pnl_history].
  rewrite (rehedge_pnl_history _ Hf). reflexivity.
Qed.

(** X1. In either script, a pass of the loop that starts with the clock at
    [current_time] appends the PnL entry
    [cash + stock_inventory * S - black_scholes_price(S, current_time)],
    cash, inventory and spot being those after the re-hedge and the market
    move, and only then moves the clock to [current_time - dt]: the option
    is revalued at the remaining time of before the step. *)
Theorem loop_body_pnl_entry rehedge t w t' w' :
  only_trades rehedge ->
  loop_body rehedge t w = (Return t', w') ->
  t' = t - Sim.dt (self_of w)
  /\ exists v,
      black_scholes_price (self_of w') (Sim.S (self_of w')) t = Return v
      /\ Sim.pnl_history (self_of w')
         = Sim.pnl_history (self_of w) ++ [f_sub (hedge_value (self_of w')) v].
Proof.
  intros Hf Hbody.
  assert (Hok : no_raise (self_of w) (Sim.S (self_of w)) t).
  { destruct (Sim.S (self_of w)) as [x|a] eqn:ES; [|right; right; now exists a].
    destruct (Req_dec (Sim.K (self_of w)) 0) as [HK|HK]; [|now left].
    destruct (Rle_dec t 0) as [Ht|Ht]; [right; now left|].
    exfalso. unfold loop_body, bind, get_self, call in Hbody.
    unfold black_scholes_delta, d1_of in Hbody.
    rewrite Rleb_false, ES, HK, truediv_py_zero in Hbody by lra.
    discriminate. }
  rewrite (loop_body_step _ Hf _ _ Hok) in Hbody.
  injection Hbody as <- <-. split; [reflexivity|].
  eexists. split.
  - apply black_scholes_price_value. right; right.
    rewrite (step_S _ Hf). eexists. reflexivity.
  - apply step_pnl_entry, Hf.
Qed.

Lemma loop_body_pnl_entry_witness :
  only_trades HedgingAutosim.rehedge
  /\ loop_body HedgingAutosim.rehedge 0.25
       (hedging_autosim_sold (mkWorld example_sim zero_shocks))
     = (Return (0.25 - Sim.dt example_sim),
        step HedgingAutosim.rehedge 0.25
          (hedging_autosim_sold (mkWorld example_sim zero_shocks)))
  /\ exists v,
      black_scholes_price
        (self_of (step HedgingAutosim.rehedge 0.25
                    (hedging_autosim_sold (mkWorld example_sim zero_shocks))))
        (Sim.S (self_of (step HedgingAutosim.rehedge 0.25
                           (hedging_autosim_sold
                              (mkWorld example_sim zero_shocks)))))
        0.25
      = Return v
      /\ Sim.pnl_history
           (self_of (step HedgingAutosim.rehedge 0.25
                       (hedging_autosim_sold (mkWorld example_sim zero_shocks))))
         = Sim.pnl_history
             (self_of (hedging_autosim_sold (mkWorld example_sim zero_shocks)))
           ++ [f_sub
                 (hedge_value
                    (self_of (step HedgingAutosim.rehedge 0.25
                                (hedging_autosim_sold
                                   (mkWorld example_sim zero_shocks)))))
                 v].
Proof.
  assert (Hbody :
            loop_body HedgingAutosim.rehedge 0.25
              (hedging_autosim_sold (mkWorld example_sim zero_shocks))
            = (Return (0.25 - Sim.dt example_sim),
               step HedgingAutosim.rehedge 0.25
                 (hedging_autosim_sold (mkWorld example_sim zero_shocks)))).
  { apply (loop_body_step _ hedging_autosim_only_trades). left. cbn. lra. }
  split; [exact hedging_autosim_only_trades|]. split; [exact Hbody|].
  exact (proj2 (loop_body_pnl_entry HedgingAutosim.rehedge 0.25 _ _ _
                  hedging_autosim_only_trades Hbody)).
Defined.

(** In a run, entry [k] of the PnL history is
    [cash + inventory * S_(k+1) - price(S_(k+1), t0 - k dt)], the book and
    the spot being those after pass [k]: the remaining time is the one
    before that pass's decrement. *)
Lemma steps_pnl_nth rehedge k j t0 w0 :
  only_trades rehedge ->
  nth_error
    (Sim.pnl_history (self_of (snd (steps rehedge (S k + j) t0 w0))))
    (length (Sim.pnl_history (self_of w0)) + k)
  = Some
      (f_sub (hedge_value (self_of (snd (steps rehedge (S k) t0 w0))))
         (price_value (self_of (snd (steps rehedge (S k) t0 w0)))
            (val (Sim.S (self_of (snd (steps rehedge (S k) t0 w0)))))
            (t0 - INR k * Sim.dt (self_of w0)))).
Proof.
  intro Hf.
  destruct (steps_histories_prefix rehedge Hf (S k) j t0 w0) as [_ [l Hl]].
  rewrite Hl. clear Hl.
  pose proof (steps_time rehedge Hf k t0 w0) as Ht.
  destruct (steps_lengths rehedge Hf k t0 w0) as [_ Hlen].
  cbn [steps]. destruct (steps rehedge k t0 w0) as [t w] eqn:E.
  cbn [fst snd] in *. cbn zeta in Hlen.
  rewrite (step_pnl_entry _ _ _ Hf), <- Hlen, <- Ht, <- app_assoc.
  rewrite nth_error_app2 by lia.
  now rewrite Nat.sub_diag.
Qed.

(* ------------------------------------------------------------------ *)
(** ** The last entry of a run that reaches expiry *)

Lemma expiry_d1 : bs_d1 100 100 0 0.2 1 = 0.1.
Proof.
  unfold bs_d1. replace (100 / 100) with 1 by lra.
  rewrite ln_1, sqrt_1. lra.
Qed.

Lemma expiry_call :
  bs_call 100 100 0 0.2 1 = 100 * (std_cdf 0.1 - std_cdf (- 0.1)).
Proof.
  unfold bs_call, bs_d2. rewrite expiry_d1, sqrt_1.
  replace (- 0 * 1) with 0 by lra. rewrite exp_0.
  replace (0.1 - 0.2 * 1) with (- 0.1) by lra. lra.
Qed.

Lemma expiry_call_pos : 0 < 100 * (std_cdf 0.1 - std_cdf (- 0.1)).
Proof.
  assert (H : std_cdf (- 0.1) < std_cdf 0.1) by (apply std_cdf_increasing; lra).
  lra.
Qed.

Lemma expiry_premium (n_steps : Z) :
  price_value (fresh 100 100 1 0 0.2 n_steps) (Fin 100) 1
  = Fin (100 * (std_cdf 0.1 - std_cdf (- 0.1))).
Proof.
  rewrite price_value_fin by (cbn; lra).
  cbn [fresh Sim.K Sim.r Sim.sigma]. now rewrite expiry_call.
Qed.

(** The object [run] leaves for [expiry_sim]: the premium is the
    Black-Scholes price [100 (N(0.1) - N(-0.1))], [N(0.1)] shares were
    bought at 100, the spot is again 100, and the one PnL entry, valued with
    a full year left, is [0]. *)
Lemma expiry_final :
  Sim.S (self_of (compare_volatility_final (mkWorld expiry_sim tenth_draws)))
  = NpNum (Fin 100)
  /\ Sim.cash (self_of (compare_volatility_final
                          (mkWorld expiry_sim tenth_draws)))
     = Fin (0 + 100 * (std_cdf 0.1 - std_cdf (- 0.1)) - (std_cdf 0.1 - 0) * 100)
  /\ Sim.stock_inventory
       (self_of (compare_volatility_final (mkWorld expiry_sim tenth_draws)))
     = Fin (0 + (std_cdf 0.1 - 0))
  /\ Sim.pnl_history
       (self_of (compare_volatility_final (mkWorld expiry_sim tenth_draws)))
     = [Fin 0]
  /\ Sim.stock_price_history
       (self_of (compare_volatility_final (mkWorld expiry_sim tenth_draws)))
     = [Fin 100; Fin 100]
  /\ Sim.initial_premium
       (self_of (compare_volatility_final (mkWorld expiry_sim tenth_draws)))
     = Fin (100 * (std_cdf 0.1 - std_cdf (- 0.1)))
  /\ Sim.K (self_of (compare_volatility_final
                       (mkWorld expiry_sim tenth_draws))) = 100
  /\ Sim.T (self_of (compare_volatility_final
                       (mkWorld expiry_sim tenth_draws))) = 1
  /\ Sim.dt (self_of (compare_volatility_final
                        (mkWorld expiry_sim tenth_draws))) = 1.
Proof.
  unfold compare_volatility_final.
  change (Z.to_nat (Sim.n_steps (self_of (mkWorld expiry_sim tenth_draws))))
    with 1%nat.
  change (Sim.T (self_of (mkWorld expiry_sim tenth_draws))) with 1.
  cbn [steps snd].
  set (w0 := compare_volatility_sold (mkWorld expiry_sim tenth_draws)).
  assert (HK : Sim.K (self_of w0) = 100) by reflexivity.
  assert (Hr : Sim.r (self_of w0) = 0) by reflexivity.
  assert (Hsig : Sim.sigma (self_of w0) = 0.2) by reflexivity.
  assert (Hdt : Sim.dt (self_of w0) = 1) by (cbn; lra).
  assert (HT : Sim.T (self_of w0) = 1) by reflexivity.
  assert (HS : val (Sim.S (self_of w0)) = Fin 100) by reflexivity.
  assert (Hi : Sim.stock_inventory (self_of w0) = Fin 0) by reflexivity.
  assert (Hp : Sim.initial_premium (self_of w0)
               = Fin (100 * (std_cdf 0.1 - std_cdf (- 0.1))))
    by (apply (expiry_premium 1)).
  assert (Hc : Sim.cash (self_of w0)
               = Fin (0 + 100 * (std_cdf 0.1 - std_cdf (- 0.1)))).
  { change (f_add (Fin 0) (price_value (fresh 100 100 1 0 0.2 1) (Fin 100) 1)
            = Fin (0 + 100 * (std_cdf 0.1 - std_cdf (- 0.1)))).
    now rewrite expiry_premium. }
  assert (Hd : delta_value (self_of w0) (Fin 100) 1 = Fin (std_cdf 0.1)).
  { rewrite delta_value_fin by (rewrite ?HK, ?Hsig; lra).
    now rewrite HK, Hr, Hsig, expiry_d1. }
  assert (HS1 : Sim.S (self_of (step CompareVolatility.rehedge 1 w0))
                = NpNum (Fin 100)).
  { rewrite (step_S _ compare_volatility_only_trades).
    rewrite HS, Hr, Hsig, Hdt, np_sqrt_fin by lra. rewrite sqrt_1.
    change (stream (np_random w0) (cursor (np_random w0))) with 0.1.
    cbn [f_mul f_add np_exp].
    replace ((0 - 0.5 * 0.2 ^ 2) * 1 + 0.2 * 1 * 0.1) with 0 by lra.
    rewrite exp_0. do 2 f_equal. lra. }
  assert (Hc1 : Sim.cash (self_of (step CompareVolatility.rehedge 1 w0))
                = Fin (0 + 100 * (std_cdf 0.1 - std_cdf (- 0.1))
                       - (std_cdf 0.1 - 0) * 100)).
  { rewrite step_cash, HS, Hd.
    now rewrite (compare_volatility_rehedge_fin _ _ _ _ _ Hc Hi HS). }
  assert (Hi1 : Sim.stock_inventory
                  (self_of (step CompareVolatility.rehedge 1 w0))
                = Fin (0 + (std_cdf 0.1 - 0))).
  { rewrite step_stock_inventory, HS, Hd.
    now rewrite (compare_volatility_rehedge_fin _ _ _ _ _ Hc Hi HS). }
  assert (HK1 : Sim.K (self_of (step CompareVolatility.rehedge 1 w0)) = 100)
    by (now rewrite (step_K _ compare_volatility_only_trades)).
  split; [exact HS1|]. split; [exact Hc1|]. split; [exact Hi1|].
  split.
  { rewrite (step_pnl_entry _ _ _ compare_volatility_only_trades).
    change (Sim.pnl_history (self_of w0)) with (@nil float64).
    cbn [app]. f_equal.
    rewrite (hedge_value_fin _ _ _ 100 Hc1 Hi1) by (now rewrite HS1).
    rewrite HS1. cbn [val].
    rewrite price_value_fin; try lra.
    - rewrite HK1, (step_r _ compare_volatility_only_trades),
        (step_sigma _ compare_volatility_only_trades), Hr, Hsig, expiry_call.
      cbn [f_sub f_add f_neg]. f_equal. lra.
    - rewrite (step_sigma _ compare_volatility_only_trades), Hsig; lra. }
  split.
  { rewrite (step_stock_price_history _ compare_volatility_only_trades), HS1.
    reflexivity. }
  split.
  { now rewrite (step_initial_premium _ compare_volatility_only_trades). }
  split; [exact HK1|].
  split.
  - now rewrite (step_T _ compare_volatility_only_trades).
  - now rewrite (step_dt _ compare_volatility_only_trades).
Qed.

(** C1 at a run that reaches expiry.  [run] on [expiry_sim] returns the
    PnL series [[0]]: the option was valued with a full year left although
    the step had used that year up.  Valued as the specification words it,
    at the remaining time [T - 1 dt = 0], the option is worth its intrinsic
    value [0] and the entry is the premium [100 (N(0.1) - N(-0.1))], which
    is not [0]. *)
Theorem C1_mark_to_market_at_expiry :
  exists prices premium w',
    CompareVolatility.run (mkWorld expiry_sim tenth_draws)
    = (Return (prices, [Fin 0], premium), w')
    /\ spec_pnl_entry (self_of w') 0
       = Return (Fin (100 * (std_cdf 0.1 - std_cdf (- 0.1))))
    /\ Fin 0 <> Fin (100 * (std_cdf 0.1 - std_cdf (- 0.1))).
Proof.
  destruct expiry_final
    as (HS & Hc & Hi & Hpnl & Hprices & Hprem & HK & HT & Hdt).
  set (w' := compare_volatility_final (mkWorld expiry_sim tenth_draws)) in *.
  do 2 eexists. exists w'. split; [|split].
  - rewrite compare_volatility_run_returns by (left; cbn; lra).
    fold w'. rewrite Hpnl. reflexivity.
  - unfold spec_pnl_entry. rewrite HS, HT, Hdt.
    replace (1 - INR (0 + 1) * 1) with 0 by (cbn; lra).
    rewrite black_scholes_price_value_np, price_value_expired by lra.
    rewrite HK, (hedge_value_fin _ _ _ 100 Hc Hi) by (now rewrite HS).
    rewrite Rmax_right by lra. cbn [f_sub f_add f_neg]. do 2 f_equal. lra.
  - intro H. apply Fin_inj in H. pose proof expiry_call_pos. lra.
Qed.

(* ================================================================== *)
(** * Parameters that are not validated *)
(* ================================================================== *)

(** A run of a fresh object whose first pricer call does not raise: what
    it returns. *)
Lemma compare_volatility_run_fresh (S0 K T r sigma : R) (n_steps : Z)
  (g : RandomState) :
  K <> 0 \/ T <= 0 ->
  exists prices pnl w',
    CompareVolatility.run (mkWorld (fresh S0 K T r sigma n_steps) g)
    = (Return (prices, pnl,
               price_value (fresh S0 K T r sigma n_steps) (Fin S0) T), w')
    /\ w' = compare_volatility_final (mkWorld (fresh S0 K T r sigma n_steps) g)
    /\ length prices = (1 + Z.to_nat n_steps)%nat
    /\ length pnl = Z.to_nat n_steps.
Proof.
  intro H. set (w := mkWorld (fresh S0 K T r sigma n_steps) g).
  assert (Hok : no_raise (self_of w) (Sim.S (self_of w)) (Sim.T (self_of w)))
    by (destruct H; [now left | right; now left]).
  do 2 eexists. exists (compare_volatility_final w).
  split; [|split; [reflexivity|]].
  - rewrite (compare_volatility_run_returns w Hok). do 3 f_equal.
    unfold compare_volatility_final.
    now rewrite (proj1 (proj2 (proj2 (proj2 (proj2 (proj2 (proj2
                   (steps_params _ compare_volatility_only_trades _ _ _)))))))).
  - destruct (steps_lengths _ compare_volatility_only_trades
                (Z.to_nat n_steps) T (compare_volatility_sold w)) as [Hp Hq].
    unfold compare_volatility_final. cbn [w self_of fresh Sim.n_steps Sim.T].
    fold w. rewrite Hp, Hq.
    change (length (Sim.stock_price_history
                      (self_of (compare_volatility_sold w)))) with 1%nat.
    change (length (Sim.pnl_history (self_of (compare_volatility_sold w))))
      with 0%nat.
    split; lia.
Qed.

Lemma to_nat_negative (n : Z) : (n < 0)%Z -> Z.to_nat n = 0%nat.
Proof. intro H. lia. Qed.

(** With a negative step count the loop body never runs: [run] returns the
    initial spot alone and no PnL entry, having credited the premium. *)
Lemma compare_volatility_run_negative_steps (S0 K T r sigma : R) (n_steps : Z)
  (g : RandomState) :
  K <> 0 \/ T <= 0 ->
  (n_steps < 0)%Z ->
  exists w',
    CompareVolatility.run (mkWorld (fresh S0 K T r sigma n_steps) g)
    = (Return ([Fin S0], [],
               price_value (fresh S0 K T r sigma n_steps) (Fin S0) T), w')
    /\ Sim.cash (self_of w')
       = f_add (Fin 0) (price_value (fresh S0 K T r sigma n_steps) (Fin S0) T).
Proof.
  intros H Hn. set (w := mkWorld (fresh S0 K T r sigma n_steps) g).
  assert (Hok : no_raise (self_of w) (Sim.S (self_of w)) (Sim.T (self_of w)))
    by (destruct H; [now left | right; now left]).
  exists (compare_volatility_final w).
  rewrite (compare_volatility_run_returns w Hok).
  unfold compare_volatility_final. cbn [w self_of fresh Sim.n_steps].
  rewrite to_nat_negative by assumption. split; reflexivity.
Qed.

Lemma hedging_autosim_run_simulation_negative_steps (S0 K T r sigma : R)
  (n_steps : Z) (g : RandomState) :
  K <> 0 \/ T <= 0 ->
  (n_steps < 0)%Z ->
  exists w',
    HedgingAutosim.run_simulation (mkWorld (fresh S0 K T r sigma n_steps) g)
    = (Raise IndexError, w')
    /\ Sim.cash (self_of w')
       = f_add (Fin 0) (price_value (fresh S0 K T r sigma n_steps) (Fin S0) T)
    /\ Sim.stock_price_history (self_of w') = [Fin S0]
    /\ Sim.pnl_history (self_of w') = [].
Proof.
  intros H Hn. set (w := mkWorld (fresh S0 K T r sigma n_steps) g).
  assert (Hok : no_raise (self_of w) (Sim.S (self_of w)) (Sim.T (self_of w)))
    by (destruct H; [now left | right; now left]).
  exists (hedging_autosim_final w).
  rewrite (hedging_autosim_run_simulation_outcome w Hok).
  unfold hedging_autosim_final. cbn [w self_of fresh Sim.n_steps].
  rewrite to_nat_negative by assumption. repeat split; reflexivity.
Qed.




(* ================================================================== *)
(** * The price path in closed form *)
(* ================================================================== *)

Section Path.

Variable rehedge : Simulator -> float64 -> Simulator.
Hypothesis rehedge_frame : only_trades rehedge.

Lemma steps_gbm k t w s0 :
  0 <= Sim.dt (self_of w) ->
  val (Sim.S (self_of w)) = Fin s0 ->
  val (Sim.S (self_of (snd (steps rehedge k t w))))
  = Fin (gbm_spot (self_of w) (np_random w) s0 k)
  /\ Sim.stock_price_history (self_of (snd (steps rehedge k t w)))
     = Sim.stock_price_history (self_of w)
       ++ map (fun i => Fin (gbm_spot (self_of w) (np_random w) s0 i))
            (seq 1 k).
Proof.
  intros Hdt Hs. induction k as [|k [IHs IHh]].
  - cbn [steps snd seq map]. rewrite app_nil_r. split; [|reflexivity].
    rewrite Hs. unfold gbm_spot. cbn [INR shock_sum]. f_equal.
    replace (0 * drift (self_of w)
             + Sim.sigma (self_of w) * sqrt (Sim.dt (self_of w)) * 0)
      with 0 by lra.
    rewrite exp_0. lra.
  - pose proof (steps_params rehedge rehedge_frame k t w) as Hp.
    cbn zeta in Hp.
    destruct Hp as (_ & Hpdt & Hpr & Hpsig & _ & _ & _ & Hpst & Hpcu).
    cbn [steps]. destruct (steps rehedge k t w) as [t' w'].
    cbn [snd] in *.
    assert (Hnext :
              val (Sim.S (self_of (step rehedge t' w')))
              = Fin (gbm_spot (self_of w) (np_random w) s0 (S k))).
    { rewrite (step_S_fin _ rehedge_frame t' w' (gbm_spot (self_of w) (np_random w) s0 k)).
      - unfold gbm_spot, drift. rewrite Hpdt, Hpr, Hpsig, Hpst, Hpcu.
        f_equal. rewrite Rmult_assoc, <- exp_plus. f_equal. f_equal.
        rewrite S_INR. cbn [shock_sum]. lra.
      - rewrite Hpdt. assumption.
      - exact IHs. }
    split; [exact Hnext|].
    rewrite (step_stock_price_history _ rehedge_frame), Hnext, IHh.
    rewrite seq_S, map_app, app_assoc. reflexivity.
Qed.

End Path.

(** A run that returns did not raise at its first pricer call, and what
    it returns is read off the final world. *)
Lemma compare_volatility_run_inv (w : world) result (w' : world) :
  CompareVolatility.run w = (Return result, w') ->
  no_raise (self_of w) (Sim.S (self_of w)) (Sim.T (self_of w))
  /\ w' = compare_volatility_final w
  /\ result
     = (Sim.stock_price_history (self_of (compare_volatility_final w)),
        Sim.pnl_history (self_of (compare_volatility_final w)),
        Sim.initial_premium (self_of (compare_volatility_final w))).
Proof.
  intro Hrun.
  destruct (no_raise_cases (self_of w)) as [Hok|(x & HS & HK & HT)].
  - rewrite (compare_volatility_run_returns w Hok) in Hrun.
    injection Hrun as <- <-. repeat split; assumption.
  - rewrite (compare_volatility_run_raises w x HS HK HT) in Hrun. discriminate.
Qed.

Lemma hedging_autosim_run_simulation_inv (w : world) (w' : world) :
  HedgingAutosim.run_simulation w = (Return tt, w') ->
  no_raise (self_of w) (Sim.S (self_of w)) (Sim.T (self_of w))
  /\ w' = hedging_autosim_final w.
Proof.
  intro Hrun.
  destruct (no_raise_cases (self_of w)) as [Hok|(x & HS & HK & HT)].
  - rewrite (hedging_autosim_run_simulation_outcome w Hok) in Hrun.
    injection Hrun as _ <-. split; [assumption | reflexivity].
  - rewrite (hedging_autosim_run_simulation_raises w x HS HK HT) in Hrun.
    discriminate.
Qed.

Lemma gbm_spot_fresh S0 K T r sigma n_steps g k :
  gbm_spot (fresh S0 K T r sigma n_steps) g S0 k
  = S0 * exp ((r - sigma ^ 2 / 2) * INR k * (T / IZR n_steps)
              + sigma * sqrt (T / IZR n_steps) * shock_sum g k).
Proof.
  unfold gbm_spot, drift. cbn [fresh Sim.r Sim.sigma Sim.dt].
  do 2 f_equal. lra.
Qed.

Lemma gbm_spot_0 self g s0 : gbm_spot self g s0 0 = s0.
Proof.
  unfold gbm_spot. cbn [INR shock_sum].
  replace (0 * drift self + Sim.sigma self * sqrt (Sim.dt self) * 0) with 0
    by lra.
  rewrite exp_0. lra.
Qed.

(** From a world whose history holds the spot alone, [k] passes leave the
    history of the closed forms [0 .. k]. *)
Lemma steps_price_history rehedge k t w s0 :
  only_trades rehedge ->
  0 <= Sim.dt (self_of w) ->
  val (Sim.S (self_of w)) = Fin s0 ->
  Sim.stock_price_history (self_of w) = [Fin s0] ->
  Sim.stock_price_history (self_of (snd (steps rehedge k t w)))
  = map (fun i => Fin (gbm_spot (self_of w) (np_random w) s0 i)) (seq 0 (S k)).
Proof.
  intros Hf Hdt HS Hh.
  destruct (steps_gbm rehedge Hf k t w s0 Hdt HS) as [_ ->].
  rewrite Hh. cbn [seq map app]. now rewrite gbm_spot_0.
Qed.

Lemma nth_error_map_seq {A : Type} (f : nat -> A) (n k : nat) :
  (k < n)%nat -> nth_error (map f (seq 0 n)) k = Some (f k).
Proof.
  intro Hk. rewrite nth_error_map, nth_error_seq_from by assumption.
  reflexivity.
Qed.



Lemma gbm_spot_pos self g s0 k : 0 < s0 -> 0 < gbm_spot self g s0 k.
Proof.
  intro H. unfold gbm_spot. apply Rmult_lt_0_compat; [assumption | apply exp_pos].
Qed.

Lemma Forall_map_seq {A : Type} (P : A -> Prop) (f : nat -> A) (a n : nat) :
  (forall i, P (f i)) -> Forall P (map f (seq a n)).
Proof.
  intro H. apply Forall_forall. intros x Hx.
  apply in_map_iff in Hx. destruct Hx as (i & <- & _). apply H.
Qed.

Section FinitePnl.

Variable rehedge : Simulator -> float64 -> Simulator.
Hypothesis rehedge_frame : only_trades rehedge.
Hypothesis rehedge_finite : keeps_finite rehedge.

Lemma finite_book_hedge_value self :
  finite_book self -> is_finite (hedge_value self).
Proof.
  intros (s & c & i & Hs & _ & Hc & Hi).
  now rewrite (hedge_value_fin self c i s Hc Hi Hs).
Qed.

Lemma steps_pnl_finite k t w :
  valid_params (self_of w) -> finite_book (self_of w) ->
  Forall is_finite (Sim.pnl_history (self_of w)) ->
  Forall is_finite (Sim.pnl_history (self_of (snd (steps rehedge k t w)))).
Proof.
  intros Hv Hf Hp. induction k as [|k IH]; [exact Hp|].
  destruct (steps_finite_book rehedge rehedge_frame rehedge_finite k t w Hv Hf)
    as [Hv' Hf'].
  cbn [steps]. destruct (steps rehedge k t w) as [t' w']. cbn [snd] in *.
  rewrite (step_pnl_entry _ _ _ rehedge_frame).
  apply Forall_app. split; [exact IH|]. constructor; [|constructor].
  pose proof (step_valid_params rehedge rehedge_frame t' w' Hv') as (HK & Hsig & _).
  pose proof (step_finite_book rehedge rehedge_frame rehedge_finite t' w' Hv' Hf')
    as Hf''.
  pose proof (finite_book_hedge_value _ Hf'') as Hh.
  destruct Hf'' as (s & c & i & Hs & Hpos & _).
  rewrite Hs.
  destruct (price_value_finite (self_of (step rehedge t' w')) s t' Hpos HK Hsig)
    as [v ->].
  destruct (hedge_value (self_of (step rehedge t' w'))); try contradiction.
  exact I.
Qed.

End FinitePnl.



(* ================================================================== *)
(** * The market does not see the hedger *)
(* ================================================================== *)

Section Market.

Variables rehedge1 rehedge2 : Simulator -> float64 -> Simulator.
Hypothesis frame1 : only_trades rehedge1.
Hypothesis frame2 : only_trades rehedge2.

Lemma step_same_market t1 t2 w1 w2 :
  same_market w1 w2 ->
  same_market (step rehedge1 t1 w1) (step rehedge2 t2 w2).
Proof.
  intros (HS & Hr & Hsig & Hdt & Hh & Hg). unfold same_market.
  rewrite !(step_stock_price_history _ frame1),
    !(step_stock_price_history _ frame2).
  rewrite (step_S _ frame1), (step_S _ frame2), (step_r _ frame1),
    (step_r _ frame2), (step_sigma _ frame1), (step_sigma _ frame2),
    (step_dt _ frame1), (step_dt _ frame2).
  rewrite HS, Hr, Hsig, Hdt, Hh, Hg.
  repeat split; try reflexivity.
  unfold step. cbn [np_random]. now rewrite Hg.
Qed.

Lemma steps_same_market k t1 t2 w1 w2 :
  same_market w1 w2 ->
  same_market (snd (steps rehedge1 k t1 w1)) (snd (steps rehedge2 k t2 w2)).
Proof.
  intro H. induction k as [|k IH]; [exact H|].
  cbn [steps].
  destruct (steps rehedge1 k t1 w1) as [t1' w1'].
  destruct (steps rehedge2 k t2 w2) as [t2' w2'].
  cbn [snd] in *. now apply step_same_market.
Qed.

End Market.

(** X5. The hedging does not move the market.  [run] of
    [compare_volatility.py] and [run_simulation] of [hedging_autosim.py],
    started on objects that agree on spot, rate, volatility, step size,
    step count and recorded prices (strike and time to expiry may differ)
    and under the same generator state, record the same price path, end at
    the same spot and leave the generator in the same state: neither the
    strike nor the trades, thresholded or not, enter the market move. *)
Theorem price_path_independent_of_hedging (w1 w2 : world)
  (prices pnl : list float64) (premium : float64) (w1' w2' : world) :
  same_market w1 w2 ->
  Sim.n_steps (self_of w1) = Sim.n_steps (self_of w2) ->
  CompareVolatility.run w1 = (Return (prices, pnl, premium), w1') ->
  HedgingAutosim.run_simulation w2 = (Return tt, w2') ->
  prices = Sim.stock_price_history (self_of w2')
  /\ Sim.S (self_of w1') = Sim.S (self_of w2')
  /\ np_random w1' = np_random w2'.
Proof.
  intros Hm Hn Hrun1 Hrun2.
  apply compare_volatility_run_inv in Hrun1.
  destruct Hrun1 as (_ & -> & Hres). injection Hres as -> _ _.
  apply hedging_autosim_run_simulation_inv in Hrun2.
  destruct Hrun2 as (_ & ->).
  unfold compare_volatility_final, hedging_autosim_final. rewrite Hn.
  destruct (steps_same_market _ _ compare_volatility_only_trades
              hedging_autosim_only_trades
              (Z.to_nat (Sim.n_steps (self_of w2)))
              (Sim.T (self_of w1)) (Sim.T (self_of w2))
              (compare_volatility_sold w1) (hedging_autosim_sold w2))
    as (HS & _ & _ & _ & Hh & Hg).
  - destruct Hm as (HS & Hr & Hsig & Hdt & Hh & Hg).
    repeat split; assumption.
  - repeat split; assumption.
Qed.

Lemma price_path_independent_of_hedging_witness :
  exists prices pnl premium w1' w2',
    CompareVolatility.run (mkWorld example_sim zero_shocks)
    = (Return (prices, pnl, premium), w1')
    /\ HedgingAutosim.run_simulation (mkWorld example_sim zero_shocks)
       = (Return tt, w2')
    /\ prices = Sim.stock_price_history (self_of w2')
    /\ Sim.S (self_of w1') = Sim.S (self_of w2')
    /\ np_random w1' = np_random w2'.
Proof.
  destruct (compare_volatility_run_succeeds 100 100 0.25 0.05 0.2 100
              zero_shocks) as [[[prices pnl] premium] [w1' Hrun1]];
    [left; lra|].
  destruct (hedging_autosim_run_simulation_succeeds 100 100 0.25 0.05 0.2 100
              zero_shocks) as [w2' Hrun2]; [left; lra | lia |].
  exists prices, pnl, premium, w1', w2'.
  split; [exact Hrun1|]. split; [exact Hrun2|].
  apply (price_path_independent_of_hedging
           (mkWorld example_sim zero_shocks) (mkWorld example_sim zero_shocks)
           prices pnl premium w1' w2').
  - repeat split.
  - reflexivity.
  - exact Hrun1.
  - exact Hrun2.
Defined.

(* ================================================================== *)
(** * Trading gains *)
(* ================================================================== *)

Lemma compare_volatility_self_financing (self : Simulator) (c i s d : R) :
  Sim.cash self = Fin c -> Sim.stock_inventory self = Fin i ->
  val (Sim.S self) = Fin s ->
  hedge_value (CompareVolatility.rehedge self (Fin d)) = Fin (c + i * s).
Proof.
  intros Hc Hi Hs.
  rewrite (compare_volatility_rehedge_fin _ c i s d Hc Hi Hs).
  now apply hedge_value_after_trade.
Qed.

Lemma hedging_autosim_self_financing (self : Simulator) (c i s d : R) :
  Sim.cash self = Fin c -> Sim.stock_inventory self = Fin i ->
  val (Sim.S self) = Fin s ->
  hedge_value (HedgingAutosim.rehedge self (Fin d)) = Fin (c + i * s).
Proof.
  intros Hc Hi Hs.
  destruct (Rlt_dec 0.001 (Rabs (d - i))) as [Hbig|Hsmall].
  - rewrite (hedging_autosim_rehedge_trade _ c i s d Hc Hi Hs Hbig).
    now apply hedge_value_after_trade.
  - rewrite (hedging_autosim_rehedge_skip _ i d Hi) by lra.
    now apply hedge_value_fin.
Qed.

Section Gains.

Variable rehedge : Simulator -> float64 -> Simulator.
Hypothesis rehedge_frame : only_trades rehedge.
Hypothesis rehedge_finite : keeps_finite rehedge.
Hypothesis rehedge_self_financing :
  forall self c i s d,
    Sim.cash self = Fin c -> Sim.stock_inventory self = Fin i ->
    val (Sim.S self) = Fin s ->
    hedge_value (rehedge self (Fin d)) = Fin (c + i * s).

Lemma step_gain t w :
  valid_params (self_of w) -> finite_book (self_of w) ->
  hedge_value (self_of (step rehedge t w))
  = f_add (hedge_value (self_of w))
      (f_mul (Sim.stock_inventory (self_of (step rehedge t w)))
         (f_sub (val (Sim.S (self_of (step rehedge t w))))
            (val (Sim.S (self_of w))))).
Proof.
  intros (HK & Hsig & Hdt) (s & c & i & Hs & Hpos & Hc & Hi).
  destruct (delta_value_finite (self_of w) s t Hpos HK Hsig) as [d Hd].
  destruct (rehedge_finite (self_of w) c i s d Hc Hi Hs) as (c' & i' & Hc' & Hi').
  pose proof (rehedge_self_financing (self_of w) c i s d Hc Hi Hs) as Hsf.
  assert (Hs' : val (Sim.S (rehedge (self_of w) (Fin d))) = Fin s)
    by (now rewrite (rehedge_S _ rehedge_frame)).
  rewrite (hedge_value_fin _ c' i' s Hc' Hi' Hs') in Hsf.
  apply Fin_inj in Hsf.
  pose proof (step_S_fin _ rehedge_frame t w s Hdt Hs) as HS1.
  rewrite (hedge_value_fin (self_of w) c i s Hc Hi Hs).
  rewrite (hedge_value_fin (self_of (step rehedge t w)) c' i' _
             ltac:(rewrite step_cash, Hs, Hd; exact Hc')
             ltac:(rewrite step_stock_inventory, Hs, Hd; exact Hi') HS1).
  rewrite step_stock_inventory, HS1, Hs, Hd, Hi'.
  cbn [f_sub f_neg f_add f_mul]. f_equal. nra.
Qed.

End Gains.



(* ================================================================== *)
(** * The clock of the loop *)
(* ================================================================== *)

Lemma clock_bounds (T : R) (n_steps : Z) (k : nat) :
  (1 <= n_steps)%Z -> 0 < T -> (k <= Z.to_nat n_steps)%nat ->
  let t := T - INR k * (T / IZR n_steps) in
  ((k < Z.to_nat n_steps)%nat -> T / IZR n_steps <= t)
  /\ (k = Z.to_nat n_steps -> t = 0)
  /\ 0 < T / IZR n_steps.
Proof.
  intros Hn HT Hk. cbn zeta.
  assert (Hn' : 1 <= IZR n_steps) by (apply IZR_le in Hn; exact Hn).
  assert (Hd : 0 < T / IZR n_steps) by (apply Rdiv_lt_0_compat; lra).
  assert (HTd : T = IZR n_steps * (T / IZR n_steps)) by (field; lra).
  split; [|split; [|exact Hd]].
  - intro Hlt.
    assert (Hk' : INR k + 1 <= IZR n_steps).
    { rewrite INR_IZR_INZ, <- plus_IZR. apply IZR_le. lia. }
    set (d := T / IZR n_steps) in *. nra.
  - intros ->.
    rewrite INR_IZR_INZ, Z2Nat.id by lia. lra.
Qed.

Section Clock.

Variable rehedge : Simulator -> float64 -> Simulator.
Hypothesis rehedge_frame : only_trades rehedge.

Lemma for_range_clock k (self : Simulator) (g : RandomState) t w :
  Sim.K self <> 0 ->
  for_range k (loop_body rehedge) (Sim.T self) (mkWorld self g) = (Return t, w) ->
  t = Sim.T self - INR k * Sim.dt self.
Proof.
  intros HK Hloop.
  rewrite (for_range_steps _ rehedge_frame) in Hloop by (left; exact HK).
  injection Hloop as <- _. apply (steps_time _ rehedge_frame).
Qed.

End Clock.



(* ================================================================== *)
(** * The last PnL entry *)
(* ================================================================== *)

Lemma last_item_app (l : list float64) (v : float64) :
  last_item (l ++ [v]) = Return v.
Proof. unfold last_item. now rewrite rev_app_distr. Qed.

Section LastEntry.

Variable rehedge : Simulator -> float64 -> Simulator.
Hypothesis rehedge_frame : only_trades rehedge.
Hypothesis rehedge_finite : keeps_finite rehedge.

(** The last PnL entry after [m + 1] passes. *)
Lemma steps_last_pnl m t0 w0 :
  let w' := snd (steps rehedge (S m) t0 w0) in
  last_item (Sim.pnl_history (self_of w'))
  = Return
      (f_sub (hedge_value (self_of w'))
         (price_value (self_of w') (val (Sim.S (self_of w')))
            (t0 - INR m * Sim.dt (self_of w0)))).
Proof.
  cbn zeta. cbn [steps].
  pose proof (steps_time _ rehedge_frame m t0 w0) as Ht.
  destruct (steps rehedge m t0 w0) as [t w]. cbn [fst snd] in *.
  rewrite (step_pnl_entry _ _ _ rehedge_frame), last_item_app.
  now rewrite Ht.
Qed.

Lemma steps_last_pnl_valid (n_steps : Z) (w0 : world) :
  (1 <= n_steps)%Z -> valid_params (self_of w0) -> finite_book (self_of w0) ->
  0 < Sim.dt (self_of w0) ->
  IZR n_steps * Sim.dt (self_of w0) = Sim.T (self_of w0) ->
  let w' := snd (steps rehedge (Z.to_nat n_steps) (Sim.T (self_of w0)) w0) in
  exists s,
    val (Sim.S (self_of w')) = Fin s /\ 0 < s
    /\ last_item (Sim.pnl_history (self_of w'))
       = Return
           (f_sub (hedge_value (self_of w'))
              (Fin (bs_call s (Sim.K (self_of w0)) (Sim.r (self_of w0))
                      (Sim.sigma (self_of w0)) (Sim.dt (self_of w0))))).
Proof.
  intros Hn Hv Hf Hdt HT. cbn zeta.
  destruct (Z.to_nat n_steps) as [|m] eqn:Em; [lia|].
  destruct (steps_finite_book _ rehedge_frame rehedge_finite (S m)
              (Sim.T (self_of w0)) w0 Hv Hf)
    as [(HK & Hsig & _) (s & c & i & Hs & Hpos & _)].
  exists s. split; [exact Hs|]. split; [exact Hpos|].
  rewrite steps_last_pnl. rewrite Hs.
  assert (Hm : INR m = IZR n_steps - 1).
  { rewrite INR_IZR_INZ. rewrite <- minus_IZR. f_equal. lia. }
  replace (Sim.T (self_of w0) - INR m * Sim.dt (self_of w0))
    with (Sim.dt (self_of w0)) by (rewrite Hm; lra).
  destruct (steps_params _ rehedge_frame (S m) (Sim.T (self_of w0)) w0)
    as (EK & Edt & Er & Esig & _).
  rewrite price_value_fin; try assumption.
  - now rewrite EK, Er, Esig.
Qed.

End LastEntry.



(* ================================================================== *)
(** * The draws a run takes *)
(* ================================================================== *)

Lemma hedging_autosim_final_generator (w : world) :
  stream (np_random (hedging_autosim_final w)) = stream (np_random w)
  /\ cursor (np_random (hedging_autosim_final w))
     = (cursor (np_random w) + Z.to_nat (Sim.n_steps (self_of w)))%nat.
Proof.
  pose proof (steps_params _ hedging_autosim_only_trades
                (Z.to_nat (Sim.n_steps (self_of w))) (Sim.T (self_of w))
                (hedging_autosim_sold w)) as Hp.
  cbn zeta in Hp. destruct Hp as (_ & _ & _ & _ & _ & _ & _ & Hst & Hcu).
  split; assumption.
Qed.



(* ================================================================== *)
(** * Running twice, and [run_comparison] *)
(* ================================================================== *)

Section Again.

Variable rehedge : Simulator -> float64 -> Simulator.
Hypothesis rehedge_frame : only_trades rehedge.

Lemma steps_extend k t w :
  let w' := snd (steps rehedge k t w) in
  length (Sim.stock_price_history (self_of w'))
  = (length (Sim.stock_price_history (self_of w)) + k)%nat
  /\ length (Sim.pnl_history (self_of w'))
     = (length (Sim.pnl_history (self_of w)) + k)%nat
  /\ (exists l, Sim.stock_price_history (self_of w')
                = Sim.stock_price_history (self_of w) ++ l)
  /\ (exists l, Sim.pnl_history (self_of w')
                = Sim.pnl_history (self_of w) ++ l).
Proof.
  cbn zeta.
  destruct (steps_lengths _ rehedge_frame k t w) as [Hp Hq].
  destruct (steps_histories_prefix _ rehedge_frame 0 k t w) as [Hl Hm].
  repeat split; assumption.
Qed.

(** After at least one pass the spot is a numpy value. *)
Lemma steps_numpy_spot k t w :
  (1 <= k)%nat ->
  exists a, Sim.S (self_of (snd (steps rehedge k t w))) = NpNum a.
Proof.
  intro Hk. destruct k as [|k]; [lia|]. cbn [steps].
  destruct (steps rehedge k t w) as [t' w']. cbn [snd].
  eexists. apply (step_S _ rehedge_frame).
Qed.

End Again.

(** X9. A second run on the same object.  Neither method resets the
    object: when a run of a fresh object with [n_steps >= 1] has returned,
    a second call on the same object returns too, prices the option it
    sells at the spot the first run ended on, with the full [T] to run,
    and appends to the same histories, which then hold [2 n_steps + 1]
    prices and [2 n_steps] PnL entries and start with what the first run
    left; the generator has then given [2 n_steps] draws. *)
Theorem run_twice (S0 K T r sigma : R) (n_steps : Z) (g : RandomState) :
  (1 <= n_steps)%Z ->
  (forall p1 q1 premium1 w1,
      CompareVolatility.run (mkWorld (fresh S0 K T r sigma n_steps) g)
      = (Return (p1, q1, premium1), w1) ->
      exists p2 q2 premium2 w2,
        CompareVolatility.run w1 = (Return (p2, q2, premium2), w2)
        /\ length p2 = (1 + 2 * Z.to_nat n_steps)%nat
        /\ length q2 = (2 * Z.to_nat n_steps)%nat
        /\ (exists l, p2 = p1 ++ l) /\ (exists l, q2 = q1 ++ l)
        /\ black_scholes_price (self_of w1) (Sim.S (self_of w1)) T
           = Return premium2
        /\ cursor (np_random w2) = (cursor g + 2 * Z.to_nat n_steps)%nat)
  /\ (forall w1,
         HedgingAutosim.run_simulation (mkWorld (fresh S0 K T r sigma n_steps) g)
         = (Return tt, w1) ->
         exists w2,
           HedgingAutosim.run_simulation w1 = (Return tt, w2)
           /\ length (Sim.stock_price_history (self_of w2))
              = (1 + 2 * Z.to_nat n_steps)%nat
           /\ length (Sim.pnl_history (self_of w2)) = (2 * Z.to_nat n_steps)%nat
           /\ (exists l, Sim.stock_price_history (self_of w2)
                         = Sim.stock_price_history (self_of w1) ++ l)
           /\ (exists l, Sim.pnl_history (self_of w2)
                         = Sim.pnl_history (self_of w1) ++ l)
           /\ cursor (np_random w2) = (cursor g + 2 * Z.to_nat n_steps)%nat).
Proof.
  intro Hn. set (w0 := mkWorld (fresh S0 K T r sigma n_steps) g).
  split.
  - intros p1 q1 premium1 w1 Hrun.
    apply compare_volatility_run_inv in Hrun.
    destruct Hrun as (_ & Hw1 & Hres). injection Hres as -> -> _.
    fold w0 in Hw1. rewrite <- Hw1.
    destruct (steps_params _ compare_volatility_only_trades
                (Z.to_nat n_steps) T (compare_volatility_sold w0))
      as (_ & _ & _ & _ & HT1 & Hn1 & _).
    destruct (steps_extend _ compare_volatility_only_trades
                (Z.to_nat n_steps) T (compare_volatility_sold w0))
      as (Hp1 & Hq1 & _).
    destruct (steps_numpy_spot _ compare_volatility_only_trades
                (Z.to_nat n_steps) T (compare_volatility_sold w0))
      as [a Ha]; [lia|].
    change (snd (steps CompareVolatility.rehedge (Z.to_nat n_steps) T
                   (compare_volatility_sold w0)))
      with (compare_volatility_final w0) in *.
    rewrite <- Hw1 in *.
    change (Sim.T (self_of (compare_volatility_sold w0))) with T in HT1.
    change (Sim.n_steps (self_of (compare_volatility_sold w0)))
      with n_steps in Hn1.
    change (length (Sim.stock_price_history
                      (self_of (compare_volatility_sold w0))))
      with 1%nat in Hp1.
    change (length (Sim.pnl_history (self_of (compare_volatility_sold w0))))
      with 0%nat in Hq1.
    assert (Hok : no_raise (self_of w1) (Sim.S (self_of w1))
                    (Sim.T (self_of w1)))
      by (right; right; now exists a).
    destruct (steps_params _ compare_volatility_only_trades
                (Z.to_nat n_steps) T (compare_volatility_sold w1))
      as (_ & _ & _ & _ & _ & _ & Hprem & _).
    destruct (steps_extend _ compare_volatility_only_trades
                (Z.to_nat n_steps) T (compare_volatility_sold w1))
      as (Hp2 & Hq2 & Hl2 & Hm2).
    pose proof (compare_volatility_final_generator w1) as [_ Hc2].
    pose proof (compare_volatility_final_generator w0) as [_ Hc1].
    rewrite <- Hw1 in Hc1.
    do 3 eexists. exists (compare_volatility_final w1).
    split; [exact (compare_volatility_run_returns w1 Hok)|].
    unfold compare_volatility_final at 1 2 3 4 5. rewrite Hn1, HT1.
    cbn [compare_volatility_sold self_of set_cash set_initial_premium
           Sim.stock_price_history Sim.pnl_history Sim.initial_premium]
      in Hp2, Hq2, Hl2, Hm2, Hprem.
    split; [rewrite Hp2, Hp1; lia|].
    split; [rewrite Hq2, Hq1; lia|].
    split; [exact Hl2|]. split; [exact Hm2|].
    split.
    + rewrite Hprem. rewrite <- HT1.
      now apply black_scholes_price_value.
    + rewrite Hc2, Hc1, Hn1. cbn [w0 np_random self_of fresh Sim.n_steps]. lia.
  - intros w1 Hrun.
    apply hedging_autosim_run_simulation_inv in Hrun.
    destruct Hrun as (_ & Hw1). fold w0 in Hw1.
    destruct (steps_params _ hedging_autosim_only_trades
                (Z.to_nat n_steps) T (hedging_autosim_sold w0))
      as (_ & _ & _ & _ & HT1 & Hn1 & _).
    destruct (steps_extend _ hedging_autosim_only_trades
                (Z.to_nat n_steps) T (hedging_autosim_sold w0))
      as (Hp1 & Hq1 & _).
    destruct (steps_numpy_spot _ hedging_autosim_only_trades
                (Z.to_nat n_steps) T (hedging_autosim_sold w0))
      as [a Ha]; [lia|].
    change (snd (steps HedgingAutosim.rehedge (Z.to_nat n_steps) T
                   (hedging_autosim_sold w0)))
      with (hedging_autosim_final w0) in *.
    rewrite <- Hw1 in *.
    change (Sim.T (self_of (hedging_autosim_sold w0))) with T in HT1.
    change (Sim.n_steps (self_of (hedging_autosim_sold w0)))
      with n_steps in Hn1.
    change (length (Sim.stock_price_history
                      (self_of (hedging_autosim_sold w0))))
      with 1%nat in Hp1.
    change (length (Sim.pnl_history (self_of (hedging_autosim_sold w0))))
      with 0%nat in Hq1.
    assert (Hok : no_raise (self_of w1) (Sim.S (self_of w1))
                    (Sim.T (self_of w1)))
      by (right; right; now exists a).
    destruct (steps_extend _ hedging_autosim_only_trades
                (Z.to_nat n_steps) T (hedging_autosim_sold w1))
      as (Hp2 & Hq2 & Hl2 & Hm2).
    pose proof (hedging_autosim_final_generator w1) as [_ Hc2].
    pose proof (hedging_autosim_final_generator w0) as [_ Hc1].
    rewrite <- Hw1 in Hc1.
    cbn [hedging_autosim_sold self_of set_cash
           Sim.stock_price_history Sim.pnl_history]
      in Hp2, Hq2, Hl2, Hm2.
    assert (Hfin : hedging_autosim_final w1
                   = snd (steps HedgingAutosim.rehedge (Z.to_nat n_steps) T
                            (hedging_autosim_sold w1)))
      by (unfold hedging_autosim_final; now rewrite Hn1, HT1).
    exists (hedging_autosim_final w1).
    split.
    + rewrite (hedging_autosim_run_simulation_outcome w1 Hok).
      destruct (last_item_nonempty
                  (Sim.pnl_history (self_of (hedging_autosim_final w1))))
        as [v ->]; [|reflexivity].
      rewrite Hfin. intro E. rewrite E in Hq2. cbn [length] in Hq2. lia.
    + rewrite Hc2, Hc1, Hn1, Hfin.
      split; [rewrite Hp2, Hp1; lia|].
      split; [rewrite Hq2, Hq1; lia|].
      split; [exact Hl2|]. split; [exact Hm2|].
      cbn [w0 np_random self_of fresh Sim.n_steps]. lia.
Qed.

Lemma run_twice_witness :
  (1 <= 100)%Z
  /\ exists p1 q1 premium1 w1 p2 q2 premium2 w2,
      CompareVolatility.run (mkWorld example_sim zero_shocks)
      = (Return (p1, q1, premium1), w1)
      /\ CompareVolatility.run w1 = (Return (p2, q2, premium2), w2)
      /\ length p2 = (1 + 2 * Z.to_nat 100)%nat
      /\ length q2 = (2 * Z.to_nat 100)%nat
      /\ (exists l, p2 = p1 ++ l) /\ (exists l, q2 = q1 ++ l)
      /\ black_scholes_price (self_of w1) (Sim.S (self_of w1)) 0.25
         = Return premium2
      /\ cursor (np_random w2) = (cursor zero_shocks + 2 * Z.to_nat 100)%nat.
Proof.
  assert (Hn : (1 <= 100)%Z) by lia.
  split; [exact Hn|].
  destruct (compare_volatility_run_succeeds 100 100 0.25 0.05 0.2 100
              zero_shocks) as [[[p1 q1] premium1] [w1 Hrun]]; [left; lra|].
  destruct (proj1 (run_twice 100 100 0.25 0.05 0.2 100 zero_shocks Hn)
              p1 q1 premium1 w1 Hrun)
    as (p2 & q2 & premium2 & w2 & H).
  exists p1, q1, premium1, w1, p2, q2, premium2, w2.
  split; [exact Hrun | exact H].
Defined.

Lemma shock_sum_ext (g1 g2 : RandomState) (k : nat) :
  stream g1 = stream g2 -> cursor g1 = cursor g2 ->
  shock_sum g1 k = shock_sum g2 k.
Proof.
  intros Hs Hc. induction k as [|k IH]; [reflexivity|].
  cbn [shock_sum]. now rewrite IH, Hs, Hc.
Qed.

(** What [run] returns on a fresh object with valid inputs and time to
    expiry. *)
Lemma compare_volatility_run_valid (S0 K T r sigma : R) (n_steps : Z)
  (g : RandomState) :
  valid_inputs S0 K T r sigma n_steps -> 0 < T ->
  exists prices pnl w',
    CompareVolatility.run (mkWorld (fresh S0 K T r sigma n_steps) g)
    = (Return (prices, pnl, Fin (bs_call S0 K r sigma T)), w')
    /\ length prices = (1 + Z.to_nat n_steps)%nat
    /\ length pnl = Z.to_nat n_steps
    /\ stream (np_random w') = stream g
    /\ cursor (np_random w') = (cursor g + Z.to_nat n_steps)%nat
    /\ forall k, (k <= Z.to_nat n_steps)%nat ->
         nth_error prices k
         = Some (Fin (S0 * exp ((r - sigma ^ 2 / 2) * INR k * (T / IZR n_steps)
                                + sigma * sqrt (T / IZR n_steps)
                                  * shock_sum g k))).
Proof.
  intros Hin HT. pose proof Hin as (HS & HK & Hsig & HT0 & Hn).
  destruct (compare_volatility_run_fresh S0 K T r sigma n_steps g)
    as (prices & pnl & w' & Hrun & Hw' & Hlp & Hlq); [left; lra|].
  rewrite (price_value_fin (fresh S0 K T r sigma n_steps) S0 T HS HK Hsig HT)
    in Hrun.
  exists prices, pnl, w'. split; [exact Hrun|].
  split; [exact Hlp|]. split; [exact Hlq|].
  destruct (compare_volatility_final_generator
              (mkWorld (fresh S0 K T r sigma n_steps) g)) as [Hst Hcu].
  rewrite <- Hw' in Hst, Hcu.
  split; [exact Hst|]. split; [exact Hcu|].
  intros k Hk.
  pose proof (fresh_dt_nonneg S0 K T r sigma n_steps Hn HT0) as Hdt.
  apply compare_volatility_run_inv in Hrun.
  destruct Hrun as (_ & _ & Hres). injection Hres as -> _.
  unfold compare_volatility_final.
  rewrite (steps_price_history _ _ _
             (compare_volatility_sold
                (mkWorld (fresh S0 K T r sigma n_steps) g))
             S0 compare_volatility_only_trades Hdt eq_refl eq_refl).
  rewrite nth_error_map_seq by (cbn [self_of fresh Sim.n_steps]; lia).
  f_equal. f_equal. apply gbm_spot_fresh.
Qed.


(* ================================================================== *)
(** * A negative time to expiry *)
(* ================================================================== *)

Section NegativeStep.

Variable rehedge : Simulator -> float64 -> Simulator.
Hypothesis rehedge_frame : only_trades rehedge.

(** With a negative step size [np.sqrt(self.dt)] is [nan], and so is the
    spot after the market move, whatever it was. *)
Lemma step_S_nan t w :
  Sim.dt (self_of w) < 0 ->
  val (Sim.S (self_of (step rehedge t w))) = NaN.
Proof.
  intro Hdt. rewrite (step_S _ rehedge_frame). cbn [val].
  rewrite np_sqrt_neg by assumption. cbn [f_mul f_add np_exp].
  destruct (val (Sim.S (self_of w))); reflexivity.
Qed.

Lemma step_pnl_nan t w :
  Sim.dt (self_of w) < 0 ->
  Sim.pnl_history (self_of (step rehedge t w))
  = Sim.pnl_history (self_of w) ++ [NaN].
Proof.
  intro Hdt. rewrite (step_pnl_entry _ _ _ rehedge_frame).
  unfold hedge_value. rewrite (step_S_nan t w Hdt).
  destruct (Sim.stock_inventory (self_of (step rehedge t w)));
    destruct (Sim.cash (self_of (step rehedge t w))); reflexivity.
Qed.

Lemma steps_nan k t w :
  Sim.dt (self_of w) < 0 ->
  Sim.stock_price_history (self_of (snd (steps rehedge k t w)))
  = Sim.stock_price_history (self_of w) ++ repeat NaN k
  /\ Sim.pnl_history (self_of (snd (steps rehedge k t w)))
     = Sim.pnl_history (self_of w) ++ repeat NaN k.
Proof.
  intro Hdt. induction k as [|k [IHp IHq]].
  - cbn. now rewrite !app_nil_r.
  - pose proof (steps_dt _ rehedge_frame k t w) as Hdt'.
    cbn [steps]. destruct (steps rehedge k t w) as [t' w']. cbn [snd] in *.
    rewrite <- Hdt' in Hdt.
    rewrite (step_stock_price_history _ rehedge_frame),
      (step_S_nan _ _ Hdt), (step_pnl_nan _ _ Hdt), IHp, IHq.
    rewrite <- !app_assoc. cbn [repeat]. rewrite !repeat_cons.
    split; reflexivity.
Qed.

End NegativeStep.



(* ================================================================== *)
(** * The pricer on and off its domain *)
(* ================================================================== *)



Lemma bs_d1_increasing (s1 s2 K r sigma t : R) :
  0 < K -> 0 < sigma -> 0 < t -> 0 < s1 < s2 ->
  bs_d1 s1 K r sigma t < bs_d1 s2 K r sigma t.
Proof.
  intros HK Hsig Ht [H1 H12]. unfold bs_d1.
  assert (Hden : 0 < sigma * sqrt t)
    by (apply Rmult_lt_0_compat; [assumption | now apply sqrt_lt_R0]).
  assert (Hln : ln (s1 / K) < ln (s2 / K)).
  { apply ln_increasing; [apply Rdiv_lt_0_compat; lra|].
    unfold Rdiv. apply Rmult_lt_compat_r; [apply Rinv_0_lt_compat; lra | lra]. }
  unfold Rdiv at 1 3. apply Rmult_lt_compat_r; [now apply Rinv_0_lt_compat | lra].
Qed.

Lemma bs_d1_decreasing_in_strike (s K1 K2 r sigma t : R) :
  0 < s -> 0 < sigma -> 0 < t -> 0 < K1 < K2 ->
  bs_d1 s K2 r sigma t < bs_d1 s K1 r sigma t.
Proof.
  intros Hs Hsig Ht [H1 H12]. unfold bs_d1.
  assert (Hden : 0 < sigma * sqrt t)
    by (apply Rmult_lt_0_compat; [assumption | now apply sqrt_lt_R0]).
  assert (Hln : ln (s / K2) < ln (s / K1)).
  { apply ln_increasing; [apply Rdiv_lt_0_compat; lra|].
    unfold Rdiv. apply Rmult_lt_compat_l; [lra|].
    apply Rinv_lt_contravar; [apply Rmult_lt_0_compat; lra | lra]. }
  unfold Rdiv at 1 3. apply Rmult_lt_compat_r; [now apply Rinv_0_lt_compat | lra].
Qed.



(** With a volatility of [0] the denominator of [d1] is [0], and [d1] is
    an infinity with the sign of [ln(S/K) + r t], or [nan]. *)

Lemma d1_value_zero_volatility (self : Simulator) (s t : R) :
  Sim.sigma self = 0 -> 0 < s -> 0 < Sim.K self -> 0 < t ->
  d1_value self (Fin s) t
  = let x := ln (s / Sim.K self) + Sim.r self * t in
    if Reqb x 0 then NaN else inf (Rltb 0 x).
Proof.
  intros Hsig Hs HK Ht. cbn zeta. unfold d1_value.
  rewrite f_div_fin by lra.
  rewrite np_log_fin by (apply Rdiv_lt_0_compat; lra).
  rewrite np_sqrt_fin by lra. rewrite Hsig.
  cbn [f_add f_mul f_div].
  rewrite Reqb_true by lra.
  replace (ln (s / Sim.K self) + (Sim.r self + 0.5 * 0 ^ 2) * t)
    with (ln (s / Sim.K self) + Sim.r self * t) by lra.
  reflexivity.
Qed.











(* ================================================================== *)
(** * The normal distribution function *)
(* ================================================================== *)

(** The distribution function is a primitive of the density. *)
Lemma std_cdf_primitive (a b y : R) (h : a <= b)
  (C0 : forall x, a <= x <= b -> continuity_pt std_pdf x) :
  a <= y <= b ->
  primitive h (FTC_P1 h C0) y = std_cdf y - std_cdf a.
Proof.
  intros [Hay Hyb]. unfold primitive.
  destruct (Rle_dec a y) as [r|n]; [|contradiction].
  destruct (Rle_dec y b) as [r0|n]; [|contradiction].
  rewrite std_cdf_diff. apply RiemannInt_P5.
Qed.

Lemma std_cdf_derivable (x : R) : derivable_pt_lim std_cdf x (std_pdf x).
Proof.
  assert (h : x - 1 <= x + 1) by lra.
  pose (C0 := fun (y : R) (_ : x - 1 <= y <= x + 1) => std_pdf_continuous y).
  assert (Hx : x - 1 <= x <= x + 1) by lra.
  pose proof (@RiemannInt_P28 std_pdf (x - 1) (x + 1) x h C0 Hx) as Hp.
  intros eps Heps. destruct (Hp eps Heps) as [delta Hdelta].
  assert (Hmin : 0 < Rmin delta 1)
    by (apply Rmin_pos; [apply cond_pos | lra]).
  exists (mkposreal _ Hmin). intros h0 Hh0 Hlt. cbn [pos] in Hlt.
  assert (Hd : Rabs h0 < delta)
    by (eapply Rlt_le_trans; [exact Hlt | apply Rmin_l]).
  assert (H1 : Rabs h0 < 1)
    by (eapply Rlt_le_trans; [exact Hlt | apply Rmin_r]).
  specialize (Hdelta h0 Hh0 Hd).
  apply Rabs_def2 in H1.
  rewrite !std_cdf_primitive in Hdelta by lra.
  replace (std_cdf (x + h0) - std_cdf x)
    with (std_cdf (x + h0) - std_cdf (x - 1) - (std_cdf x - std_cdf (x - 1)))
    by lra.
  exact Hdelta.
Qed.

(** A function whose derivative is bounded by [M] is [M]-Lipschitz. *)
Lemma bounded_derivative_lipschitz (f f' : R -> R) (M : R) :
  (forall y, derivable_pt_lim f y (f' y)) ->
  (forall y, Rabs (f' y) <= M) ->
  forall u v, Rabs (f u - f v) <= M * Rabs (u - v).
Proof.
  intros Hd Hb u v.
  assert (Hlt : forall a b, a < b -> Rabs (f b - f a) <= M * Rabs (b - a)).
  { intros a b Hab.
    destruct (MVT_cor2 f f' a b Hab (fun c _ => Hd c)) as [c [Hc _]].
    rewrite Hc, Rabs_mult. apply Rmult_le_compat_r; [apply Rabs_pos | apply Hb]. }
  destruct (Rtotal_order u v) as [H|[H|H]].
  - rewrite (Rabs_minus_sym (f u)), (Rabs_minus_sym u). now apply Hlt.
  - subst v. rewrite !Rminus_diag, Rabs_R0. lra.
  - now apply Hlt.
Qed.

(** Taylor's bound at order two. *)
Lemma taylor_bound (f f' f'' : R -> R) (M : R) :
  (forall y, derivable_pt_lim f y (f' y)) ->
  (forall y, derivable_pt_lim f' y (f'' y)) ->
  (forall y, Rabs (f'' y) <= M) ->
  forall x h, Rabs (f (x + h) - f x - h * f' x) <= M * (h * h).
Proof.
  intros Hf Hf' Hb x h.
  pose proof (bounded_derivative_lipschitz f' f'' M Hf' Hb) as Hlip.
  assert (HM : 0 <= M) by (eapply Rle_trans; [apply Rabs_pos | apply (Hb 0)]).
  set (phi := fun y => f y - f' x * y).
  assert (Hphi : forall y, derivable_pt_lim phi y (f' y - f' x)).
  { intros y eps Heps. destruct (Hf y eps Heps) as [delta Hdelta].
    exists delta. intros k Hk Hkd. specialize (Hdelta k Hk Hkd).
    unfold phi.
    replace ((f (y + k) - f' x * (y + k) - (f y - f' x * y)) / k - (f' y - f' x))
      with ((f (y + k) - f y) / k - f' y) by (field; assumption).
    exact Hdelta. }
  assert (Hlt : forall a b, a < b -> a <= x <= b ->
                  Rabs (phi b - phi a) <= M * (b - a) * (b - a)).
  { intros a b Hab Hx.
    destruct (MVT_cor2 phi (fun y => f' y - f' x) a b Hab (fun c _ => Hphi c))
      as [c [Hc Hcab]].
    rewrite Hc, Rabs_mult, (Rabs_right (b - a)) by lra.
    apply Rmult_le_compat_r; [lra|].
    eapply Rle_trans; [apply Hlip|].
    apply Rmult_le_compat_l; [assumption|].
    apply Rabs_le. lra. }
  destruct (Rtotal_order h 0) as [H|[H|H]].
  - specialize (Hlt (x + h) x ltac:(lra) ltac:(lra)).
    rewrite Rabs_minus_sym in Hlt. unfold phi in Hlt.
    replace (f (x + h) - f x - h * f' x)
      with (f (x + h) - f' x * (x + h) - (f x - f' x * x)) by ring.
    eapply Rle_trans; [exact Hlt|]. right. ring.
  - subst h. rewrite Rplus_0_r.
    replace (f x - f x - 0 * f' x) with 0 by ring. rewrite Rabs_R0. lra.
  - specialize (Hlt x (x + h) ltac:(lra) ltac:(lra)). unfold phi in Hlt.
    replace (f (x + h) - f x - h * f' x)
      with (f (x + h) - f' x * (x + h) - (f x - f' x * x)) by ring.
    eapply Rle_trans; [exact Hlt|]. right. ring.
Qed.

(** Derivatives of [exp (a y^2)] and of [y exp (a y^2)]. *)
Lemma derivable_pt_lim_exp_sq (a y : R) :
  derivable_pt_lim (fun y => exp (a * (y * y))) y (2 * a * y * exp (a * (y * y))).
Proof.
  assert (H1 : derivable_pt_lim (fun y => a * (y * y)) y (2 * a * y)).
  { replace (2 * a * y) with (a * (1 * id y + id y * 1)) by (unfold id; ring).
    apply (derivable_pt_lim_scal (id * id)%F a y).
    apply derivable_pt_lim_mult; apply derivable_pt_lim_id. }
  replace (2 * a * y * exp (a * (y * y)))
    with (exp (a * (y * y)) * (2 * a * y)) by ring.
  apply (derivable_pt_lim_comp (fun y => a * (y * y)) exp y _ _ H1).
  apply derivable_pt_lim_exp.
Qed.

Lemma derivable_pt_lim_id_exp_sq (a y : R) :
  derivable_pt_lim (fun y => y * exp (a * (y * y))) y
    ((1 + 2 * a * (y * y)) * exp (a * (y * y))).
Proof.
  replace ((1 + 2 * a * (y * y)) * exp (a * (y * y)))
    with (1 * exp (a * (y * y)) + id y * (2 * a * y * exp (a * (y * y))))
    by (unfold id; ring).
  apply (derivable_pt_lim_mult id (fun y => exp (a * (y * y))) y).
  - apply derivable_pt_lim_id.
  - apply derivable_pt_lim_exp_sq.
Qed.

Lemma exp_quadratic_bound (u : R) : 0 <= u -> Rabs (u - 1) * exp (- u / 2) <= 1.
Proof.
  intro Hu.
  assert (He : exp (- u / 2) * exp (u / 2) = 1).
  { rewrite <- exp_plus. replace (- u / 2 + u / 2) with 0 by lra. apply exp_0. }
  assert (Hp : 0 < exp (- u / 2)) by apply exp_pos.
  assert (Hq : (1 + u / 4) * (1 + u / 4) <= exp (u / 2)).
  { replace (u / 2) with (u / 4 + u / 4) by lra. rewrite exp_plus.
    assert (H4 : 1 + u / 4 <= exp (u / 4)).
    { destruct (Req_dec u 0) as [->|Hne].
      - replace (0 / 4) with 0 by lra. rewrite exp_0. lra.
      - left. apply exp_ineq1. lra. }
    apply Rmult_le_compat; lra. }
  assert (Hr : Rabs (u - 1) <= exp (u / 2)).
  { apply Rabs_le. nra. }
  apply Rle_trans with (exp (u / 2) * exp (- u / 2)); [|lra].
  apply Rmult_le_compat_r; lra.
Qed.

Lemma gauss_kernel_taylor (x h t : R) :
  Rabs (gauss_kernel (x + h) t - gauss_kernel x t - h * gauss_kernel_dx x t)
  <= h * h.
Proof.
  set (c := 1 + t * t). assert (Hc : 1 <= c) by (unfold c; nra).
  set (a := - c / 2).
  pose proof (taylor_bound (fun y => gauss_kernel y t)
                (fun y => gauss_kernel_dx y t)
                (fun y => - ((1 + 2 * a * (y * y)) * exp (a * (y * y)))) 1) as HT.
  rewrite <- (Rmult_1_l (h * h)). apply HT; clear HT.
  - intro y. unfold gauss_kernel, gauss_kernel_dx. fold c. fold a.
    apply (derivable_pt_lim_ext (mult_real_fct (/ c) (fun y => exp (a * (y * y))))).
    + intro z. unfold mult_real_fct. unfold Rdiv. ring.
    + replace (- y * exp (a * (y * y)))
        with (/ c * (2 * a * y * exp (a * (y * y))))
        by (unfold a; field; lra).
      apply derivable_pt_lim_scal. apply derivable_pt_lim_exp_sq.
  - intro y. unfold gauss_kernel_dx. fold c. fold a.
    apply (derivable_pt_lim_ext
             (mult_real_fct (-1) (fun y => y * exp (a * (y * y))))).
    + intro z. unfold mult_real_fct. ring.
    + replace (- ((1 + 2 * a * (y * y)) * exp (a * (y * y))))
        with (-1 * ((1 + 2 * a * (y * y)) * exp (a * (y * y)))) by ring.
      apply derivable_pt_lim_scal. apply derivable_pt_lim_id_exp_sq.
  - intro y. rewrite Rabs_Ropp, Rabs_mult.
    rewrite (Rabs_right (exp _)) by (left; apply exp_pos).
    replace (1 + 2 * a * (y * y)) with (- (c * (y * y) - 1))
      by (unfold a; field).
    rewrite Rabs_Ropp.
    replace (a * (y * y)) with (- (c * (y * y)) / 2) by (unfold a; field).
    apply exp_quadratic_bound. nra.
Qed.


Lemma RiemannInt_abs_le (f : R -> R) (a b c : R)
  (pr : Riemann_integrable f a b) :
  a <= b -> (forall t, a < t < b -> Rabs (f t) <= c) ->
  Rabs (RiemannInt pr) <= c * (b - a).
Proof.
  intros Hab Hf.
  pose proof (RiemannInt_P19 pr (RiemannInt_P14 a b c) Hab) as Hup.
  pose proof (RiemannInt_P19 (RiemannInt_P14 a b (- c)) pr Hab) as Hlo.
  rewrite RiemannInt_P15 in Hup, Hlo.
  apply Rabs_le. split.
  - replace (- (c * (b - a))) with (- c * (b - a)) by ring.
    apply Hlo. intros t Ht. unfold fct_cte.
    specialize (Hf t Ht). unfold Rabs in Hf. destruct (Rcase_abs (f t)); lra.
  - apply Hup. intros t Ht. unfold fct_cte.
    specialize (Hf t Ht). unfold Rabs in Hf. destruct (Rcase_abs (f t)); lra.
Qed.

(** Differentiation under the integral sign. *)
Lemma gauss_B_derivable (x : R) : derivable_pt_lim gauss_B x (gauss_D x).
Proof.
  intros eps Heps. exists (mkposreal eps Heps). intros h Hh Hlt.
  cbn [pos] in Hlt.
  pose (pr1 := RiemannInt_P10 (-1) (gauss_kernel_integrable (x + h))
                 (gauss_kernel_integrable x)).
  pose (pr2 := RiemannInt_P10 (- h) pr1 (gauss_kernel_dx_integrable x)).
  assert (Hint : RiemannInt pr2 = gauss_B (x + h) - gauss_B x - h * gauss_D x).
  { rewrite (RiemannInt_P13 pr1 (gauss_kernel_dx_integrable x) pr2).
    rewrite (RiemannInt_P13 (gauss_kernel_integrable (x + h))
               (gauss_kernel_integrable x) pr1).
    unfold gauss_B, gauss_D. ring. }
  assert (Hb : Rabs (gauss_B (x + h) - gauss_B x - h * gauss_D x)
               <= (h * h) * (1 - 0)).
  { rewrite <- Hint. apply RiemannInt_abs_le; [lra|]. intros t _.
    replace (gauss_kernel (x + h) t + -1 * gauss_kernel x t
             + - h * gauss_kernel_dx x t)
      with (gauss_kernel (x + h) t - gauss_kernel x t - h * gauss_kernel_dx x t)
      by ring.
    apply gauss_kernel_taylor. }
  replace ((gauss_B (x + h) - gauss_B x) / h - gauss_D x)
    with ((gauss_B (x + h) - gauss_B x - h * gauss_D x) / h) by (field; assumption).
  unfold Rdiv. rewrite Rabs_mult, Rabs_inv.
  assert (Hpos : 0 < Rabs h) by (apply Rabs_pos_lt; assumption).
  apply Rle_lt_trans with (Rabs h); [|assumption].
  apply Rmult_le_reg_r with (Rabs h); [assumption|].
  rewrite Rmult_assoc, Rinv_l by lra. rewrite Rmult_1_r.
  eapply Rle_trans; [exact Hb|].
  rewrite <- Rabs_mult. rewrite Rabs_right by nra. lra.
Qed.

Lemma std_cdf_scaled_derivable (x t : R) :
  derivable_pt_lim (fun t => std_cdf (x * t)) t (x * std_pdf (x * t)).
Proof.
  replace (x * std_pdf (x * t)) with (std_pdf (x * t) * (x * 1)) by ring.
  apply (derivable_pt_lim_comp (mult_real_fct x id) std_cdf t).
  - apply derivable_pt_lim_scal. apply derivable_pt_lim_id.
  - apply std_cdf_derivable.
Qed.

(** [int_0^1 x phi(x t) dt = Phi(x) - Phi(0)] *)
Lemma std_pdf_scaled_integral (x : R)
  (pr : Riemann_integrable (fun t => x * std_pdf (x * t)) 0 1) :
  RiemannInt pr = std_cdf x - 1 / 2.
Proof.
  pose (d := fun t =>
               exist (fun l => derivable_pt_abs (fun t => std_cdf (x * t)) t l)
                 (x * std_pdf (x * t)) (std_cdf_scaled_derivable x t)).
  assert (Hc : continuity (derive (fun t => std_cdf (x * t)) d)).
  { intro t. change (continuity_pt (fun t => x * std_pdf (x * t)) t).
    unfold std_pdf. reg. }
  pose proof (@FTC_Riemann (mkC1 Hc) 0 1 (RiemannInt_P32 (mkC1 Hc) 0 1)) as H.
  cbn [c1] in H. rewrite Rmult_1_r, Rmult_0_r, std_cdf_0 in H.
  rewrite <- H. apply RiemannInt_P5.
Qed.

Lemma gauss_kernel_dx_pdf (x t : R) :
  gauss_kernel_dx x t
  = - (exp (- (x * x) / 2) * sqrt (2 * PI)) * (x * std_pdf (x * t)).
Proof.
  unfold gauss_kernel_dx, std_pdf.
  pose proof sqrt_2PI_pos as Hs.
  replace (- (1 + t * t) / 2 * (x * x))
    with (- (x * x) / 2 + - (x * t * (x * t)) / 2) by field.
  rewrite exp_plus. field. lra.
Qed.

Lemma gauss_D_value (x : R) :
  gauss_D x = - (exp (- (x * x) / 2) * sqrt (2 * PI)) * (std_cdf x - 1 / 2).
Proof.
  unfold gauss_D.
  assert (pr : Riemann_integrable (fun t => x * std_pdf (x * t)) 0 1).
  { apply continuity_implies_RiemannInt; [lra|].
    intros t _. unfold std_pdf. reg. }
  pose (pr' := RiemannInt_P10 (- (exp (- (x * x) / 2) * sqrt (2 * PI)))
                 (RiemannInt_P14 0 1 0) pr).
  rewrite (RiemannInt_P18 (gauss_kernel_dx_integrable x) pr').
  - rewrite (RiemannInt_P13 (RiemannInt_P14 0 1 0) pr pr').
    rewrite RiemannInt_P15, std_pdf_scaled_integral. ring.
  - lra.
  - intros t _. rewrite gauss_kernel_dx_pdf. unfold fct_cte. ring.
Qed.

Lemma gauss_F_derivable (x : R) : derivable_pt_lim gauss_F x 0.
Proof.
  pose proof sqrt_2PI_pos as Hs. pose proof PI_RGT_0 as Hpi.
  assert (Hsq : sqrt (2 * PI) * sqrt (2 * PI) = 2 * PI)
    by (apply sqrt_sqrt; lra).
  assert (HJ : derivable_pt_lim (fun y => std_cdf y - 1 / 2) x (std_pdf x)).
  { replace (std_pdf x) with (std_pdf x - 0) by ring.
    apply (derivable_pt_lim_minus std_cdf (fct_cte (1 / 2)) x).
    - apply std_cdf_derivable.
    - apply derivable_pt_lim_const. }
  replace 0
    with ((std_pdf x * (std_cdf x - 1 / 2) + (std_cdf x - 1 / 2) * std_pdf x)
          + / PI * gauss_D x).
  - apply (derivable_pt_lim_plus
             (mult_fct (fun y => std_cdf y - 1 / 2)
                (fun y => std_cdf y - 1 / 2))
             (mult_real_fct (/ PI) gauss_B) x).
    + exact (derivable_pt_lim_mult (fun y => std_cdf y - 1 / 2)
               (fun y => std_cdf y - 1 / 2) x (std_pdf x) (std_pdf x) HJ HJ).
    + apply derivable_pt_lim_scal. apply gauss_B_derivable.
  - rewrite gauss_D_value. unfold std_pdf.
    set (e := exp (- (x * x) / 2)). set (J := std_cdf x - 1 / 2).
    set (s := sqrt (2 * PI)) in *.
    assert (Hinv : / PI = 2 / (s * s)) by (rewrite Hsq; field; lra).
    rewrite Hinv. field. lra.
Qed.

Lemma gauss_F_constant (x : R) : gauss_F x = gauss_F 0.
Proof.
  pose (pr := fun y => exist (fun l => derivable_pt_abs gauss_F y l) 0
                         (gauss_F_derivable y) : derivable_pt gauss_F y).
  apply (null_derivative_1 gauss_F pr).
  intro y. reflexivity.
Qed.

Lemma gauss_B_0 : gauss_B 0 = PI / 4.
Proof.
  pose (d := fun t =>
               exist (fun l => derivable_pt_abs atan t l) (/ (1 + t ^ 2))
                 (derivable_pt_lim_atan t)).
  assert (Hc : continuity (derive atan d)).
  { intro t. change (continuity_pt (fun t => / (1 + t ^ 2)) t). reg. nra. }
  pose proof (@FTC_Riemann (mkC1 Hc) 0 1 (RiemannInt_P32 (mkC1 Hc) 0 1)) as H.
  cbn [c1] in H. rewrite atan_1, atan_0, Rminus_0_r in H.
  rewrite <- H. unfold gauss_B. apply RiemannInt_P18; [lra|].
  intros t _. unfold gauss_kernel.
  replace (- (1 + t * t) / 2 * (0 * 0)) with 0 by ring.
  rewrite exp_0. transitivity (/ (1 + t ^ 2)); [field; nra | reflexivity].
Qed.

Lemma gauss_B_pos (x : R) : 0 < gauss_B x.
Proof.
  set (m := exp (- (x * x)) / 2).
  assert (Hm : 0 < m) by (unfold m; pose proof (exp_pos (- (x * x))); lra).
  pose proof (RiemannInt_P19 (RiemannInt_P14 0 1 m) (gauss_kernel_integrable x)
                ltac:(lra)) as H.
  rewrite RiemannInt_P15 in H. fold (gauss_B x) in H.
  apply Rlt_le_trans with (m * (1 - 0)); [lra|]. apply H.
  intros t Ht. unfold fct_cte, m, gauss_kernel.
  assert (Hc : 1 <= 1 + t * t <= 2) by nra.
  assert (He : exp (- (x * x)) <= exp (- (1 + t * t) / 2 * (x * x))).
  { destruct (Req_dec (- (x * x)) (- (1 + t * t) / 2 * (x * x))) as [->|Hne];
      [lra|].
    left. apply exp_increasing. nra. }
  pose proof (exp_pos (- (x * x))) as Hp.
  unfold Rdiv. apply Rmult_le_compat; try lra.
  apply Rinv_le_contravar; lra.
Qed.

(** The distribution function takes its values strictly between [0] and
    [1]. *)
Lemma std_cdf_bounds (x : R) : 0 < std_cdf x < 1.
Proof.
  pose proof (gauss_F_constant x) as HF. unfold gauss_F in HF.
  rewrite gauss_B_0, std_cdf_0 in HF.
  pose proof (gauss_B_pos x) as HB. pose proof PI_RGT_0 as Hpi.
  assert (H1 : / PI * (PI / 4) = 1 / 4) by (field; lra).
  assert (H2 : 0 < / PI * gauss_B x)
    by (apply Rmult_lt_0_compat; [apply Rinv_0_lt_compat; lra | assumption]).
  rewrite H1 in HF. nra.
Qed.

(* ================================================================== *)
(** * The price and its derivatives *)
(* ================================================================== *)

Lemma bs_d1_derivable_in_spot (s K r sigma t : R) :
  0 < s -> 0 < K -> sigma <> 0 -> 0 < t ->
  derivable_pt_lim (fun s => bs_d1 s K r sigma t) s (/ (s * (sigma * sqrt t))).
Proof.
  intros Hs HK Hsig Ht.
  assert (Hsqrt : 0 < sqrt t) by (now apply sqrt_lt_R0).
  assert (Hv : sigma * sqrt t <> 0) by (apply Rmult_integral_contrapositive_currified; lra).
  assert (Hln : derivable_pt_lim (fun s => ln (s / K)) s (/ s)).
  { replace (/ s) with (/ (s / K) * (/ K * 1)) by (field; lra).
    apply (derivable_pt_lim_ext (comp ln (mult_real_fct (/ K) id))).
    - intro z. unfold comp, mult_real_fct, id. f_equal. field. lra.
    - apply (derivable_pt_lim_comp (mult_real_fct (/ K) id) ln s).
      + apply derivable_pt_lim_scal, derivable_pt_lim_id.
      + unfold mult_real_fct, id.
        replace (/ K * s) with (s / K) by (field; lra).
        apply derivable_pt_lim_ln. apply Rdiv_lt_0_compat; lra. }
  unfold bs_d1.
  apply (derivable_pt_lim_ext
           (mult_real_fct (/ (sigma * sqrt t))
              (fun s => ln (s / K) + (r + 0.5 * sigma ^ 2) * t))).
  - intro z. unfold mult_real_fct. field. lra.
  - replace (/ (s * (sigma * sqrt t)))
      with (/ (sigma * sqrt t) * (/ s + 0)) by (field; lra).
    apply derivable_pt_lim_scal.
    apply (derivable_pt_lim_plus (fun s => ln (s / K))
             (fct_cte ((r + 0.5 * sigma ^ 2) * t)) s (/ s) 0 Hln).
    apply derivable_pt_lim_const.
Qed.

(** [S phi(d1) = K exp(-r t) phi(d2)] *)
Lemma bs_pdf_identity (s K r sigma t : R) :
  0 < s -> 0 < K -> sigma <> 0 -> 0 < t ->
  s * std_pdf (bs_d1 s K r sigma t)
  = K * exp (- r * t) * std_pdf (bs_d2 s K r sigma t).
Proof.
  intros Hs HK Hsig Ht.
  assert (Hsqrt : 0 < sqrt t) by (now apply sqrt_lt_R0).
  assert (Hsq : sqrt t * sqrt t = t) by (apply sqrt_sqrt; lra).
  assert (Hv : sigma * sqrt t <> 0) by (apply Rmult_integral_contrapositive_currified; lra).
  pose proof sqrt_2PI_pos as H2pi.
  unfold std_pdf, bs_d2.
  set (d1 := bs_d1 s K r sigma t). set (v := sigma * sqrt t) in *.
  assert (Hvd : v * d1 = ln (s / K) + (r + 0.5 * sigma ^ 2) * t).
  { unfold d1, bs_d1. fold v. field. exact Hv. }
  assert (Hvv : v * v = sigma ^ 2 * t) by (unfold v; nra).
  assert (Hexp : exp (- ((d1 - v) * (d1 - v)) / 2)
                 = exp (- (d1 * d1) / 2) * (s / K * exp (r * t))).
  { rewrite <- (exp_ln (s / K)) at 1 by (apply Rdiv_lt_0_compat; lra).
    rewrite <- !exp_plus. f_equal. nra. }
  rewrite Hexp.
  assert (He : exp (- r * t) * exp (r * t) = 1).
  { rewrite <- exp_plus. replace (- r * t + r * t) with 0 by ring. apply exp_0. }
  unfold Rdiv.
  transitivity (s * (exp (- (d1 * d1) * / 2) * / sqrt (2 * PI))
                * (exp (- r * t) * exp (r * t))); [rewrite He; ring|].
  field. lra.
Qed.

(** The call price is derivable in the spot, with derivative [Phi(d1)]. *)
Lemma bs_call_derivable_in_spot (s K r sigma t : R) :
  0 < s -> 0 < K -> sigma <> 0 -> 0 < t ->
  derivable_pt_lim (fun s => bs_call s K r sigma t) s
    (std_cdf (bs_d1 s K r sigma t)).
Proof.
  intros Hs HK Hsig Ht.
  pose proof (bs_d1_derivable_in_spot s K r sigma t Hs HK Hsig Ht) as Hd1.
  set (d' := / (s * (sigma * sqrt t))) in *.
  assert (Hd2 : derivable_pt_lim (fun s => bs_d2 s K r sigma t) s d').
  { unfold bs_d2. replace d' with (d' - 0) by ring.
    apply (derivable_pt_lim_minus (fun s => bs_d1 s K r sigma t)
             (fct_cte (sigma * sqrt t)) s d' 0 Hd1).
    apply derivable_pt_lim_const. }
  assert (HP1 : derivable_pt_lim (fun s => std_cdf (bs_d1 s K r sigma t)) s
                  (std_pdf (bs_d1 s K r sigma t) * d')).
  { apply (derivable_pt_lim_comp (fun s => bs_d1 s K r sigma t) std_cdf s _ _ Hd1).
    apply std_cdf_derivable. }
  assert (HP2 : derivable_pt_lim (fun s => std_cdf (bs_d2 s K r sigma t)) s
                  (std_pdf (bs_d2 s K r sigma t) * d')).
  { apply (derivable_pt_lim_comp (fun s => bs_d2 s K r sigma t) std_cdf s _ _ Hd2).
    apply std_cdf_derivable. }
  unfold bs_call.
  pose proof (bs_pdf_identity s K r sigma t Hs HK Hsig Ht) as Hid.
  replace (std_cdf (bs_d1 s K r sigma t))
    with ((1 * std_cdf (bs_d1 s K r sigma t)
           + id s * (std_pdf (bs_d1 s K r sigma t) * d'))
          - (K * exp (- r * t)) * (std_pdf (bs_d2 s K r sigma t) * d')).
  - apply (derivable_pt_lim_minus
             (mult_fct id (fun s => std_cdf (bs_d1 s K r sigma t)))
             (mult_real_fct (K * exp (- r * t))
                (fun s => std_cdf (bs_d2 s K r sigma t))) s).
    + apply (derivable_pt_lim_mult id
               (fun s => std_cdf (bs_d1 s K r sigma t)) s 1 _
               (derivable_pt_lim_id s) HP1).
    + apply derivable_pt_lim_scal. exact HP2.
  - unfold id.
    transitivity (std_cdf (bs_d1 s K r sigma t)
                  + d' * (s * std_pdf (bs_d1 s K r sigma t)
                          - K * exp (- r * t) * std_pdf (bs_d2 s K r sigma t)));
      [ring|].
    rewrite Hid. ring.
Qed.

(** The delta is derivable in the spot, with derivative
    [phi(d1) / (S sigma sqrt T)]. *)
Lemma bs_delta_derivable_in_spot (s K r sigma t : R) :
  0 < s -> 0 < K -> sigma <> 0 -> 0 < t ->
  derivable_pt_lim (fun s => std_cdf (bs_d1 s K r sigma t)) s
    (std_pdf (bs_d1 s K r sigma t) / (s * sigma * sqrt t)).
Proof.
  intros Hs HK Hsig Ht.
  pose proof (bs_d1_derivable_in_spot s K r sigma t Hs HK Hsig Ht) as Hd1.
  replace (std_pdf (bs_d1 s K r sigma t) / (s * sigma * sqrt t))
    with (std_pdf (bs_d1 s K r sigma t) * / (s * (sigma * sqrt t))).
  - apply (derivable_pt_lim_comp (fun s => bs_d1 s K r sigma t) std_cdf s _ _ Hd1).
    apply std_cdf_derivable.
  - unfold Rdiv. now rewrite Rmult_assoc.
Qed.


(** The call price is derivable in the time to expiry, with derivative
    [S phi(d1) sigma / (2 sqrt T) + r K exp(-r T) Phi(d2)]. *)
Lemma bs_call_derivable_in_time (s K r sigma T : R) :
  0 < s -> 0 < K -> sigma <> 0 -> 0 < T ->
  derivable_pt_lim (fun T => bs_call s K r sigma T) T
    (s * std_pdf (bs_d1 s K r sigma T) * sigma / (2 * sqrt T)
     + r * K * exp (- r * T) * std_cdf (bs_d2 s K r sigma T)).
Proof.
  intros Hs HK Hsig HT.
  assert (Hsqrt : 0 < sqrt T) by (now apply sqrt_lt_R0).
  assert (Hv : sigma * sqrt T <> 0)
    by (apply Rmult_integral_contrapositive_currified; lra).
  set (b := (r + 0.5 * sigma ^ 2)).
  set (v' := sigma * / (2 * sqrt T)).
  assert (Hnum : derivable_pt_lim (fun T => ln (s / K) + b * T) T (0 + b * 1)).
  { apply (derivable_pt_lim_plus (fct_cte (ln (s / K))) (mult_real_fct b id) T).
    - apply derivable_pt_lim_const.
    - apply derivable_pt_lim_scal, derivable_pt_lim_id. }
  replace (0 + b * 1) with b in Hnum by ring.
  assert (Hden : derivable_pt_lim (fun T => sigma * sqrt T) T v').
  { apply (derivable_pt_lim_scal sqrt sigma T).
    now apply derivable_pt_lim_sqrt. }
  pose proof (derivable_pt_lim_div _ _ T _ _ Hnum Hden Hv) as Hd1.
  cbv beta in Hd1.
  set (D1 := (b * (sigma * sqrt T) - v' * (ln (s / K) + b * T))
             / Rsqr (sigma * sqrt T)) in Hd1.
  change (derivable_pt_lim (fun T => bs_d1 s K r sigma T) T D1) in Hd1.
  assert (Hd2 : derivable_pt_lim (fun T => bs_d2 s K r sigma T) T (D1 - v')).
  { unfold bs_d2.
    exact (derivable_pt_lim_minus (fun T => bs_d1 s K r sigma T)
             (fun T => sigma * sqrt T) T D1 v' Hd1 Hden). }
  assert (HP1 : derivable_pt_lim (fun T => std_cdf (bs_d1 s K r sigma T)) T
                  (std_pdf (bs_d1 s K r sigma T) * D1)).
  { apply (derivable_pt_lim_comp (fun T => bs_d1 s K r sigma T) std_cdf T _ _ Hd1).
    apply std_cdf_derivable. }
  assert (HP2 : derivable_pt_lim (fun T => std_cdf (bs_d2 s K r sigma T)) T
                  (std_pdf (bs_d2 s K r sigma T) * (D1 - v'))).
  { apply (derivable_pt_lim_comp (fun T => bs_d2 s K r sigma T) std_cdf T _ _ Hd2).
    apply std_cdf_derivable. }
  assert (Hdisc : derivable_pt_lim (fun T => K * exp (- r * T)) T
                    (K * (exp (- r * T) * (- r * 1)))).
  { apply (derivable_pt_lim_scal (fun T => exp (- r * T)) K T).
    apply (derivable_pt_lim_comp (mult_real_fct (- r) id) exp T).
    - apply derivable_pt_lim_scal, derivable_pt_lim_id.
    - apply derivable_pt_lim_exp. }
  pose proof (bs_pdf_identity s K r sigma T Hs HK Hsig HT) as Hid.
  unfold bs_call.
  set (phi1 := std_pdf (bs_d1 s K r sigma T)) in *.
  set (phi2 := std_pdf (bs_d2 s K r sigma T)) in *.
  set (Phi2 := std_cdf (bs_d2 s K r sigma T)) in *.
  set (e := exp (- r * T)) in *.
  replace (s * phi1 * sigma / (2 * sqrt T) + r * K * e * Phi2)
    with (s * (phi1 * D1)
          - (K * (e * (- r * 1)) * Phi2 + K * e * (phi2 * (D1 - v')))).
  - apply (derivable_pt_lim_minus
             (mult_real_fct s (fun T => std_cdf (bs_d1 s K r sigma T)))
             (mult_fct (fun T => K * exp (- r * T))
                (fun T => std_cdf (bs_d2 s K r sigma T))) T).
    + apply derivable_pt_lim_scal. exact HP1.
    + exact (derivable_pt_lim_mult (fun T => K * exp (- r * T))
               (fun T => std_cdf (bs_d2 s K r sigma T)) T _ _ Hdisc HP2).
  - transitivity (D1 * (s * phi1 - K * e * phi2) + r * K * e * Phi2
                  + K * e * phi2 * v'); [ring|].
    rewrite <- Hid. unfold v'. field. lra.
Qed.


Lemma std_cdf_monotone (a b : R) : a <= b -> std_cdf a <= std_cdf b.
Proof.
  intros [H| ->]; [left; now apply std_cdf_increasing | right; reflexivity].
Qed.

(** [Phi(x) (1 - Phi(x)) = B(x) / pi] *)
Lemma std_cdf_product (x : R) :
  std_cdf x * (1 - std_cdf x) = / PI * gauss_B x.
Proof.
  pose proof (gauss_F_constant x) as HF. unfold gauss_F in HF.
  rewrite gauss_B_0, std_cdf_0 in HF.
  pose proof PI_RGT_0 as Hpi.
  assert (H1 : / PI * (PI / 4) = 1 / 4) by (field; lra).
  rewrite H1 in HF. lra.
Qed.

Lemma gauss_kernel_le (x t : R) :
  gauss_kernel x t <= exp (- (x * x) / 2) * gauss_kernel 0 t.
Proof.
  unfold gauss_kernel.
  replace (- (1 + t * t) / 2 * (0 * 0)) with 0 by ring. rewrite exp_0.
  assert (Hc : 0 < 1 + t * t) by nra.
  assert (He : exp (- (1 + t * t) / 2 * (x * x)) <= exp (- (x * x) / 2)).
  { destruct (Req_dec (- (1 + t * t) / 2 * (x * x)) (- (x * x) / 2)) as [->|Hne];
      [lra|].
    left. apply exp_increasing. nra. }
  unfold Rdiv. rewrite Rmult_1_l.
  apply Rmult_le_compat_r; [left; now apply Rinv_0_lt_compat | exact He].
Qed.

Lemma gauss_B_le (x : R) : gauss_B x <= exp (- (x * x) / 2) * (PI / 4).
Proof.
  rewrite <- gauss_B_0. unfold gauss_B.
  pose (pr := RiemannInt_P10 (exp (- (x * x) / 2)) (RiemannInt_P14 0 1 0)
                (gauss_kernel_integrable 0)).
  assert (H : RiemannInt pr
              = exp (- (x * x) / 2) * RiemannInt (gauss_kernel_integrable 0)).
  { rewrite (RiemannInt_P13 (RiemannInt_P14 0 1 0)
               (gauss_kernel_integrable 0) pr).
    rewrite RiemannInt_P15. ring. }
  rewrite <- H. apply RiemannInt_P19; [lra|].
  intros t _. unfold fct_cte. rewrite Rplus_0_l. apply gauss_kernel_le.
Qed.

(** The lower tail: [Phi(-y) <= exp(-y^2/2) / 2 <= 1 / (2 + y^2)]. *)
Lemma std_cdf_tail (y : R) : 0 <= y -> std_cdf (- y) <= / (2 + y * y).
Proof.
  intro Hy.
  pose proof (std_cdf_product (- y)) as Hp.
  pose proof (gauss_B_le (- y)) as HB.
  pose proof (std_cdf_bounds (- y)) as [H0 H1].
  pose proof (std_cdf_monotone (- y) 0 ltac:(lra)) as Hm.
  rewrite std_cdf_0 in Hm.
  pose proof PI_RGT_0 as Hpi.
  replace (- y * - y) with (y * y) in HB by ring.
  set (e := exp (- (y * y) / 2)) in *.
  assert (He : 0 < e) by apply exp_pos.
  assert (Hle : std_cdf (- y) <= e / 2).
  { assert (Hq : / PI * gauss_B (- y) <= e / 4).
    { apply Rle_trans with (/ PI * (e * (PI / 4))).
      - apply Rmult_le_compat_l; [left; now apply Rinv_0_lt_compat | exact HB].
      - right. field. lra. }
    nra. }
  assert (Hexp : e * (1 + y * y / 2) <= 1).
  { assert (Hu : 1 + y * y / 2 <= exp (y * y / 2)).
    { destruct (Req_dec (y * y / 2) 0) as [E|E].
      - rewrite E, exp_0. lra.
      - left. apply exp_ineq1. nra. }
    assert (Hee : e * exp (y * y / 2) = 1).
    { unfold e. rewrite <- exp_plus.
      replace (- (y * y) / 2 + y * y / 2) with 0 by lra. apply exp_0. }
    nra. }
  assert (Hpos : 0 < 2 + y * y) by nra.
  apply Rmult_le_reg_r with (2 + y * y); [exact Hpos|].
  rewrite Rinv_l by lra. nra.
Qed.

(** The call price grows with the spot. *)
Lemma bs_call_increasing (s1 s2 K r sigma t : R) :
  0 < K -> sigma <> 0 -> 0 < t -> 0 < s1 < s2 ->
  bs_call s1 K r sigma t < bs_call s2 K r sigma t.
Proof.
  intros HK Hsig Ht [H1 H12].
  destruct (MVT_cor2 (fun s => bs_call s K r sigma t)
              (fun s => std_cdf (bs_d1 s K r sigma t)) s1 s2 H12)
    as [c [Hc Hcr]].
  - intros c Hc. apply bs_call_derivable_in_spot; lra.
  - pose proof (std_cdf_bounds (bs_d1 c K r sigma t)) as [Hpos _].
    cbv beta in Hc. nra.
Qed.

(** Close to a spot of [0] the discounted strike times [Phi(d2)] is as
    small as wanted. *)
Lemma bs_call_small_spot (K r sigma t eps x0 : R) :
  0 < K -> 0 < sigma -> 0 < t -> 0 < eps -> 0 < x0 ->
  exists s, 0 < s < x0 /\ - eps < bs_call s K r sigma t.
Proof.
  intros HK Hsig Ht Heps Hx0.
  assert (Hsqrt : 0 < sqrt t) by (now apply sqrt_lt_R0).
  set (v := sigma * sqrt t). assert (Hv : 0 < v) by (unfold v; nra).
  set (K' := K * exp (- r * t)).
  assert (HK' : 0 < K') by (unfold K'; pose proof (exp_pos (- r * t)); nra).
  set (y := K' / eps).
  assert (Hy : 0 <= y) by (unfold y; left; apply Rdiv_lt_0_compat; lra).
  set (b := (r + 0.5 * sigma ^ 2) * t).
  set (s := Rmin (x0 / 2) (K * exp (- y * v - b))).
  assert (Hs : 0 < s).
  { unfold s. apply Rmin_pos; [lra|].
    pose proof (exp_pos (- y * v - b)). nra. }
  exists s. split.
  - split; [exact Hs|]. unfold s.
    eapply Rle_lt_trans; [apply Rmin_l | lra].
  - assert (Hln : ln (s / K) <= - y * v - b).
    { rewrite <- (ln_exp (- y * v - b)).
      assert (Hsk : s / K <= exp (- y * v - b)).
      { apply Rmult_le_reg_r with K; [exact HK|].
        unfold Rdiv. rewrite Rmult_assoc, Rinv_l, Rmult_1_r by lra.
        rewrite Rmult_comm. apply Rmin_r. }
      destruct Hsk as [Hlt|Heq].
      - left. apply ln_increasing; [apply Rdiv_lt_0_compat; lra | exact Hlt].
      - right. now rewrite Heq. }
    assert (Hd1 : bs_d1 s K r sigma t <= - y).
    { unfold bs_d1. fold b. fold v.
      apply Rmult_le_reg_r with v; [exact Hv|].
      unfold Rdiv. rewrite Rmult_assoc, Rinv_l, Rmult_1_r by lra. lra. }
    assert (Hd2 : bs_d2 s K r sigma t <= - y).
    { unfold bs_d2. fold v. lra. }
    pose proof (std_cdf_monotone _ _ Hd2) as Hm.
    pose proof (std_cdf_tail y Hy) as Htail.
    pose proof (std_cdf_bounds (bs_d1 s K r sigma t)) as [Hp1 _].
    pose proof (std_cdf_bounds (bs_d2 s K r sigma t)) as [Hp2 _].
    assert (Hsmall : K' * / (2 + y * y) < eps).
    { assert (Hpos : 0 < 2 + y * y) by nra.
      apply Rmult_lt_reg_r with (2 + y * y); [exact Hpos|].
      rewrite Rmult_assoc, Rinv_l, Rmult_1_r by lra.
      assert (Hye : y * eps = K') by (unfold y; field; lra).
      nra. }
    unfold bs_call. fold K'.
    assert (Hb : K' * std_cdf (bs_d2 s K r sigma t) <= K' * / (2 + y * y)).
    { apply Rmult_le_compat_l; lra. }
    assert (0 < s * std_cdf (bs_d1 s K r sigma t))
      by (apply Rmult_lt_0_compat; assumption).
    lra.
Qed.

(** The call price is positive. *)
Lemma bs_call_pos (s K r sigma t : R) :
  0 < s -> 0 < K -> 0 < sigma -> 0 < t -> 0 < bs_call s K r sigma t.
Proof.
  intros Hs HK Hsig Ht.
  destruct (Rlt_dec 0 (bs_call s K r sigma t)) as [H|H]; [exact H|].
  exfalso.
  assert (Hhalf : bs_call (s / 2) K r sigma t < bs_call s K r sigma t)
    by (apply bs_call_increasing; lra).
  destruct (bs_call_small_spot K r sigma t (- bs_call (s / 2) K r sigma t)
              (s / 2) HK Hsig Ht ltac:(lra) ltac:(lra))
    as (s' & [Hs' Hlt] & Hgt).
  assert (Hinc : bs_call s' K r sigma t < bs_call (s / 2) K r sigma t)
    by (apply bs_call_increasing; lra).
  lra.
Qed.

(** The call price lies below the spot. *)
Lemma bs_call_lt_spot (s K r sigma t : R) :
  0 < s -> 0 < K -> bs_call s K r sigma t < s.
Proof.
  intros Hs HK. unfold bs_call.
  pose proof (std_cdf_bounds (bs_d1 s K r sigma t)) as [_ H1].
  pose proof (std_cdf_bounds (bs_d2 s K r sigma t)) as [H2 _].
  pose proof (exp_pos (- r * t)) as He.
  assert (0 < K * exp (- r * t) * std_cdf (bs_d2 s K r sigma t))
    by (repeat apply Rmult_lt_0_compat; assumption).
  nra.
Qed.


(* ================================================================== *)
(** * The price against volatility and strike *)
(* ================================================================== *)

(** The call price is derivable in the volatility, with derivative
    [S phi(d1) sqrt T]. *)
Lemma bs_call_derivable_in_volatility (s K r sigma T : R) :
  0 < s -> 0 < K -> sigma <> 0 -> 0 < T ->
  derivable_pt_lim (fun sigma => bs_call s K r sigma T) sigma
    (s * std_pdf (bs_d1 s K r sigma T) * sqrt T).
Proof.
  intros Hs HK Hsig HT.
  assert (Hsqrt : 0 < sqrt T) by (now apply sqrt_lt_R0).
  assert (Hv : sigma * sqrt T <> 0)
    by (apply Rmult_integral_contrapositive_currified; lra).
  assert (Hnum : derivable_pt_lim
                   (fun sigma => ln (s / K) + (r + 0.5 * sigma ^ 2) * T) sigma
                   (sigma * T)).
  { apply (derivable_pt_lim_ext
             (plus_fct (fct_cte (ln (s / K) + r * T))
                (mult_real_fct (0.5 * T) (mult_fct id id)))).
    - intro z. unfold plus_fct, fct_cte, mult_real_fct, mult_fct, id. ring.
    - replace (sigma * T) with (0 + 0.5 * T * (1 * id sigma + id sigma * 1))
        by (unfold id; lra).
      apply derivable_pt_lim_plus; [apply derivable_pt_lim_const|].
      apply derivable_pt_lim_scal.
      apply derivable_pt_lim_mult; apply derivable_pt_lim_id. }
  assert (Hden : derivable_pt_lim (fun sigma => sigma * sqrt T) sigma (sqrt T)).
  { apply (derivable_pt_lim_ext (mult_real_fct (sqrt T) id)).
    - intro z. unfold mult_real_fct, id. ring.
    - replace (sqrt T) with (sqrt T * 1) at 2 by ring.
      apply derivable_pt_lim_scal, derivable_pt_lim_id. }
  pose proof (derivable_pt_lim_div _ _ sigma _ _ Hnum Hden Hv) as Hd1.
  cbv beta in Hd1.
  set (D1 := (sigma * T * (sigma * sqrt T)
              - sqrt T * (ln (s / K) + (r + 0.5 * sigma ^ 2) * T))
             / Rsqr (sigma * sqrt T)) in Hd1.
  change (derivable_pt_lim (fun sigma => bs_d1 s K r sigma T) sigma D1) in Hd1.
  assert (Hd2 : derivable_pt_lim (fun sigma => bs_d2 s K r sigma T) sigma
                  (D1 - sqrt T)).
  { unfold bs_d2.
    exact (derivable_pt_lim_minus (fun sigma => bs_d1 s K r sigma T)
             (fun sigma => sigma * sqrt T) sigma D1 (sqrt T) Hd1 Hden). }
  assert (HP1 : derivable_pt_lim (fun sigma => std_cdf (bs_d1 s K r sigma T))
                  sigma (std_pdf (bs_d1 s K r sigma T) * D1)).
  { apply (derivable_pt_lim_comp (fun sigma => bs_d1 s K r sigma T) std_cdf
             sigma _ _ Hd1).
    apply std_cdf_derivable. }
  assert (HP2 : derivable_pt_lim (fun sigma => std_cdf (bs_d2 s K r sigma T))
                  sigma (std_pdf (bs_d2 s K r sigma T) * (D1 - sqrt T))).
  { apply (derivable_pt_lim_comp (fun sigma => bs_d2 s K r sigma T) std_cdf
             sigma _ _ Hd2).
    apply std_cdf_derivable. }
  pose proof (bs_pdf_identity s K r sigma T Hs HK Hsig HT) as Hid.
  unfold bs_call.
  set (phi1 := std_pdf (bs_d1 s K r sigma T)) in *.
  set (phi2 := std_pdf (bs_d2 s K r sigma T)) in *.
  set (e := exp (- r * T)) in *.
  replace (s * phi1 * sqrt T)
    with (s * (phi1 * D1) - K * e * (phi2 * (D1 - sqrt T))).
  - apply (derivable_pt_lim_minus
             (mult_real_fct s (fun sigma => std_cdf (bs_d1 s K r sigma T)))
             (mult_real_fct (K * e)
                (fun sigma => std_cdf (bs_d2 s K r sigma T))) sigma).
    + apply derivable_pt_lim_scal. exact HP1.
    + apply derivable_pt_lim_scal. exact HP2.
  - transitivity (D1 * (s * phi1 - K * e * phi2) + K * e * phi2 * sqrt T);
      [ring|].
    rewrite <- Hid. ring.
Qed.

(** The call price is derivable in the strike, with derivative
    [- exp(-r T) Phi(d2)]. *)
Lemma bs_call_derivable_in_strike (s K r sigma T : R) :
  0 < s -> 0 < K -> sigma <> 0 -> 0 < T ->
  derivable_pt_lim (fun K => bs_call s K r sigma T) K
    (- (exp (- r * T) * std_cdf (bs_d2 s K r sigma T))).
Proof.
  intros Hs HK Hsig HT.
  assert (Hsqrt : 0 < sqrt T) by (now apply sqrt_lt_R0).
  assert (Hv : sigma * sqrt T <> 0)
    by (apply Rmult_integral_contrapositive_currified; lra).
  assert (Hln : derivable_pt_lim (fun K => ln (s / K)) K (- / K)).
  { apply (derivable_pt_lim_ext
             (comp ln (div_fct (fct_cte s) id))).
    - intro z. reflexivity.
    - replace (- / K) with (/ (s / K) * ((0 * id K - 1 * fct_cte s K) / Rsqr (id K)))
        by (unfold id, fct_cte, Rsqr; field; lra).
      apply (derivable_pt_lim_comp (div_fct (fct_cte s) id) ln K).
      + apply derivable_pt_lim_div;
          [apply derivable_pt_lim_const | apply derivable_pt_lim_id |
           unfold id; lra].
      + unfold div_fct, fct_cte, id. apply derivable_pt_lim_ln.
        apply Rdiv_lt_0_compat; lra. }
  set (d' := - / (K * (sigma * sqrt T))).
  assert (Hd1 : derivable_pt_lim (fun K => bs_d1 s K r sigma T) K d').
  { unfold bs_d1.
    apply (derivable_pt_lim_ext
             (mult_real_fct (/ (sigma * sqrt T))
                (fun K => ln (s / K) + (r + 0.5 * sigma ^ 2) * T))).
    - intro z. unfold mult_real_fct. field. lra.
    - replace d' with (/ (sigma * sqrt T) * (- / K + 0))
        by (unfold d'; field; lra).
      apply derivable_pt_lim_scal.
      apply (derivable_pt_lim_plus (fun K => ln (s / K))
               (fct_cte ((r + 0.5 * sigma ^ 2) * T)) K (- / K) 0 Hln).
      apply derivable_pt_lim_const. }
  assert (Hd2 : derivable_pt_lim (fun K => bs_d2 s K r sigma T) K d').
  { unfold bs_d2. replace d' with (d' - 0) by ring.
    apply (derivable_pt_lim_minus (fun K => bs_d1 s K r sigma T)
             (fct_cte (sigma * sqrt T)) K d' 0 Hd1).
    apply derivable_pt_lim_const. }
  assert (HP1 : derivable_pt_lim (fun K => std_cdf (bs_d1 s K r sigma T)) K
                  (std_pdf (bs_d1 s K r sigma T) * d')).
  { apply (derivable_pt_lim_comp (fun K => bs_d1 s K r sigma T) std_cdf K _ _ Hd1).
    apply std_cdf_derivable. }
  assert (HP2 : derivable_pt_lim (fun K => std_cdf (bs_d2 s K r sigma T)) K
                  (std_pdf (bs_d2 s K r sigma T) * d')).
  { apply (derivable_pt_lim_comp (fun K => bs_d2 s K r sigma T) std_cdf K _ _ Hd2).
    apply std_cdf_derivable. }
  assert (Hdisc : derivable_pt_lim (fun K => K * exp (- r * T)) K
                    (exp (- r * T) * 1)).
  { apply (derivable_pt_lim_ext (mult_real_fct (exp (- r * T)) id)).
    - intro z. unfold mult_real_fct, id. ring.
    - apply derivable_pt_lim_scal, derivable_pt_lim_id. }
  pose proof (bs_pdf_identity s K r sigma T Hs HK Hsig HT) as Hid.
  unfold bs_call.
  set (phi1 := std_pdf (bs_d1 s K r sigma T)) in *.
  set (phi2 := std_pdf (bs_d2 s K r sigma T)) in *.
  set (Phi2 := std_cdf (bs_d2 s K r sigma T)) in *.
  set (e := exp (- r * T)) in *.
  replace (- (e * Phi2))
    with (s * (phi1 * d') - (e * 1 * Phi2 + K * e * (phi2 * d'))).
  - apply (derivable_pt_lim_minus
             (mult_real_fct s (fun K => std_cdf (bs_d1 s K r sigma T)))
             (mult_fct (fun K => K * exp (- r * T))
                (fun K => std_cdf (bs_d2 s K r sigma T))) K).
    + apply derivable_pt_lim_scal. exact HP1.
    + exact (derivable_pt_lim_mult (fun K => K * exp (- r * T))
               (fun K => std_cdf (bs_d2 s K r sigma T)) K _ _ Hdisc HP2).
  - transitivity (d' * (s * phi1 - K * e * phi2) - e * Phi2); [ring|].
    rewrite <- Hid. ring.
Qed.

Lemma bs_call_increasing_in_volatility (s K r sigma1 sigma2 T : R) :
  0 < s -> 0 < K -> 0 < T -> 0 < sigma1 < sigma2 ->
  bs_call s K r sigma1 T < bs_call s K r sigma2 T.
Proof.
  intros Hs HK HT [H1 H12].
  assert (Hsqrt : 0 < sqrt T) by (now apply sqrt_lt_R0).
  destruct (MVT_cor2 (fun sigma => bs_call s K r sigma T)
              (fun sigma => s * std_pdf (bs_d1 s K r sigma T) * sqrt T)
              sigma1 sigma2 H12)
    as [c [Hc Hcr]].
  - intros c Hc. apply bs_call_derivable_in_volatility; lra.
  - pose proof (std_pdf_pos (bs_d1 s K r c T)) as Hpos.
    cbv beta in Hc.
    assert (0 < s * std_pdf (bs_d1 s K r c T) * sqrt T).
    { apply Rmult_lt_0_compat; [|exact Hsqrt].
      apply Rmult_lt_0_compat; [exact Hs | exact Hpos]. }
    nra.
Qed.

Lemma bs_call_decreasing_in_strike (s K1 K2 r sigma T : R) :
  0 < s -> sigma <> 0 -> 0 < T -> 0 < K1 < K2 ->
  bs_call s K2 r sigma T < bs_call s K1 r sigma T.
Proof.
  intros Hs Hsig HT [H1 H12].
  destruct (MVT_cor2 (fun K => bs_call s K r sigma T)
              (fun K => - (exp (- r * T) * std_cdf (bs_d2 s K r sigma T)))
              K1 K2 H12)
    as [c [Hc Hcr]].
  - intros c Hc. apply bs_call_derivable_in_strike; lra.
  - pose proof (std_cdf_bounds (bs_d2 s c r sigma T)) as [Hpos _].
    pose proof (exp_pos (- r * T)) as He.
    cbv beta in Hc.
    assert (0 < exp (- r * T) * std_cdf (bs_d2 s c r sigma T))
      by (apply Rmult_lt_0_compat; [exact He | exact Hpos]).
    nra.
Qed.

Lemma bs_call_increasing_in_time (s K r sigma T1 T2 : R) :
  0 < s -> 0 < K -> 0 < sigma -> 0 <= r -> 0 < T1 < T2 ->
  bs_call s K r sigma T1 < bs_call s K r sigma T2.
Proof.
  intros Hs HK Hsig Hr [H1 H12].
  destruct (MVT_cor2 (fun T => bs_call s K r sigma T)
              (fun T => s * std_pdf (bs_d1 s K r sigma T) * sigma / (2 * sqrt T)
                        + r * K * exp (- r * T) * std_cdf (bs_d2 s K r sigma T))
              T1 T2 H12)
    as [c [Hc Hcr]].
  - intros c Hc. apply bs_call_derivable_in_time; lra.
  - pose proof (std_pdf_pos (bs_d1 s K r sigma c)) as Hphi.
    pose proof (std_cdf_bounds (bs_d2 s K r sigma c)) as [HPhi _].
    pose proof (exp_pos (- r * c)) as He.
    assert (Hsqrt : 0 < sqrt c) by (apply sqrt_lt_R0; lra).
    cbv beta in Hc.
    assert (Ha : 0 < s * std_pdf (bs_d1 s K r sigma c) * sigma / (2 * sqrt c)).
    { apply Rdiv_lt_0_compat; [|lra].
      apply Rmult_lt_0_compat; [|exact Hsig].
      apply Rmult_lt_0_compat; [exact Hs | exact Hphi]. }
    assert (Hb : 0 <= r * K * exp (- r * c) * std_cdf (bs_d2 s K r sigma c)).
    { apply Rmult_le_pos; [|lra]. apply Rmult_le_pos; [|lra].
      apply Rmult_le_pos; lra. }
    nra.
Qed.

(* ================================================================== *)
(** * The price against the forward *)
(* ================================================================== *)

(** The upper tail: [1 - Phi(y) <= exp(-y^2/2) / 2]. *)
Lemma std_cdf_upper_tail (y : R) :
  0 <= y -> 1 - std_cdf y <= exp (- (y * y) / 2) / 2.
Proof.
  intro Hy.
  pose proof (std_cdf_product y) as Hp.
  pose proof (gauss_B_le y) as HB.
  pose proof (std_cdf_bounds y) as [H0 H1].
  pose proof (std_cdf_monotone 0 y Hy) as Hm. rewrite std_cdf_0 in Hm.
  pose proof PI_RGT_0 as Hpi.
  set (e := exp (- (y * y) / 2)) in *.
  assert (He : 0 < e) by apply exp_pos.
  assert (Hq : / PI * gauss_B y <= e / 4).
  { apply Rle_trans with (/ PI * (e * (PI / 4))).
    - apply Rmult_le_compat_l; [left; now apply Rinv_0_lt_compat | exact HB].
    - right. field. lra. }
  nra.
Qed.

(** Far enough in the money, the price is as close as wanted to
    [S - K exp(-r t)], from above. *)
Lemma bs_call_large_spot (K r sigma t eps x0 : R) :
  0 < K -> 0 < sigma -> 0 < t -> 0 < eps ->
  exists s, 0 < s /\ x0 < s
            /\ - eps < bs_call s K r sigma t - (s - K * exp (- r * t)).
Proof.
  intros HK Hsig Ht Heps.
  assert (Hsqrt : 0 < sqrt t) by (now apply sqrt_lt_R0).
  set (v := sigma * sqrt t). assert (Hv : 0 < v) by (unfold v; nra).
  set (b := (r + 0.5 * sigma ^ 2) * t).
  set (c := K * exp (- b)).
  assert (Hc : 0 < c) by (unfold c; pose proof (exp_pos (- b)); nra).
  set (x1 := Rmax x0 1). assert (Hx1 : 0 < x1 /\ x0 <= x1).
  { unfold x1. pose proof (Rmax_l x0 1). pose proof (Rmax_r x0 1). lra. }
  set (y3 := ln (x1 / c) / v).
  set (y := Rmax (2 * (v + 1)) (Rmax (c / (2 * eps)) y3) + 1).
  assert (Hy1 : 2 * (v + 1) < y)
    by (unfold y; pose proof (Rmax_l (2 * (v + 1))
                                (Rmax (c / (2 * eps)) y3)); lra).
  assert (Hy23 : Rmax (c / (2 * eps)) y3 < y)
    by (unfold y; pose proof (Rmax_r (2 * (v + 1))
                                (Rmax (c / (2 * eps)) y3)); lra).
  assert (Hy2 : c / (2 * eps) < y)
    by (pose proof (Rmax_l (c / (2 * eps)) y3); lra).
  assert (Hy3 : y3 < y) by (pose proof (Rmax_r (c / (2 * eps)) y3); lra).
  assert (Hy0 : 0 < y) by lra.
  set (s := K * exp (v * y - b)).
  assert (Hs : 0 < s) by (unfold s; pose proof (exp_pos (v * y - b)); nra).
  assert (Hsc : s = c * exp (v * y)).
  { unfold s, c. replace (v * y - b) with (- b + v * y) by ring.
    rewrite exp_plus. ring. }
  assert (Hd1 : bs_d1 s K r sigma t = y).
  { unfold bs_d1. fold b. fold v.
    replace (s / K) with (exp (v * y - b)) by (unfold s; field; lra).
    rewrite ln_exp. field. lra. }
  exists s. split; [exact Hs|]. split.
  - apply Rle_lt_trans with x1; [apply Hx1|].
    assert (Hlt : ln (x1 / c) < v * y).
    { apply Rmult_lt_reg_r with (/ v); [now apply Rinv_0_lt_compat|].
      replace (v * y * / v) with y by (field; lra). exact Hy3. }
    apply exp_increasing in Hlt.
    rewrite exp_ln in Hlt by (apply Rdiv_lt_0_compat; lra).
    rewrite Hsc.
    apply Rmult_lt_reg_r with (/ c); [now apply Rinv_0_lt_compat|].
    replace (c * exp (v * y) * / c) with (exp (v * y)) by (field; lra).
    exact Hlt.
  - pose proof (std_cdf_upper_tail y ltac:(lra)) as Htail.
    pose proof (std_cdf_bounds (bs_d2 s K r sigma t)) as [_ Hp2].
    pose proof (exp_pos (- r * t)) as Her.
    unfold bs_call. rewrite Hd1.
    assert (Hexp : exp (v * y) * exp (- (y * y) / 2) < / y).
    { rewrite <- exp_plus.
      apply Rlt_trans with (exp (- y)).
      - apply exp_increasing. nra.
      - assert (H1 : 1 + y < exp y) by (apply exp_ineq1; lra).
        assert (H2 : exp (- y) * exp y = 1).
        { rewrite <- exp_plus. replace (- y + y) with 0 by ring. apply exp_0. }
        pose proof (exp_pos (- y)) as H3.
        apply Rmult_lt_reg_r with y; [exact Hy0|].
        rewrite Rinv_l by lra. nra. }
    assert (Hsy : s * (1 - std_cdf y) < eps).
    { apply Rle_lt_trans with (s * (exp (- (y * y) / 2) / 2)).
      - apply Rmult_le_compat_l; lra.
      - rewrite Hsc.
        assert (Hcy : c * / y < 2 * eps).
        { apply Rmult_lt_reg_r with y; [exact Hy0|].
          rewrite Rmult_assoc, Rinv_l, Rmult_1_r by lra.
          apply Rmult_lt_reg_r with (/ (2 * eps));
            [apply Rinv_0_lt_compat; lra|].
          replace (2 * eps * y * / (2 * eps)) with y by (field; lra).
          exact Hy2. }
        assert (Hce : c * (exp (v * y) * exp (- (y * y) / 2)) < c * / y)
          by (apply Rmult_lt_compat_l; assumption).
        lra. }
    assert (Hk : 0 < K * exp (- r * t) * (1 - std_cdf (bs_d2 s K r sigma t))).
    { apply Rmult_lt_0_compat; [|lra]. apply Rmult_lt_0_compat; lra. }
    lra.
Qed.

(** The call is worth more than the spot less the discounted strike. *)
Lemma bs_call_above_forward (s K r sigma t : R) :
  0 < s -> 0 < K -> 0 < sigma -> 0 < t ->
  s - K * exp (- r * t) < bs_call s K r sigma t.
Proof.
  intros Hs HK Hsig Ht.
  set (Q := fun s => bs_call s K r sigma t - (s - K * exp (- r * t))).
  assert (Hdec : forall a b, 0 < a < b -> Q b < Q a).
  { intros a b [Ha Hab].
    destruct (MVT_cor2 Q (fun s => std_cdf (bs_d1 s K r sigma t) - 1) a b Hab)
      as [c [Hc Hcr]].
    - intros c Hc. unfold Q.
      apply (derivable_pt_lim_minus (fun s => bs_call s K r sigma t)
               (fun s => s - K * exp (- r * t)) c).
      + apply bs_call_derivable_in_spot; lra.
      + replace 1 with (1 - 0) by ring.
        apply (derivable_pt_lim_minus id (fct_cte (K * exp (- r * t))) c).
        * apply derivable_pt_lim_id.
        * apply derivable_pt_lim_const.
    - pose proof (std_cdf_bounds (bs_d1 c K r sigma t)) as [_ H1].
      cbv beta in Hc. nra. }
  destruct (Rlt_dec 0 (Q s)) as [H|H]; [unfold Q in H; lra|].
  exfalso.
  pose proof (Hdec s (s + 1) ltac:(lra)) as H1.
  destruct (bs_call_large_spot K r sigma t (- Q (s + 1)) (s + 1)
              HK Hsig Ht ltac:(lra))
    as (s' & Hs' & Hgt & Hq).
  pose proof (Hdec (s + 1) s' ltac:(lra)) as H2.
  unfold Q in *. lra.
Qed.

(** With a rate that is not negative, the call is worth more than its
    intrinsic value. *)
Lemma bs_call_above_intrinsic (s K r sigma t : R) :
  0 < s -> 0 < K -> 0 < sigma -> 0 < t -> 0 <= r ->
  Rmax (s - K) 0 < bs_call s K r sigma t.
Proof.
  intros Hs HK Hsig Ht Hr.
  pose proof (bs_call_pos s K r sigma t Hs HK Hsig Ht) as Hpos.
  pose proof (bs_call_above_forward s K r sigma t Hs HK Hsig Ht) as Hfw.
  assert (He : exp (- r * t) <= 1).
  { rewrite <- exp_0. destruct (Req_dec (- r * t) 0) as [->|Hne]; [lra|].
    left. apply exp_increasing. nra. }
  apply Rmax_lub_lt; [nra | exact Hpos].
Qed.

(* ================================================================== *)
(** * Bounds *)
(* ================================================================== *)



Lemma delta_value_range (self : Simulator) (s t : R) :
  0 < s -> 0 < Sim.K self -> Sim.sigma self <> 0 ->
  exists d, delta_value self (Fin s) t = Fin d /\ 0 <= d < 1.
Proof.
  intros Hs HK Hsig. destruct (Rle_dec t 0) as [Ht|Ht].
  - exists 0. split; [now apply delta_value_expired | lra].
  - eexists. split; [apply delta_value_fin; try assumption; lra|].
    pose proof (std_cdf_bounds
                  (bs_d1 s (Sim.K self) (Sim.r self) (Sim.sigma self) t)).
    lra.
Qed.

Lemma compare_volatility_rehedge_range (self : Simulator) (c i s d : R) :
  Sim.cash self = Fin c -> Sim.stock_inventory self = Fin i ->
  val (Sim.S self) = Fin s -> 0 <= d < 1 ->
  inventory_in_range (CompareVolatility.rehedge self (Fin d)).
Proof.
  intros Hc Hi Hs Hd.
  rewrite (compare_volatility_rehedge_fin _ c i s d Hc Hi Hs).
  exists (i + (d - i)). split; [reflexivity | lra].
Qed.

Lemma hedging_autosim_rehedge_range (self : Simulator) (c i s d : R) :
  Sim.cash self = Fin c -> Sim.stock_inventory self = Fin i ->
  val (Sim.S self) = Fin s -> 0 <= i < 1 -> 0 <= d < 1 ->
  inventory_in_range (HedgingAutosim.rehedge self (Fin d)).
Proof.
  intros Hc Hi Hs Hir Hd.
  destruct (Rlt_dec 0.001 (Rabs (d - i))) as [Hbig|Hsmall].
  - rewrite (hedging_autosim_rehedge_trade _ c i s d Hc Hi Hs Hbig).
    exists (i + (d - i)). split; [reflexivity | lra].
  - rewrite (hedging_autosim_rehedge_skip _ i d Hi) by lra.
    exists i. split; assumption.
Qed.

Section Inventory.

Variable rehedge : Simulator -> float64 -> Simulator.
Hypothesis rehedge_frame : only_trades rehedge.
Hypothesis rehedge_finite : keeps_finite rehedge.
Hypothesis rehedge_range :
  forall self c i s d,
    Sim.cash self = Fin c -> Sim.stock_inventory self = Fin i ->
    val (Sim.S self) = Fin s -> 0 <= i < 1 -> 0 <= d < 1 ->
    inventory_in_range (rehedge self (Fin d)).

Lemma step_inventory_range t w :
  valid_params (self_of w) -> finite_book (self_of w) ->
  inventory_in_range (self_of w) ->
  inventory_in_range (self_of (step rehedge t w)).
Proof.
  intros (HK & Hsig & _) (s & c & i & Hs & Hpos & Hc & Hi) (i' & Hi' & Hr).
  rewrite Hi in Hi'. apply Fin_inj in Hi'. subst i'.
  destruct (delta_value_range (self_of w) s t Hpos HK Hsig) as (d & Hd & Hdr).
  unfold inventory_in_range. rewrite step_stock_inventory, Hs, Hd.
  exact (rehedge_range (self_of w) c i s d Hc Hi Hs Hr Hdr).
Qed.

Lemma steps_inventory_range k t w :
  valid_params (self_of w) -> finite_book (self_of w) ->
  inventory_in_range (self_of w) ->
  inventory_in_range (self_of (snd (steps rehedge k t w))).
Proof.
  intros Hv Hf Hr. induction k as [|k IH]; [exact Hr|].
  destruct (steps_finite_book _ rehedge_frame rehedge_finite k t w Hv Hf)
    as [Hv' Hf'].
  cbn [steps]. destruct (steps rehedge k t w) as [t' w']. cbn [snd] in *.
  now apply step_inventory_range.
Qed.

End Inventory.






(* ================================================================== *)
(** * The Greeks as derivatives *)
(* ================================================================== *)









(* ================================================================== *)
(** * How the price moves *)
(* ================================================================== *)


(** X27. The premiums of the two scenarios.  Whatever the state of the
    generator, [run_comparison] collects a positive premium in the
    low-volatility scenario, a strictly larger one in the high-volatility
    scenario, and both are below the spot of 100. *)
Theorem run_comparison_premiums (g : RandomState) :
  exists stocks_low pnl_low premium_low stocks_high pnl_high premium_high g',
    run_comparison g
    = (Return ((stocks_low, pnl_low, Fin premium_low),
               (stocks_high, pnl_high, Fin premium_high)), g')
    /\ 0 < premium_low /\ premium_low < premium_high /\ premium_high < 100.
Proof.
  assert (Hlow : valid_inputs 100 100 0.25 0.05 0.15 100)
    by (repeat split; try lra; lia).
  assert (Hhigh : valid_inputs 100 100 0.25 0.05 0.80 100)
    by (repeat split; try lra; lia).
  assert (HT : 0 < 0.25) by lra.
  destruct (compare_volatility_run_valid 100 100 0.25 0.05 0.15 100 g Hlow HT)
    as (stocks_low & pnl_low & w1 & Hrun1 & _).
  destruct (compare_volatility_run_valid 100 100 0.25 0.05 0.80 100
              (np_random w1) Hhigh HT)
    as (stocks_high & pnl_high & w2 & Hrun2 & _).
  exists stocks_low, pnl_low, (bs_call 100 100 0.05 0.15 0.25),
    stocks_high, pnl_high, (bs_call 100 100 0.05 0.80 0.25), (np_random w2).
  split.
  - unfold run_comparison. cbn zeta.
    rewrite !init_returns by lia. rewrite Hrun1, Hrun2. reflexivity.
  - split; [apply bs_call_pos; lra|].
    split; [apply bs_call_increasing_in_volatility; lra|].
    apply bs_call_lt_spot; lra.
Qed.

(* ================================================================== *)
(** * The last PnL entry against settlement *)
(* ================================================================== *)

Section Settlement.

Variable rehedge : Simulator -> float64 -> Simulator.
Hypothesis rehedge_frame : only_trades rehedge.
Hypothesis rehedge_finite : keeps_finite rehedge.

Lemma steps_last_pnl_below_settlement (n_steps : Z) (w0 : world) :
  (1 <= n_steps)%Z -> valid_params (self_of w0) -> finite_book (self_of w0) ->
  0 < Sim.sigma (self_of w0) -> 0 <= Sim.r (self_of w0) ->
  0 < Sim.dt (self_of w0) ->
  IZR n_steps * Sim.dt (self_of w0) = Sim.T (self_of w0) ->
  let w' := snd (steps rehedge (Z.to_nat n_steps) (Sim.T (self_of w0)) w0) in
  exists last h payoff,
    last_item (Sim.pnl_history (self_of w')) = Return (Fin last)
    /\ hedge_value (self_of w') = Fin h
    /\ black_scholes_price (self_of w') (Sim.S (self_of w')) 0
       = Return (Fin payoff)
    /\ last < h - payoff.
Proof.
  intros Hn Hv Hf Hsig Hr Hdt HT. cbn zeta.
  destruct (steps_last_pnl_valid rehedge rehedge_frame rehedge_finite
              n_steps w0 Hn Hv Hf Hdt HT) as (s & Hs & Hpos & Hlast).
  destruct (steps_finite_book _ rehedge_frame rehedge_finite
              (Z.to_nat n_steps) (Sim.T (self_of w0)) w0 Hv Hf) as [Hv' Hf'].
  pose proof (finite_book_hedge_value _ Hf') as Hh.
  destruct (steps_params _ rehedge_frame (Z.to_nat n_steps)
              (Sim.T (self_of w0)) w0) as (EK & _).
  set (w' := snd (steps rehedge (Z.to_nat n_steps) (Sim.T (self_of w0)) w0))
    in *.
  destruct (hedge_value (self_of w')) as [h| | |] eqn:Eh; try contradiction.
  destruct Hv as (HK & _).
  exists (h - bs_call s (Sim.K (self_of w0)) (Sim.r (self_of w0))
                (Sim.sigma (self_of w0)) (Sim.dt (self_of w0))),
    h, (Rmax (s - Sim.K (self_of w0)) 0).
  split; [rewrite Hlast; reflexivity|]. split; [reflexivity|]. split.
  - rewrite black_scholes_price_value by (right; left; lra).
    rewrite Hs, price_value_expired by lra. now rewrite EK.
  - pose proof (bs_call_above_intrinsic s (Sim.K (self_of w0))
                  (Sim.r (self_of w0)) (Sim.sigma (self_of w0))
                  (Sim.dt (self_of w0)) Hpos HK Hsig Hdt Hr).
    lra.
Qed.

End Settlement.


